(** * MiniBusTub: storage core

    A shallow embedding of the storage layer of MiniBusTub (disk manager,
    LRU-K replacer, buffer pool manager, extendible hash pages and the disk
    extendible hash table), followed by the properties of the
    specification that were checked against it.

    Conventions.
    - C++ integers are [Z]; every place where the source relies on a fixed
      width has its wrap-around written out with the functions of
      [Machine].  Signed overflow is rendered as two's complement
      wrap-around.
    - A method that mutates [this] takes the object and returns the new one.
    - An operation that may not return (a failed [BUSTUB_ASSERT], which the
      specification has abort; an array index outside the array; a shift
      by more bits than the operand has) has an [option] result, with
      [None] for these runs.  Where [option] stands for a result of the
      source instead (the [bool] of [Evict], the [Page *] of [NewPage] and
      [FetchPage], the value found by [Lookup]), the definition says so. *)

From Stdlib Require Import ZArith Lia Bool.
From stdpp Require Import base option list gmap fin_maps.

Local Open Scope Z_scope.

(* ===================================================================== *)
(** * Part I: the model                                                   *)
(* ===================================================================== *)

(** ** Fixed width arithmetic *)

Module Machine.

Definition wrap_u8 (z : Z) : Z := z mod 2 ^ 8.
Definition wrap_u32 (z : Z) : Z := z mod 2 ^ 32.
Definition wrap_u64 (z : Z) : Z := z mod 2 ^ 64.
(** two's complement [int] *)
Definition wrap_i32 (z : Z) : Z := (z + 2 ^ 31) mod 2 ^ 32 - 2 ^ 31.

Definition INT32_MAX : Z := 2147483647.

(** [1 << n] with the [int] literal [1] of the source.  The shift is
    only defined while the result fits the [int]. *)
Definition shl1 (n : Z) : option Z :=
  if (0 <=? n) && (n <? 31) then Some (2 ^ n) else None.

End Machine.

(** ** buffer/lru_k_replacer.{h,cpp} *)

Module LRUKNode.

(** [history_] keeps the most recent timestamp at the front. *)
Record t : Type := mk {
  history_ : list Z;
  fid_ : Z;
  k_ : Z;
  is_evictable_ : bool
}.

(** [const size_t INF = INT32_MAX;] *)
Definition INF : Z := Machine.INT32_MAX.

(** The constructor records one access. *)
Definition new (fid current_timestamp k : Z) : t :=
  {| history_ := [current_timestamp]; fid_ := fid; k_ := k;
     is_evictable_ := false |}.

Definition GetEvictable (n : t) : bool := is_evictable_ n.

Definition SetEvictable (set_evictable : bool) (n : t) : t :=
  {| history_ := history_ n; fid_ := fid_ n; k_ := k_ n;
     is_evictable_ := set_evictable |}.

(** [it] starts at [begin()] and is advanced while [k_tmp < k_], that is
    [k_ - 1] times (not at all for [k_ <= 1]). *)
Definition GetKDistance (n : t) (current_timestamp : Z) : Z :=
  if Z.of_nat (length (history_ n)) <? k_ n then INF
  else Machine.wrap_u64
         (current_timestamp - nth (Z.to_nat (k_ n - 1)) (history_ n) 0).

(** [history_.back()] *)
Definition GetEarlyTimestamp (n : t) : Z := List.last (history_ n) 0.

Definition RecordAccess (current_timestamp : Z) (n : t) : t :=
  {| history_ := current_timestamp :: history_ n; fid_ := fid_ n;
     k_ := k_ n; is_evictable_ := is_evictable_ n |}.

End LRUKNode.

Module LRUKReplacer.

(** [node_store_] is a [std::unordered_map]; its iteration order is the
    order of [map_to_list], about which nothing is assumed. *)
Record t : Type := mk {
  node_store_ : gmap Z LRUKNode.t;
  current_timestamp_ : Z;
  evictable_size_ : Z;
  replacer_size_ : Z;
  k_ : Z
}.

Definition new (num_frames k : Z) : t :=
  {| node_store_ := ∅; current_timestamp_ := 0; evictable_size_ := 0;
     replacer_size_ := num_frames; k_ := k |}.

(** The three locals of the selection loop of [Evict]. *)
Record scan : Type := mkscan {
  mx_k_distance : Z;
  early_timestamp : Z;
  evict_id : Z
}.

(** One iteration of [for (const auto &i : node_store_)]. *)
Definition Evict_step (current_timestamp : Z) (st : scan)
    (i : Z * LRUKNode.t) : scan :=
  let node := i.2 in
  if negb (LRUKNode.GetEvictable node) then st
  else
    let now_k_distance := LRUKNode.GetKDistance node current_timestamp in
    if mx_k_distance st <? now_k_distance then
      {| mx_k_distance := now_k_distance;
         early_timestamp := LRUKNode.GetEarlyTimestamp node;
         evict_id := i.1 |}
    else if now_k_distance =? mx_k_distance st then
      let now_early_timestamp := LRUKNode.GetEarlyTimestamp node in
      if now_early_timestamp <? early_timestamp st then
        {| mx_k_distance := mx_k_distance st;
           early_timestamp := now_early_timestamp;
           evict_id := i.1 |}
      else st
    else st.

Definition Evict_scan (early0 : Z) (r : t) : scan :=
  foldl (Evict_step (current_timestamp_ r))
        {| mx_k_distance := 0; early_timestamp := early0; evict_id := -1 |}
        (map_to_list (node_store_ r)).

(** [Evict].  The local [early_timestamp] is declared without an
    initialiser and is read by the tie branch when the first evictable
    node has distance 0; [early0] is the value it happens to hold.
    [None] is the [return false] (nothing changes); [Some (f, r')] is the
    [return true] with [*frame_id = f]. *)
Definition Evict (early0 : Z) (r : t) : option (Z * t) :=
  let st := Evict_scan early0 r in
  if evict_id st =? -1 then None
  else
    Some (evict_id st,
          {| node_store_ := delete (evict_id st) (node_store_ r);
             current_timestamp_ := current_timestamp_ r;
             evictable_size_ := Machine.wrap_u64 (evictable_size_ r - 1);
             replacer_size_ := replacer_size_ r;
             k_ := k_ r |}).

(** [RecordAccess]; [None] when the [BUSTUB_ASSERT] on the frame id
    fails.  [++current_timestamp_] comes first in both branches. *)
Definition RecordAccess (frame_id : Z) (r : t) : option t :=
  if (0 <=? frame_id) && (frame_id <? replacer_size_ r) then
    let ts := Machine.wrap_u64 (current_timestamp_ r + 1) in
    let node :=
      match node_store_ r !! frame_id with
      | None => LRUKNode.new frame_id ts (k_ r)
      | Some n => LRUKNode.RecordAccess ts n
      end in
    Some {| node_store_ := <[frame_id := node]> (node_store_ r);
            current_timestamp_ := ts;
            evictable_size_ := evictable_size_ r;
            replacer_size_ := replacer_size_ r;
            k_ := k_ r |}
  else None.

(** [SetEvictable]; [None] when the frame is unknown (assertion). *)
Definition SetEvictable (frame_id : Z) (set_evictable : bool) (r : t)
    : option t :=
  match node_store_ r !! frame_id with
  | None => None
  | Some now_frame =>
      if LRUKNode.GetEvictable now_frame && negb set_evictable then
        Some {| node_store_ :=
                  <[frame_id := LRUKNode.SetEvictable false now_frame]>
                    (node_store_ r);
                current_timestamp_ := current_timestamp_ r;
                evictable_size_ := Machine.wrap_u64 (evictable_size_ r - 1);
                replacer_size_ := replacer_size_ r;
                k_ := k_ r |}
      else if negb (LRUKNode.GetEvictable now_frame) && set_evictable then
        Some {| node_store_ :=
                  <[frame_id := LRUKNode.SetEvictable true now_frame]>
                    (node_store_ r);
                current_timestamp_ := current_timestamp_ r;
                evictable_size_ := Machine.wrap_u64 (evictable_size_ r + 1);
                replacer_size_ := replacer_size_ r;
                k_ := k_ r |}
      else Some r
  end.

(** [Remove]; an unknown frame is ignored, a frame that is not evictable
    fails the assertion. *)
Definition Remove (frame_id : Z) (r : t) : option t :=
  match node_store_ r !! frame_id with
  | None => Some r
  | Some n =>
      if negb (LRUKNode.GetEvictable n) then None
      else
        Some {| node_store_ := delete frame_id (node_store_ r);
                current_timestamp_ := current_timestamp_ r;
                evictable_size_ := Machine.wrap_u64 (evictable_size_ r - 1);
                replacer_size_ := replacer_size_ r;
                k_ := k_ r |}
  end.

Definition Size (r : t) : Z := evictable_size_ r.

End LRUKReplacer.

(** ** storage/disk/disk_manager.{h,cpp} *)

Module DiskManager.

(** Modelled from the spec: common/config.h is not among the sources;
    "page_size is a build-time constant (default 4096)". *)
Definition BUSTUB_PAGE_SIZE : Z := 4096.

(** The database file is the sequence of its bytes.  The log file and
    the statistics that only concern it are left out. *)
Record t : Type := mk {
  db_io_ : list Byte.byte;
  num_writes_ : Z
}.

Definition zeros (n : Z) : list Byte.byte := repeat Byte.x00 (Z.to_nat n).

(** [stat] on the file, cast to [int]. *)
Definition GetFileSize (d : t) : Z :=
  Machine.wrap_i32 (Z.of_nat (length (db_io_ d))).

(** [ReadPage].  [page_data] is the caller's buffer, the result is the
    buffer after the call.  [int offset = page_id * BUSTUB_PAGE_SIZE] is
    an [int] product.  When the offset is larger than the file the call
    only logs; otherwise [read_count] bytes come from the file and the
    rest of the buffer is cleared.  A negative offset makes the seek and
    hence the read fail with [read_count = 0]. *)
Definition ReadPage (d : t) (page_id : Z) (page_data : list Byte.byte)
    : list Byte.byte :=
  let offset := Machine.wrap_i32 (page_id * BUSTUB_PAGE_SIZE) in
  if GetFileSize d <? offset then page_data
  else
    let got :=
      if offset <? 0 then []
      else take (Z.to_nat BUSTUB_PAGE_SIZE) (drop (Z.to_nat offset) (db_io_ d)) in
    let read_count := Z.of_nat (length got) in
    if read_count <? BUSTUB_PAGE_SIZE then
      got ++ zeros (BUSTUB_PAGE_SIZE - read_count)
    else got.

(** [WritePage]: seek to [size_t(page_id) * BUSTUB_PAGE_SIZE] and write
    one page; a gap between the old end of file and the offset reads as
    zeros afterwards. *)
Definition WritePage (d : t) (page_id : Z) (page_data : list Byte.byte) : t :=
  let offset :=
    Machine.wrap_u64 (Machine.wrap_u64 page_id * BUSTUB_PAGE_SIZE) in
  let padded := db_io_ d ++ zeros (offset - Z.of_nat (length (db_io_ d))) in
  {| db_io_ :=
       take (Z.to_nat offset) padded
         ++ take (Z.to_nat BUSTUB_PAGE_SIZE) page_data
         ++ drop (Z.to_nat (offset + BUSTUB_PAGE_SIZE)) (db_io_ d);
     num_writes_ := num_writes_ d + 1 |}.

End DiskManager.

(** ** storage/page/page.h *)

Module Page.

(** Modelled from the spec: storage/page/page.h is not among the
    sources; "Page: a fixed-size byte buffer plus metadata {page_id,
    pin_count, dirty bit, reader/writer latch}".  The latch is left
    out. *)
Record t : Type := mk {
  data_ : list Byte.byte;
  page_id_ : Z;
  pin_count_ : Z;
  is_dirty_ : bool
}.

(** Modelled from the spec: common/config.h is not among the sources;
    "a distinguished sentinel denotes none".  It is taken as -1, a value
    that [AllocatePage] does not hand out before the counter wraps. *)
Definition INVALID_PAGE_ID : Z := -1.

Definition new : t :=
  {| data_ := DiskManager.zeros DiskManager.BUSTUB_PAGE_SIZE;
     page_id_ := INVALID_PAGE_ID; pin_count_ := 0; is_dirty_ := false |}.

Definition ResetMemory (p : t) : t :=
  {| data_ := DiskManager.zeros DiskManager.BUSTUB_PAGE_SIZE;
     page_id_ := page_id_ p; pin_count_ := pin_count_ p;
     is_dirty_ := is_dirty_ p |}.

Definition GetPageId (p : t) : Z := page_id_ p.
Definition GetPinCount (p : t) : Z := pin_count_ p.
Definition IsDirty (p : t) : bool := is_dirty_ p.

End Page.

(** ** buffer/buffer_pool_manager.cpp *)

Module BufferPoolManager.

(** The disk scheduler hands every request to the disk manager and the
    caller waits for the completion ([future.get()]), so a scheduled
    request is a call of [ReadPage] or [WritePage] on [disk_]. *)
Record t : Type := mk {
  pool_size_ : Z;
  next_page_id_ : Z;
  pages_ : list Page.t;
  disk_ : DiskManager.t;
  replacer_ : LRUKReplacer.t;
  free_list_ : list Z;
  page_table_ : gmap Z Z
}.

Definition new (pool_size : Z) (disk_manager : DiskManager.t)
    (replacer_k : Z) : t :=
  {| pool_size_ := pool_size;
     next_page_id_ := 0;
     pages_ := repeat Page.new (Z.to_nat pool_size);
     disk_ := disk_manager;
     replacer_ := LRUKReplacer.new pool_size replacer_k;
     free_list_ := seqZ 0 pool_size;
     page_table_ := ∅ |}.

Definition page_at (b : t) (frame_id : Z) : option Page.t :=
  if frame_id <? 0 then None else pages_ b !! Z.to_nat frame_id.

Definition set_page (frame_id : Z) (p : Page.t) (b : t) : t :=
  {| pool_size_ := pool_size_ b; next_page_id_ := next_page_id_ b;
     pages_ := <[Z.to_nat frame_id := p]> (pages_ b);
     disk_ := disk_ b; replacer_ := replacer_ b;
     free_list_ := free_list_ b; page_table_ := page_table_ b |}.

Definition set_replacer (r : LRUKReplacer.t) (b : t) : t :=
  {| pool_size_ := pool_size_ b; next_page_id_ := next_page_id_ b;
     pages_ := pages_ b; disk_ := disk_ b; replacer_ := r;
     free_list_ := free_list_ b; page_table_ := page_table_ b |}.

Definition set_free_list (l : list Z) (b : t) : t :=
  {| pool_size_ := pool_size_ b; next_page_id_ := next_page_id_ b;
     pages_ := pages_ b; disk_ := disk_ b; replacer_ := replacer_ b;
     free_list_ := l; page_table_ := page_table_ b |}.

Definition set_page_table (m : gmap Z Z) (b : t) : t :=
  {| pool_size_ := pool_size_ b; next_page_id_ := next_page_id_ b;
     pages_ := pages_ b; disk_ := disk_ b; replacer_ := replacer_ b;
     free_list_ := free_list_ b; page_table_ := m |}.

Definition set_disk (d : DiskManager.t) (b : t) : t :=
  {| pool_size_ := pool_size_ b; next_page_id_ := next_page_id_ b;
     pages_ := pages_ b; disk_ := d; replacer_ := replacer_ b;
     free_list_ := free_list_ b; page_table_ := page_table_ b |}.

(** [AllocatePage]: [return next_page_id_++;] on a 32 bit atomic. *)
Definition AllocatePage (b : t) : Z * t :=
  (next_page_id_ b,
   {| pool_size_ := pool_size_ b;
      next_page_id_ := Machine.wrap_i32 (next_page_id_ b + 1);
      pages_ := pages_ b; disk_ := disk_ b; replacer_ := replacer_ b;
      free_list_ := free_list_ b; page_table_ := page_table_ b |}).

(** [FlushPage]; [None] when the assertion on [INVALID_PAGE_ID] fails. *)
Definition FlushPage (page_id : Z) (b : t) : option (bool * t) :=
  if page_id =? Page.INVALID_PAGE_ID then None
  else
    match page_table_ b !! page_id with
    | None => Some (false, b)
    | Some frame_id =>
        page ← page_at b frame_id;
        let page' :=
          {| Page.data_ := Page.data_ page; Page.page_id_ := Page.page_id_ page;
             Page.pin_count_ := Page.pin_count_ page;
             Page.is_dirty_ := false |} in
        let b1 := set_page frame_id page' b in
        Some (true,
              set_disk (DiskManager.WritePage (disk_ b1) page_id
                          (Page.data_ page')) b1)
    end.

(** The frame selection that opens both [NewPage] and the miss path of
    [FetchPage] (the same lines in both): the front of the free list,
    else a victim of the replacer, written back if dirty and dropped
    from the page table.  The inner [None] is the [return nullptr]. *)
Definition take_frame (early0 : Z) (b : t) : option (option (Z * t)) :=
  match free_list_ b with
  | frame_id :: rest => Some (Some (frame_id, set_free_list rest b))
  | [] =>
      match LRUKReplacer.Evict early0 (replacer_ b) with
      | Some (frame_id, r) =>
          let b1 := set_replacer r b in
          old_page ← page_at b1 frame_id;
          b2 ← (if Page.IsDirty old_page
                then snd <$> FlushPage (Page.GetPageId old_page) b1
                else Some b1);
          Some (Some (frame_id,
                      set_page_table
                        (delete (Page.GetPageId old_page) (page_table_ b2)) b2))
      | None => Some None
      end
  end.

(** [replacer_->RecordAccess(frame_id); replacer_->SetEvictable(frame_id, false);] *)
Definition touch (frame_id : Z) (b : t) : option t :=
  r1 ← LRUKReplacer.RecordAccess frame_id (replacer_ b);
  r2 ← LRUKReplacer.SetEvictable frame_id false r1;
  Some (set_replacer r2 b).

(** [NewPage]: the result is the frame of the returned [Page *] with the
    id written to [*page_id], or [None] for [nullptr]. *)
Definition NewPage (early0 : Z) (b : t) : option (option (Z * Z) * t) :=
  sel ← take_frame early0 b;
  match sel with
  | None => Some (None, b)
  | Some (frame_id, b1) =>
      let '(new_page_id, b2) := AllocatePage b1 in
      b3 ← touch frame_id b2;
      let b4 := set_page_table (<[new_page_id := frame_id]> (page_table_ b3)) b3 in
      page ← page_at b4 frame_id;
      let page' :=
        {| Page.data_ := Page.data_ (Page.ResetMemory page);
           Page.page_id_ := new_page_id;
           Page.pin_count_ := 1;
           Page.is_dirty_ := false |} in
      Some (Some (frame_id, new_page_id), set_page frame_id page' b4)
  end.

(** [FetchPage]: the frame of the returned [Page *], or [None]. *)
Definition FetchPage (early0 : Z) (page_id : Z) (b : t)
    : option (option Z * t) :=
  match page_table_ b !! page_id with
  | Some frame_id =>
      page ← page_at b frame_id;
      let page' :=
        {| Page.data_ := Page.data_ page; Page.page_id_ := Page.page_id_ page;
           Page.pin_count_ := Machine.wrap_i32 (Page.pin_count_ page + 1);
           Page.is_dirty_ := true |} in
      b1 ← touch frame_id (set_page frame_id page' b);
      Some (Some frame_id, b1)
  | None =>
      sel ← take_frame early0 b;
      match sel with
      | None => Some (None, b)
      | Some (frame_id, b1) =>
          b2 ← touch frame_id b1;
          let b3 := set_page_table (<[page_id := frame_id]> (page_table_ b2)) b2 in
          page ← page_at b3 frame_id;
          let page' :=
            {| Page.data_ := DiskManager.ReadPage (disk_ b3) page_id (Page.data_ page);
               Page.page_id_ := page_id;
               Page.pin_count_ := 1;
               Page.is_dirty_ := false |} in
          Some (Some frame_id, set_page frame_id page' b3)
      end
  end.

Definition UnpinPage (page_id : Z) (is_dirty : bool) (b : t)
    : option (bool * t) :=
  match page_table_ b !! page_id with
  | None => Some (false, b)
  | Some frame_id =>
      page ← page_at b frame_id;
      if Page.GetPinCount page <=? 0 then Some (false, b)
      else
        let pin := Machine.wrap_i32 (Page.pin_count_ page - 1) in
        r ← LRUKReplacer.SetEvictable frame_id (pin =? 0) (replacer_ b);
        let page' :=
          {| Page.data_ := Page.data_ page; Page.page_id_ := Page.page_id_ page;
             Page.pin_count_ := pin;
             Page.is_dirty_ := is_dirty |} in
        Some (true, set_page frame_id page' (set_replacer r b))
  end.

Definition DeletePage (page_id : Z) (b : t) : option (bool * t) :=
  match page_table_ b !! page_id with
  | None => Some (true, b)
  | Some frame_id =>
      page ← page_at b frame_id;
      if 0 <? Page.GetPinCount page then Some (false, b)
      else
        b1 ← (if Page.is_dirty_ page then snd <$> FlushPage page_id b
              else Some b);
        page1 ← page_at b1 frame_id;
        let b2 := set_page frame_id (Page.ResetMemory page1) b1 in
        let b3 := set_page_table
                    (delete (Page.GetPageId page1) (page_table_ b2)) b2 in
        r ← LRUKReplacer.Remove frame_id (replacer_ b3);
        Some (true,
              set_free_list (free_list_ b3 ++ [frame_id]) (set_replacer r b3))
  end.


End BufferPoolManager.

(** ** storage/page/page_guard.{h,cpp} *)

Module BasicPageGuard.

(** [bpm_] is the pool of the guard or [nullptr], so only whether it is
    set is kept.  [page_] points into [pages_]; it is kept as the frame
    id, [None] for [nullptr]. *)
Record t : Type := mk {
  bpm_ : bool;
  page_ : option Z;
  is_dirty_ : bool
}.

(** [BasicPageGuard(bpm, page)] *)
Definition new (page : option Z) : t :=
  {| bpm_ := true; page_ := page; is_dirty_ := false |}.

(** [page_->GetPageId()] *)
Definition PageId (g : t) (b : BufferPoolManager.t) : option Z :=
  frame_id ← page_ g;
  Page.GetPageId <$> BufferPoolManager.page_at b frame_id.

(** [GetDataMut] marks the guard, not the page. *)
Definition GetDataMut (g : t) : t :=
  {| bpm_ := bpm_ g; page_ := page_ g; is_dirty_ := true |}.

(** [Drop]: the guard and the pool after the call.  The result of
    [UnpinPage] is not looked at. *)
Definition Drop (g : t) (b : BufferPoolManager.t)
    : option (t * BufferPoolManager.t) :=
  match page_ g with
  | None => Some (g, b)
  | Some frame_id =>
      page ← BufferPoolManager.page_at b frame_id;
      if Page.GetPinCount page <=? 0 then Some (g, b)
      else if bpm_ g then
        r ← BufferPoolManager.UnpinPage (Page.GetPageId page) (is_dirty_ g) b;
        Some ({| bpm_ := false; page_ := None; is_dirty_ := is_dirty_ g |},
              r.2)
      else None
  end.

(** [BufferPoolManager::FetchPageBasic] *)
Definition FetchPageBasic (early0 page_id : Z) (b : BufferPoolManager.t)
    : option (t * BufferPoolManager.t) :=
  r ← BufferPoolManager.FetchPage early0 page_id b;
  Some (new r.1, r.2).

(** [BufferPoolManager::NewPageGuarded]: the guard and the id written to
    [*page_id], if any. *)
Definition NewPageGuarded (early0 : Z) (b : BufferPoolManager.t)
    : option (t * option Z * BufferPoolManager.t) :=
  r ← BufferPoolManager.NewPage early0 b;
  Some (new (fst <$> r.1), snd <$> r.1, r.2).

End BasicPageGuard.

(** ** storage/page/extendible_htable_header_page.{h,cpp} *)

Module ExtendibleHTableHeaderPage.

Definition HTABLE_HEADER_MAX_DEPTH : Z := 9.
Definition HTABLE_HEADER_ARRAY_SIZE : Z := 2 ^ HTABLE_HEADER_MAX_DEPTH.

Record t : Type := mk {
  directory_page_ids_ : list Z;
  max_depth_ : Z
}.

(** The image of a page that was just zeroed by [NewPage]. *)
Definition blank : t :=
  {| directory_page_ids_ := repeat 0 (Z.to_nat HTABLE_HEADER_ARRAY_SIZE);
     max_depth_ := 0 |}.

(** [std::fill] over the first [1 << max_depth] cells. *)
Definition Init (max_depth : Z) (h : t) : option t :=
  n ← Machine.shl1 max_depth;
  if Z.of_nat (length (directory_page_ids_ h)) <? n then None
  else
    Some {| directory_page_ids_ :=
              repeat Page.INVALID_PAGE_ID (Z.to_nat n)
                ++ drop (Z.to_nat n) (directory_page_ids_ h);
            max_depth_ := max_depth |}.

(** [max_depth_ > 0 ? hash >> (sizeof(uint32_t) * 8 - max_depth_) : 0] *)
Definition HashToDirectoryIndex (h : t) (hash : Z) : option Z :=
  if 0 <? max_depth_ h then
    if max_depth_ h <=? 32 then Some (Z.shiftr hash (32 - max_depth_ h))
    else None
  else Some 0.

(** The result is a [uint32_t] that every caller casts back to
    [page_id_t]; the two casts cancel and are not shown. *)
Definition GetDirectoryPageId (h : t) (directory_idx : Z) : option Z :=
  if directory_idx <? 0 then None
  else directory_page_ids_ h !! Z.to_nat directory_idx.

Definition SetDirectoryPageId (directory_idx directory_page_id : Z) (h : t)
    : option t :=
  if (0 <=? directory_idx)
     && (directory_idx <? Z.of_nat (length (directory_page_ids_ h))) then
    Some {| directory_page_ids_ :=
              <[Z.to_nat directory_idx := directory_page_id]>
                (directory_page_ids_ h);
            max_depth_ := max_depth_ h |}
  else None.

Definition MaxSize (h : t) : Z := max_depth_ h.

End ExtendibleHTableHeaderPage.

(** ** storage/page/extendible_htable_directory_page.{h,cpp} *)

Module ExtendibleHTableDirectoryPage.

Definition HTABLE_DIRECTORY_MAX_DEPTH : Z := 9.
Definition HTABLE_DIRECTORY_ARRAY_SIZE : Z := 2 ^ HTABLE_DIRECTORY_MAX_DEPTH.

(** [local_depths_] holds [uint8_t], [bucket_page_ids_] holds
    [page_id_t]. *)
Record t : Type := mk {
  max_depth_ : Z;
  global_depth_ : Z;
  local_depths_ : list Z;
  bucket_page_ids_ : list Z
}.

Definition blank : t :=
  {| max_depth_ := 0; global_depth_ := 0;
     local_depths_ := repeat 0 (Z.to_nat HTABLE_DIRECTORY_ARRAY_SIZE);
     bucket_page_ids_ := repeat 0 (Z.to_nat HTABLE_DIRECTORY_ARRAY_SIZE) |}.

(** An array cell; [None] outside the array. *)
Definition cell (a : list Z) (idx : Z) : option Z :=
  if idx <? 0 then None else a !! Z.to_nat idx.

Definition set_cell (a : list Z) (idx v : Z) : option (list Z) :=
  if (0 <=? idx) && (idx <? Z.of_nat (length a))
  then Some (<[Z.to_nat idx := v]> a) else None.

Definition Init (max_depth : Z) (d : t) : t :=
  {| max_depth_ := max_depth; global_depth_ := 0;
     local_depths_ := local_depths_ d;
     bucket_page_ids_ := bucket_page_ids_ d |}.

Definition GetGlobalDepthMask (d : t) : option Z :=
  p ← Machine.shl1 (global_depth_ d); Some (p - 1).

Definition HashToBucketIndex (d : t) (hash : Z) : option Z :=
  global_depth_mask ← GetGlobalDepthMask d;
  Some (Z.land hash global_depth_mask).

Definition GetBucketPageId (d : t) (bucket_idx : Z) : option Z :=
  cell (bucket_page_ids_ d) bucket_idx.

Definition SetBucketPageId (bucket_idx bucket_page_id : Z) (d : t)
    : option t :=
  a ← set_cell (bucket_page_ids_ d) bucket_idx bucket_page_id;
  Some {| max_depth_ := max_depth_ d; global_depth_ := global_depth_ d;
          local_depths_ := local_depths_ d; bucket_page_ids_ := a |}.

Definition GetSplitImageIndex (d : t) (bucket_idx : Z) : option Z :=
  local_depth ← cell (local_depths_ d) bucket_idx;
  p ← Machine.shl1 local_depth;
  Some (Z.lxor bucket_idx p).

Definition GetGlobalDepth (d : t) : Z := global_depth_ d.

(** The copy loop of [IncrGlobalDepth]; it runs [2 ^ (global_depth_ - 1)]
    times, [fuel] bounds the number of iterations. *)
Fixpoint IncrGlobalDepth_loop (fuel : nat) (limit origin_index new_index : Z)
    (d : t) : option t :=
  if new_index <? limit then
    match fuel with
    | O => None
    | S fuel' =>
        id ← cell (bucket_page_ids_ d) origin_index;
        ids ← set_cell (bucket_page_ids_ d) new_index id;
        ld ← cell (local_depths_ d) origin_index;
        lds ← set_cell (local_depths_ d) new_index ld;
        IncrGlobalDepth_loop fuel' limit
          (Machine.wrap_u32 (origin_index + 1))
          (Machine.wrap_u32 (new_index + 1))
          {| max_depth_ := max_depth_ d; global_depth_ := global_depth_ d;
             local_depths_ := lds; bucket_page_ids_ := ids |}
    end
  else Some d.

Definition IncrGlobalDepth (d : t) : option t :=
  let g := Machine.wrap_u32 (global_depth_ d + 1) in
  new_index ← Machine.shl1 (g - 1);
  limit ← Machine.shl1 g;
  IncrGlobalDepth_loop (Z.to_nat limit) limit 0 new_index
    {| max_depth_ := max_depth_ d; global_depth_ := g;
       local_depths_ := local_depths_ d;
       bucket_page_ids_ := bucket_page_ids_ d |}.

Definition DecrGlobalDepth (d : t) : t :=
  {| max_depth_ := max_depth_ d;
     global_depth_ := Machine.wrap_u32 (global_depth_ d - 1);
     local_depths_ := local_depths_ d;
     bucket_page_ids_ := bucket_page_ids_ d |}.

Definition Size (d : t) : option Z := Machine.shl1 (global_depth_ d).

Definition CanShrink (d : t) : option bool :=
  n ← Size d;
  Some (forallb (fun depth => depth <? global_depth_ d)
                (take (Z.to_nat n) (local_depths_ d))).

Definition GetLocalDepth (d : t) (bucket_idx : Z) : option Z :=
  cell (local_depths_ d) bucket_idx.

(** The parameter is a [uint8_t]. *)
Definition SetLocalDepth (bucket_idx local_depth : Z) (d : t) : option t :=
  a ← set_cell (local_depths_ d) bucket_idx (Machine.wrap_u8 local_depth);
  Some {| max_depth_ := max_depth_ d; global_depth_ := global_depth_ d;
          local_depths_ := a; bucket_page_ids_ := bucket_page_ids_ d |}.

Definition IncrLocalDepth (bucket_idx : Z) (d : t) : option t :=
  ld ← cell (local_depths_ d) bucket_idx;
  a ← set_cell (local_depths_ d) bucket_idx (Machine.wrap_u8 (ld + 1));
  Some {| max_depth_ := max_depth_ d; global_depth_ := global_depth_ d;
          local_depths_ := a; bucket_page_ids_ := bucket_page_ids_ d |}.

Definition DecrLocalDepth (bucket_idx : Z) (d : t) : option t :=
  ld ← cell (local_depths_ d) bucket_idx;
  a ← set_cell (local_depths_ d) bucket_idx (Machine.wrap_u8 (ld - 1));
  Some {| max_depth_ := max_depth_ d; global_depth_ := global_depth_ d;
          local_depths_ := a; bucket_page_ids_ := bucket_page_ids_ d |}.

(** The source reads the cell of [bucket_page_ids_]. *)
Definition GetLocalDepthMask (d : t) (bucket_idx : Z) : option Z :=
  local_depth ← cell (bucket_page_ids_ d) bucket_idx;
  p ← Machine.shl1 local_depth;
  Some (p - 1).

Definition GetMaxDepth (d : t) : Z := max_depth_ d.
Definition MaxSize (d : t) : option Z := Machine.shl1 (max_depth_ d).

End ExtendibleHTableDirectoryPage.

(** ** storage/page/extendible_htable_bucket_page.cpp *)

Module ExtendibleHTableBucketPage.
Section Bucket.

(** [cmp] is the comparator object [KC]: it returns 0 on equal keys. *)
Context {K V : Type} (cmp : K → K → Z).

(** [array_] lists the cells that have been written so far, cell 0
    first.  Cells at and above [size_] are stale: [Remove] leaves the
    removed pair there. *)
Record t : Type := mk {
  size_ : Z;
  max_size_ : Z;
  array_ : list (K * V)
}.

Definition blank : t := {| size_ := 0; max_size_ := 0; array_ := [] |}.

Definition Init (max_size : Z) (b : t) : t :=
  {| size_ := 0; max_size_ := max_size; array_ := array_ b |}.

(** The cells [0 .. size_ - 1] that the loops go through. *)
Definition live (b : t) : list (K * V) := take (Z.to_nat (size_ b)) (array_ b).

(** First cell whose key compares equal ([!cmp(key, cell.first)]),
    with its index. *)
Fixpoint scan (key : K) (tmp : Z) (cells : list (K * V)) : option (Z * V) :=
  match cells with
  | [] => None
  | c :: rest =>
      if cmp key c.1 =? 0 then Some (tmp, c.2)
      else scan key (tmp + 1) rest
  end.

(** [Lookup]: [Some value] for [true] with [value] assigned, [None] for
    [false]. *)
Definition Lookup (b : t) (key : K) : option V :=
  snd <$> scan key 0 (live b).

Definition IsFull (b : t) : bool := size_ b =? max_size_ b.
Definition IsEmpty (b : t) : bool := size_ b =? 0.
Definition Size (b : t) : Z := size_ b.

(** [array_[idx] = c], also for the first cell behind the written ones. *)
Definition store (idx : Z) (c : K * V) (a : list (K * V)) : list (K * V) :=
  if idx <? Z.of_nat (length a) then <[Z.to_nat idx := c]> a
  else a ++ [c].

Definition Insert (key : K) (value : V) (b : t) : bool * t :=
  if IsFull b then (false, b)
  else
    match scan key 0 (live b) with
    | Some _ => (false, b)
    | None =>
        (true,
         {| size_ := Machine.wrap_u32 (size_ b + 1);
            max_size_ := max_size_ b;
            array_ := store (size_ b) (key, value) (array_ b) |})
    end.

(** [std::swap(array_[tmp], array_[size_ - 1]); size_--;] on the first
    match.  Both cells are written ones as long as [size_] does not exceed
    the number of written cells, which [Init], [Insert] and [Remove]
    maintain; the fallback of the inner [match] is never taken then. *)
Definition Remove (key : K) (b : t) : bool * t :=
  match scan key 0 (live b) with
  | Some (tmp, _) =>
      match array_ b !! Z.to_nat tmp, array_ b !! Z.to_nat (size_ b - 1) with
      | Some x, Some y =>
          (true,
           {| size_ := Machine.wrap_u32 (size_ b - 1);
              max_size_ := max_size_ b;
              array_ := <[Z.to_nat (size_ b - 1) := x]>
                          (<[Z.to_nat tmp := y]> (array_ b)) |})
      | _, _ => (false, b)
      end
  | None => (false, b)
  end.

(** [RemoveAt] swaps the cell with the last live one and leaves [size_]
    as it is. *)
Definition RemoveAt (bucket_idx : Z) (b : t) : option t :=
  if bucket_idx <? 0 then None
  else
    x ← array_ b !! Z.to_nat bucket_idx;
    y ← array_ b !! Z.to_nat (size_ b - 1);
    Some {| size_ := size_ b; max_size_ := max_size_ b;
            array_ := <[Z.to_nat (size_ b - 1) := x]>
                        (<[Z.to_nat bucket_idx := y]> (array_ b)) |}.

Definition EntryAt (b : t) (bucket_idx : Z) : option (K * V) :=
  if bucket_idx <? 0 then None else array_ b !! Z.to_nat bucket_idx.

Definition KeyAt (b : t) (bucket_idx : Z) : option K :=
  fst <$> EntryAt b bucket_idx.

Definition ValueAt (b : t) (bucket_idx : Z) : option V :=
  snd <$> EntryAt b bucket_idx.

End Bucket.

Arguments t : clear implicits.
Arguments blank {K V}.

End ExtendibleHTableBucketPage.

(** ** container/disk/hash/disk_extendible_hash_table.{h,cpp} *)

Module DiskExtendibleHashTable.
Section Table.

Context {K V : Type} (cmp : K → K → Z) (hash_fn : K → Z).

Abbreviation header := ExtendibleHTableHeaderPage.t.
Abbreviation directory := ExtendibleHTableDirectoryPage.t.
Abbreviation bucket := (ExtendibleHTableBucketPage.t K V).

(** What the table sees of the buffer pool.  It reaches pages only
    through page guards: [NewPageGuarded] yields a zeroed page under the
    next page id, a fetch yields the page as it was left, and dropping a
    guard keeps the content.  The pool is taken large enough for the
    guards that are alive at the same time, so no fetch returns
    [nullptr].  A page is kept as the typed view it was last written
    through; reading it through another view is not modelled ([None]). *)
Inductive image : Type :=
  | Zeroed
  | Header (h : header)
  | Directory (d : directory)
  | Bucket (b : bucket).

Record pool : Type := mkpool {
  pages : gmap Z image;
  next_page_id : Z
}.

Definition NewPageGuarded (p : pool) : Z * pool :=
  (next_page_id p,
   {| pages := <[next_page_id p := Zeroed]> (pages p);
      next_page_id := Machine.wrap_i32 (next_page_id p + 1) |}).

Definition put (page_id : Z) (i : image) (p : pool) : pool :=
  {| pages := <[page_id := i]> (pages p); next_page_id := next_page_id p |}.

Definition as_header (p : pool) (page_id : Z) : option header :=
  match pages p !! page_id with
  | Some Zeroed => Some ExtendibleHTableHeaderPage.blank
  | Some (Header h) => Some h
  | _ => None
  end.

Definition as_directory (p : pool) (page_id : Z) : option directory :=
  match pages p !! page_id with
  | Some Zeroed => Some ExtendibleHTableDirectoryPage.blank
  | Some (Directory d) => Some d
  | _ => None
  end.

Definition as_bucket (p : pool) (page_id : Z) : option bucket :=
  match pages p !! page_id with
  | Some Zeroed => Some ExtendibleHTableBucketPage.blank
  | Some (Bucket b) => Some b
  | _ => None
  end.

Record t : Type := mk {
  bpm_ : pool;
  header_max_depth_ : Z;
  directory_max_depth_ : Z;
  bucket_max_size_ : Z;
  header_page_id_ : Z
}.

Definition with_bpm (p : pool) (ht : t) : t :=
  {| bpm_ := p; header_max_depth_ := header_max_depth_ ht;
     directory_max_depth_ := directory_max_depth_ ht;
     bucket_max_size_ := bucket_max_size_ ht;
     header_page_id_ := header_page_id_ ht |}.

(** Modelled from the spec: the body of [Hash] is not among the sources;
    "a user-supplied hash function (h: K → u32)", which the header
    describes as the 64 bit hash cast down to 32 bits. *)
Definition Hash (key : K) : Z := Machine.wrap_u32 (hash_fn key).

Definition GetHeaderPageId (ht : t) : Z := header_page_id_ ht.

(** The constructor. *)
Definition new (bpm : pool)
    (header_max_depth directory_max_depth bucket_max_size : Z) : option t :=
  let '(header_page_id, p1) := NewPageGuarded bpm in
  h0 ← as_header p1 header_page_id;
  h ← ExtendibleHTableHeaderPage.Init header_max_depth h0;
  Some {| bpm_ := put header_page_id (Header h) p1;
          header_max_depth_ := header_max_depth;
          directory_max_depth_ := directory_max_depth;
          bucket_max_size_ := bucket_max_size;
          header_page_id_ := header_page_id |}.

(** [GetValue]: the flag and the [result] vector after the call. *)
Definition GetValue (key : K) (result : list V) (ht : t)
    : option (bool * list V) :=
  let hash_key := Hash key in
  header_page ← as_header (bpm_ ht) (GetHeaderPageId ht);
  directory_index ←
    ExtendibleHTableHeaderPage.HashToDirectoryIndex header_page hash_key;
  directory_page_id ←
    ExtendibleHTableHeaderPage.GetDirectoryPageId header_page directory_index;
  if directory_page_id =? Page.INVALID_PAGE_ID then Some (false, result)
  else
    directory_page ← as_directory (bpm_ ht) directory_page_id;
    bucket_index ←
      ExtendibleHTableDirectoryPage.HashToBucketIndex directory_page hash_key;
    bucket_page_id ←
      ExtendibleHTableDirectoryPage.GetBucketPageId directory_page bucket_index;
    bucket_page ← as_bucket (bpm_ ht) bucket_page_id;
    match ExtendibleHTableBucketPage.Lookup cmp bucket_page key with
    | Some value => Some (true, result ++ [value])
    | None => Some (false, result)
    end.

(** [InsertToNewBucket]; the bucket page is written in both outcomes. *)
Definition InsertToNewBucket (d : directory) (bucket_idx : Z) (key : K)
    (value : V) (ht : t) : option (bool * directory * t) :=
  let '(new_bucket_page_id, p1) := NewPageGuarded (bpm_ ht) in
  b0 ← as_bucket p1 new_bucket_page_id;
  let b1 := ExtendibleHTableBucketPage.Init (bucket_max_size_ ht) b0 in
  let '(ok, b2) := ExtendibleHTableBucketPage.Insert cmp key value b1 in
  let ht1 := with_bpm (put new_bucket_page_id (Bucket b2) p1) ht in
  if ok then
    d1 ← ExtendibleHTableDirectoryPage.SetBucketPageId
           bucket_idx new_bucket_page_id d;
    d2 ← ExtendibleHTableDirectoryPage.SetLocalDepth bucket_idx 0 d1;
    Some (true, d2, ht1)
  else Some (false, d, ht1).

Definition InsertToNewDirectory (h : header) (directory_idx hash : Z)
    (key : K) (value : V) (ht : t) : option (bool * t) :=
  let '(new_directory_page_id, p1) := NewPageGuarded (bpm_ ht) in
  d0 ← as_directory p1 new_directory_page_id;
  let d1 := ExtendibleHTableDirectoryPage.Init (directory_max_depth_ ht) d0 in
  r ← InsertToNewBucket d1 0 key value (with_bpm p1 ht);
  let '(ok, d2, ht1) := (r : bool * directory * t) in
  let p2 := put new_directory_page_id (Directory d2) (bpm_ ht1) in
  if ok then
    h1 ← ExtendibleHTableHeaderPage.SetDirectoryPageId
           directory_idx new_directory_page_id h;
    Some (true, with_bpm (put (GetHeaderPageId ht) (Header h1) p2) ht1)
  else Some (false, with_bpm p2 ht1).

(** [local_depth_mask] is not used by the body. *)
Definition UpdateDirectoryMapping (d : directory)
    (new_bucket_idx new_bucket_page_id new_local_depth local_depth_mask : Z)
    : option directory :=
  d1 ← ExtendibleHTableDirectoryPage.SetBucketPageId
         new_bucket_idx new_bucket_page_id d;
  ExtendibleHTableDirectoryPage.SetLocalDepth new_bucket_idx new_local_depth d1.

(** The loop of [MigrateEntries]: [i] and [tmp_size] are its two
    counters, [fuel] bounds the number of iterations. *)
Fixpoint MigrateEntries_loop (fuel : nat) (i tmp_size : Z)
    (old_bucket new_bucket : bucket) (new_bucket_idx local_depth_mask : Z)
    : option (bucket * bucket) :=
  if i <? tmp_size then
    match fuel with
    | O => None
    | S fuel' =>
        i_key ← ExtendibleHTableBucketPage.KeyAt old_bucket i;
        if negb (new_bucket_idx =? Z.land (Hash i_key) local_depth_mask) then
          MigrateEntries_loop fuel' (Machine.wrap_u32 (i + 1)) tmp_size
            old_bucket new_bucket new_bucket_idx local_depth_mask
        else
          i_value ← ExtendibleHTableBucketPage.ValueAt old_bucket i;
          let old' := (ExtendibleHTableBucketPage.Remove cmp i_key old_bucket).2 in
          let new' :=
            (ExtendibleHTableBucketPage.Insert cmp i_key i_value new_bucket).2 in
          MigrateEntries_loop fuel' (Machine.wrap_u32 (i + 1))
            (Machine.wrap_u32 (tmp_size - 1))
            old' new' new_bucket_idx local_depth_mask
    end
  else Some (old_bucket, new_bucket).

Definition MigrateEntries (old_bucket new_bucket : bucket)
    (new_bucket_idx local_depth_mask : Z) : option (bucket * bucket) :=
  let tmp_size := ExtendibleHTableBucketPage.Size old_bucket in
  MigrateEntries_loop (Z.to_nat tmp_size) 0 tmp_size
    old_bucket new_bucket new_bucket_idx local_depth_mask.

(** The directory part of the split in [Insert]: the inner [None] is the
    [return false] of a directory that cannot grow. *)
Definition split_directory (d : directory)
    (bucket_index new_bucket_index new_bucket_page_id new_local_depth_mask : Z)
    : option (option directory) :=
  local_depth ← ExtendibleHTableDirectoryPage.GetLocalDepth d bucket_index;
  if ExtendibleHTableDirectoryPage.GetGlobalDepth d =? local_depth then
    size ← ExtendibleHTableDirectoryPage.Size d;
    max_size ← ExtendibleHTableDirectoryPage.MaxSize d;
    if size =? max_size then Some None
    else
      d1 ← ExtendibleHTableDirectoryPage.IncrLocalDepth bucket_index d;
      d2 ← ExtendibleHTableDirectoryPage.IncrGlobalDepth d1;
      new_local_depth ←
        ExtendibleHTableDirectoryPage.GetLocalDepth d2 bucket_index;
      d3 ← UpdateDirectoryMapping d2 new_bucket_index new_bucket_page_id
             new_local_depth new_local_depth_mask;
      Some (Some d3)
  else if ExtendibleHTableDirectoryPage.GetGlobalDepth d <? local_depth then
    d1 ← ExtendibleHTableDirectoryPage.IncrLocalDepth bucket_index d;
    new_local_depth ←
      ExtendibleHTableDirectoryPage.GetLocalDepth d1 bucket_index;
    d2 ← UpdateDirectoryMapping d1 new_bucket_index new_bucket_page_id
           new_local_depth new_local_depth_mask;
    Some (Some d2)
  else Some (Some d).

Definition Insert (key : K) (value : V) (ht : t) : option (bool * t) :=
  let hash_key := Hash key in
  header_page ← as_header (bpm_ ht) (GetHeaderPageId ht);
  directory_index ←
    ExtendibleHTableHeaderPage.HashToDirectoryIndex header_page hash_key;
  directory_page_id ←
    ExtendibleHTableHeaderPage.GetDirectoryPageId header_page directory_index;
  if directory_page_id =? Page.INVALID_PAGE_ID then
    InsertToNewDirectory header_page directory_index hash_key key value ht
  else
    directory_page ← as_directory (bpm_ ht) directory_page_id;
    bucket_index ←
      ExtendibleHTableDirectoryPage.HashToBucketIndex directory_page hash_key;
    bucket_page_id ←
      ExtendibleHTableDirectoryPage.GetBucketPageId directory_page bucket_index;
    bucket_page ← as_bucket (bpm_ ht) bucket_page_id;
    if ExtendibleHTableBucketPage.IsFull bucket_page then
      let '(new_bucket_page_id, p1) := NewPageGuarded (bpm_ ht) in
      nb0 ← as_bucket p1 new_bucket_page_id;
      let new_bucket_page :=
        ExtendibleHTableBucketPage.Init (bucket_max_size_ ht) nb0 in
      let p2 := put new_bucket_page_id (Bucket new_bucket_page) p1 in
      new_bucket_index ←
        ExtendibleHTableDirectoryPage.GetSplitImageIndex directory_page bucket_index;
      new_local_depth_mask ←
        ExtendibleHTableDirectoryPage.GetLocalDepthMask directory_page bucket_index;
      grown ← split_directory directory_page bucket_index new_bucket_index
                new_bucket_page_id new_local_depth_mask;
      match grown with
      | None => Some (false, with_bpm p2 ht)
      | Some directory_page' =>
          moved ← MigrateEntries bucket_page new_bucket_page
                    new_bucket_index new_local_depth_mask;
          let '(old1, new1) := (moved : bucket * bucket) in
          let '(old2, new2) :=
            if negb (new_bucket_index =? Z.land (Hash key) new_local_depth_mask)
            then ((ExtendibleHTableBucketPage.Insert cmp key value old1).2, new1)
            else (old1, (ExtendibleHTableBucketPage.Insert cmp key value new1).2) in
          Some (true,
                with_bpm
                  (put new_bucket_page_id (Bucket new2)
                     (put bucket_page_id (Bucket old2)
                        (put directory_page_id (Directory directory_page') p2)))
                  ht)
      end
    else
      let bucket_page' :=
        (ExtendibleHTableBucketPage.Insert cmp key value bucket_page).2 in
      Some (true, with_bpm (put bucket_page_id (Bucket bucket_page') (bpm_ ht)) ht).

Definition Remove (key : K) (ht : t) : option (bool * t) :=
  let hash_key := Hash key in
  header_page ← as_header (bpm_ ht) (GetHeaderPageId ht);
  directory_index ←
    ExtendibleHTableHeaderPage.HashToDirectoryIndex header_page hash_key;
  directory_page_id ←
    ExtendibleHTableHeaderPage.GetDirectoryPageId header_page directory_index;
  if directory_page_id =? Page.INVALID_PAGE_ID then Some (false, ht)
  else
    directory_page ← as_directory (bpm_ ht) directory_page_id;
    bucket_index ←
      ExtendibleHTableDirectoryPage.HashToBucketIndex directory_page hash_key;
    bucket_page_id ←
      ExtendibleHTableDirectoryPage.GetBucketPageId directory_page bucket_index;
    bucket_page ← as_bucket (bpm_ ht) bucket_page_id;
    let '(ok, bucket_page') :=
      ExtendibleHTableBucketPage.Remove cmp key bucket_page in
    Some (ok, with_bpm (put bucket_page_id (Bucket bucket_page') (bpm_ ht)) ht).

End Table.

Arguments image : clear implicits.
Arguments pool : clear implicits.
Arguments t : clear implicits.

End DiskExtendibleHashTable.

(* ===================================================================== *)
(** * Part II: properties                                                 *)
(* ===================================================================== *)

(** ** Instances used by the concrete runs *)

(** Modelled from the spec: storage/index/int_comparator.h is not among
    the sources; "The equality predicate is a comparator object".  It is
    the comparator of the instantiation [<int, int, IntComparator>]: 0 on
    equal keys, -1 and 1 otherwise. *)
Definition IntComparator (lhs rhs : Z) : Z :=
  if lhs <? rhs then -1 else if rhs <? lhs then 1 else 0.

(** The identity hash of the scenarios of the specification. *)
Definition identity_hash (key : Z) : Z := key.

(** A pool from which no page has been taken yet. *)
Definition fresh_pool : DiskExtendibleHashTable.pool Z Z :=
  DiskExtendibleHashTable.mkpool ∅ 0.

(** The operations of the instantiation [<int, int, IntComparator>] with
    the identity hash. *)
Definition ht_new (header_max_depth directory_max_depth bucket_max_size : Z)
    : option (DiskExtendibleHashTable.t Z Z) :=
  DiskExtendibleHashTable.new fresh_pool
    header_max_depth directory_max_depth bucket_max_size.

Definition ht_insert (key value : Z) (ht : DiskExtendibleHashTable.t Z Z)
    : option (bool * DiskExtendibleHashTable.t Z Z) :=
  DiskExtendibleHashTable.Insert IntComparator identity_hash key value ht.

Definition ht_get (key : Z) (result : list Z)
    (ht : DiskExtendibleHashTable.t Z Z) : option (bool * list Z) :=
  DiskExtendibleHashTable.GetValue IntComparator identity_hash key result ht.

(** The directory and the bucket held by a page of the table's pool. *)
Definition ht_directory (ht : DiskExtendibleHashTable.t Z Z) (page_id : Z)
    : option ExtendibleHTableDirectoryPage.t :=
  DiskExtendibleHashTable.as_directory (DiskExtendibleHashTable.bpm_ ht) page_id.

Definition ht_bucket (ht : DiskExtendibleHashTable.t Z Z) (page_id : Z)
    : option (ExtendibleHTableBucketPage.t Z Z) :=
  DiskExtendibleHashTable.as_bucket (DiskExtendibleHashTable.bpm_ ht) page_id.

(** An empty database file. *)
Definition empty_disk : DiskManager.t := DiskManager.mk [] 0.

(** ** Vocabulary of the replacer properties *)

(** Frame [f] is known to the replacer with node [n] and may be evicted. *)
Definition evictable_in (r : LRUKReplacer.t) (f : Z) (n : LRUKNode.t) : Prop :=
  LRUKReplacer.node_store_ r !! f = Some n ∧ LRUKNode.is_evictable_ n = true.




(** Most recent first. *)
Fixpoint descending (h : list Z) : Prop :=
  match h with
  | [] => True
  | t :: rest => (∀ u, u ∈ rest → u < t) ∧ descending rest
  end.

(** The number of evictable nodes of a node store. *)
Definition evictable_nodes (m : gmap Z LRUKNode.t) : Z :=
  Z.of_nat (length (filter (λ i : Z * LRUKNode.t, LRUKNode.is_evictable_ i.2 = true)
                           (map_to_list m))).

Definition evictable_count (r : LRUKReplacer.t) : Z :=
  evictable_nodes (LRUKReplacer.node_store_ r).

Definition evictable_weight (n : LRUKNode.t) : Z :=
  if LRUKNode.is_evictable_ n then 1 else 0.

(** States of the replacer as its operations build them, before the
    timestamp counter passes [INT32_MAX]: frame ids lie below
    [replacer_size_], every node carries the replacer's [k] and a history
    of past timestamps, most recent first, and [evictable_size_] counts
    the evictable nodes. *)
Record replacer_wf (r : LRUKReplacer.t) : Prop := {
  wf_k : 1 <= LRUKReplacer.k_ r;
  wf_now : 0 <= LRUKReplacer.current_timestamp_ r <= Machine.INT32_MAX;
  wf_capacity : LRUKReplacer.replacer_size_ r < 2 ^ 64;
  wf_frame : ∀ f n, LRUKReplacer.node_store_ r !! f = Some n →
             0 <= f < LRUKReplacer.replacer_size_ r;
  wf_node_k : ∀ f n, LRUKReplacer.node_store_ r !! f = Some n →
              LRUKNode.k_ n = LRUKReplacer.k_ r;
  wf_history : ∀ f n, LRUKReplacer.node_store_ r !! f = Some n →
               LRUKNode.history_ n ≠ []
               ∧ descending (LRUKNode.history_ n)
               ∧ ∀ t, t ∈ LRUKNode.history_ n →
                      1 <= t <= LRUKReplacer.current_timestamp_ r;
  wf_size : LRUKReplacer.evictable_size_ r = evictable_count r
}.

(** The calls of the replacer interface and the states they lead to while
    the timestamp counter stays at or below [INT32_MAX]. *)
Inductive replacer_op : Type :=
  | OpRecordAccess (frame_id : Z)
  | OpSetEvictable (frame_id : Z) (set_evictable : bool)
  | OpRemove (frame_id : Z)
  | OpEvict (early0 : Z).

Definition replacer_run (o : replacer_op) (r : LRUKReplacer.t)
    : option LRUKReplacer.t :=
  match o with
  | OpRecordAccess f => LRUKReplacer.RecordAccess f r
  | OpSetEvictable f flag => LRUKReplacer.SetEvictable f flag r
  | OpRemove f => LRUKReplacer.Remove f r
  | OpEvict early0 =>
      match LRUKReplacer.Evict early0 r with
      | Some (_, r') => Some r'
      | None => Some r
      end
  end.

Inductive replacer_reachable (r0 : LRUKReplacer.t) : LRUKReplacer.t → Prop :=
  | replacer_reachable_start : replacer_reachable r0 r0
  | replacer_reachable_call o r r' :
      replacer_reachable r0 r →
      replacer_run o r = Some r' →
      LRUKReplacer.current_timestamp_ r' <= Machine.INT32_MAX →
      replacer_reachable r0 r'.


(** The replacer after [RecordAccess 0] and [SetEvictable 0 true] with
    [k = 1]: one evictable frame, which was the last one accessed. *)
Definition replacer_last_access : option LRUKReplacer.t :=
  r ← LRUKReplacer.RecordAccess 0 (LRUKReplacer.new 1 1);
  LRUKReplacer.SetEvictable 0 true r.

(** The state that [replacer_last_access] evaluates to. *)
Definition replacer_one : LRUKReplacer.t :=
  {| LRUKReplacer.node_store_ := <[0 := LRUKNode.mk [1] 0 1 true]> ∅;
     LRUKReplacer.current_timestamp_ := 1;
     LRUKReplacer.evictable_size_ := 1;
     LRUKReplacer.replacer_size_ := 1;
     LRUKReplacer.k_ := 1 |}.





(** Scenario 5 of the specification before the first [Evict]: four
    frames, [k = 2], frames 1 to 3 and 0 accessed once each, all
    evictable. *)
Definition replacer_four : LRUKReplacer.t :=
  {| LRUKReplacer.node_store_ :=
       <[1 := LRUKNode.mk [1] 1 2 true]>
         (<[2 := LRUKNode.mk [2] 2 2 true]>
            (<[3 := LRUKNode.mk [3] 3 2 true]>
               (<[0 := LRUKNode.mk [4] 0 2 true]> ∅)));
     LRUKReplacer.current_timestamp_ := 4;
     LRUKReplacer.evictable_size_ := 4;
     LRUKReplacer.replacer_size_ := 4;
     LRUKReplacer.k_ := 2 |}.

(** ** Vocabulary of the buffer pool properties *)

Definition free_frames (b : BufferPoolManager.t) : gset Z :=
  list_to_set (BufferPoolManager.free_list_ b).

(** The frame ids that appear in the frame table. *)
Definition resident_frames (b : BufferPoolManager.t) : gset Z :=
  map_img (BufferPoolManager.page_table_ b).

(** The frame ids [0 .. pool_size - 1]. *)
Definition pool_frames (b : BufferPoolManager.t) : gset Z :=
  list_to_set (seqZ 0 (BufferPoolManager.pool_size_ b)).

Definition frames_partitioned (b : BufferPoolManager.t) : Prop :=
  free_frames b ## resident_frames b
  ∧ free_frames b ∪ resident_frames b = pool_frames b.

(** The calls of the buffer pool interface.  [early0] is the value of the
    unassigned local of [Evict], should the call reach it. *)
Inductive bpm_op : Type :=
  | OpNewPage (early0 : Z)
  | OpFetchPage (early0 page_id : Z)
  | OpUnpinPage (page_id : Z) (is_dirty : bool)
  | OpFlushPage (page_id : Z)
  | OpDeletePage (page_id : Z).

(** The state after a call that returns. *)
Definition bpm_run (o : bpm_op) (b : BufferPoolManager.t)
    : option BufferPoolManager.t :=
  match o with
  | OpNewPage early0 => snd <$> BufferPoolManager.NewPage early0 b
  | OpFetchPage early0 page_id =>
      snd <$> BufferPoolManager.FetchPage early0 page_id b
  | OpUnpinPage page_id is_dirty =>
      snd <$> BufferPoolManager.UnpinPage page_id is_dirty b
  | OpFlushPage page_id => snd <$> BufferPoolManager.FlushPage page_id b
  | OpDeletePage page_id => snd <$> BufferPoolManager.DeletePage page_id b
  end.

(** The states that sequences of calls lead to from [b0]. *)
Inductive bpm_reachable (b0 : BufferPoolManager.t)
    : BufferPoolManager.t → Prop :=
  | bpm_reachable_start : bpm_reachable b0 b0
  | bpm_reachable_call o b b' :
      bpm_reachable b0 b → bpm_run o b = Some b' → bpm_reachable b0 b'.

(** [NewPage] is about to hand out [next_page_id_] while a page of that
    id is resident. *)
Definition allocates_resident (o : bpm_op) (b : BufferPoolManager.t) : Prop :=
  match o with
  | OpNewPage _ =>
      is_Some (BufferPoolManager.page_table_ b
                 !! BufferPoolManager.next_page_id_ b)
  | _ => False
  end.

(** The states reached without such a call. *)
Inductive bpm_reachable_fresh (b0 : BufferPoolManager.t)
    : BufferPoolManager.t → Prop :=
  | bpm_fresh_start : bpm_reachable_fresh b0 b0
  | bpm_fresh_call o b b' :
      bpm_reachable_fresh b0 b → ¬ allocates_resident o b →
      bpm_run o b = Some b' → bpm_reachable_fresh b0 b'.

(** The invariant behind the partition.  [hole] is the frame that a call
    has taken out of the free list or out of the page table and not yet
    given a page; between calls there is none. *)
Record bpm_inv (hole : option Z) (b : BufferPoolManager.t) : Prop := {
  inv_pages : length (BufferPoolManager.pages_ b)
              = Z.to_nat (BufferPoolManager.pool_size_ b);
  inv_nodup : NoDup (BufferPoolManager.free_list_ b);
  inv_free : ∀ f, f ∈ BufferPoolManager.free_list_ b →
             0 <= f < BufferPoolManager.pool_size_ b ∧ hole ≠ Some f;
  inv_table : ∀ pid f, BufferPoolManager.page_table_ b !! pid = Some f →
              0 <= f < BufferPoolManager.pool_size_ b
              ∧ (f ∉ BufferPoolManager.free_list_ b)
              ∧ hole ≠ Some f
              ∧ Page.page_id_ <$> BufferPoolManager.page_at b f = Some pid;
  inv_cover : ∀ f, 0 <= f < BufferPoolManager.pool_size_ b →
              hole = Some f
              ∨ f ∈ BufferPoolManager.free_list_ b
              ∨ ∃ pid, BufferPoolManager.page_table_ b !! pid = Some f;
  inv_nodes : ∀ f,
              is_Some (LRUKReplacer.node_store_
                         (BufferPoolManager.replacer_ b) !! f) →
              hole = Some f
              ∨ ∃ pid, BufferPoolManager.page_table_ b !! pid = Some f;
  inv_hole : ∀ f, hole = Some f → 0 <= f < BufferPoolManager.pool_size_ b
}.

(** The run that breaks the partition: [FetchPage 0] on a new pool of two
    frames, then [NewPage]. *)
Definition bpm_orphan_run : list bpm_op := [OpFetchPage 0 0; OpNewPage 0].

(** Scenario 1 of the specification: three frames, three new pages, a
    failing [NewPage], [UnpinPage 1] and a [NewPage] that evicts. *)
Definition bpm_scenario_1 : list bpm_op :=
  [OpNewPage 0; OpNewPage 0; OpNewPage 0; OpNewPage 0;
   OpUnpinPage 1 false; OpNewPage 0].

Definition bpm_run_all (ops : list bpm_op) (b : BufferPoolManager.t)
    : option BufferPoolManager.t :=
  foldl (λ s o, s ≫= bpm_run o) (Some b) ops.

(** [allocates_resident] as a test, and the run that stops at such a
    call. *)
Definition allocates_resident_b (o : bpm_op) (b : BufferPoolManager.t) : bool :=
  match o with
  | OpNewPage _ =>
      match BufferPoolManager.page_table_ b
              !! BufferPoolManager.next_page_id_ b with
      | Some _ => true
      | None => false
      end
  | _ => false
  end.

Definition bpm_run_fresh (ops : list bpm_op) (b : BufferPoolManager.t)
    : option BufferPoolManager.t :=
  foldl (λ s o, s ≫= λ b, if allocates_resident_b o b then None else bpm_run o b)
        (Some b) ops.

(** ** Vocabulary of the page and table properties *)

(** The comparator returns 0 on equal keys and on no others. *)
Definition comparator_decides_eq {K : Type} (cmp : K → K → Z) : Prop :=
  ∀ a b, cmp a b = 0 ↔ a = b.

(** Buckets as [Init], [Insert] and [Remove] leave them: [size_] counts
    written cells and stays within [max_size_], and no key is held
    twice. *)
Record bucket_wf {K V : Type} (b : ExtendibleHTableBucketPage.t K V)
    : Prop := {
  bwf_size : 0 <= ExtendibleHTableBucketPage.size_ b
             <= Z.of_nat (length (ExtendibleHTableBucketPage.array_ b));
  bwf_max : ExtendibleHTableBucketPage.size_ b
            <= ExtendibleHTableBucketPage.max_size_ b < 2 ^ 32;
  bwf_keys : NoDup (fst <$> ExtendibleHTableBucketPage.live b)
}.


(** The bytes that the database file holds for a page. *)
Definition page_bytes (d : DiskManager.t) (page_id : Z) : list Byte.byte :=
  take (Z.to_nat DiskManager.BUSTUB_PAGE_SIZE)
       (drop (Z.to_nat (page_id * DiskManager.BUSTUB_PAGE_SIZE))
             (DiskManager.db_io_ d)).

(** Every frame that the replacer may evict holds a page that nobody
    has pinned. *)
Definition evictable_unpinned (b : BufferPoolManager.t) : Prop :=
  ∀ f n,
    LRUKReplacer.node_store_ (BufferPoolManager.replacer_ b) !! f = Some n →
    LRUKNode.is_evictable_ n = true →
    Page.pin_count_ <$> BufferPoolManager.page_at b f = Some 0.



(* ===================================================================== *)
(** * Part III: theorems                                                  *)
(* ===================================================================== *)

(** ** Extendible hash table *)

(** C8.  [GetLocalDepthMask] takes its shift count from
    [bucket_page_ids_], not from [local_depths_]: in the directory of a
    table that holds one key, index 0 has local depth 0 and bucket page 2,
    and the mask is [(1 << 2) - 1 = 3] where [(1 << 0) - 1 = 0] is
    claimed. *)
Theorem GetLocalDepthMask_uses_bucket_page_id :
  (ht ← ht_new 0 3 2;
   r ← ht_insert 0 97 ht;
   d ← ht_directory r.2 1;
   ld ← ExtendibleHTableDirectoryPage.GetLocalDepth d 0;
   id ← ExtendibleHTableDirectoryPage.GetBucketPageId d 0;
   mask ← ExtendibleHTableDirectoryPage.GetLocalDepthMask d 0;
   Some (ld, id, mask, 2 ^ ld - 1)) = Some (0, 2, 3, 0).
Proof. vm_compute. reflexivity. Qed.

(** The general form of the same fact. *)
Lemma GetLocalDepthMask_spec d i id :
  ExtendibleHTableDirectoryPage.GetBucketPageId d i = Some id →
  0 <= id < 31 →
  ExtendibleHTableDirectoryPage.GetLocalDepthMask d i = Some (2 ^ id - 1).
Proof.
  unfold ExtendibleHTableDirectoryPage.GetLocalDepthMask,
    ExtendibleHTableDirectoryPage.GetBucketPageId.
  intros -> Hid. simpl. unfold Machine.shl1.
  replace ((0 <=? id) && (id <? 31)) with true; [reflexivity|].
  symmetry. apply andb_true_iff. split; [apply Z.leb_le|apply Z.ltb_lt]; lia.
Qed.

(** C3.  [MigrateEntries] steps over the pair that [Remove] swaps into the
    cell it has just emptied.  Old bucket [(1, 97); (5, 98)], new bucket
    index 1, mask 3: both keys match, the loop moves key 1 and leaves
    key 5 in the old bucket. *)
Theorem MigrateEntries_skips_swapped_entry :
  let old_bucket :=
    ExtendibleHTableBucketPage.mk 2 2 [(1, 97); (5, 98)] in
  let new_bucket :=
    ExtendibleHTableBucketPage.Init 2 ExtendibleHTableBucketPage.blank in
  (r ← DiskExtendibleHashTable.MigrateEntries IntComparator identity_hash
         old_bucket new_bucket 1 3;
   Some (ExtendibleHTableBucketPage.live r.1,
         ExtendibleHTableBucketPage.live r.2))
  = Some ([(5, 98)], [(1, 97)])
  ∧ Z.land (DiskExtendibleHashTable.Hash identity_hash 5) 3 = 1.
Proof. vm_compute. split; reflexivity. Qed.

(** C4.  With bucket capacity 1 the keys 0, 1, 2 leave a directory of
    global depth 2 whose index 3 has local depth 1 and a full bucket.
    [Insert] of key 3 takes neither branch of the split (the second one
    tests [global depth < local depth]): the local depth at index 3 is
    still 1 afterwards. *)
Theorem Insert_split_keeps_local_depth :
  (ht ← ht_new 0 3 1;
   r0 ← ht_insert 0 97 ht;
   r1 ← ht_insert 1 98 r0.2;
   r2 ← ht_insert 2 99 r1.2;
   d ← ht_directory r2.2 1;
   b ← ht_bucket r2.2 3;
   ld ← ExtendibleHTableDirectoryPage.GetLocalDepth d 3;
   r3 ← ht_insert 3 100 r2.2;
   d' ← ht_directory r3.2 1;
   ld' ← ExtendibleHTableDirectoryPage.GetLocalDepth d' 3;
   Some (ExtendibleHTableDirectoryPage.GetGlobalDepth d, ld,
         ExtendibleHTableBucketPage.IsFull b,
         r3.1, ld', ExtendibleHTableDirectoryPage.GetGlobalDepth d'))
  = Some (2, 1, true, true, 1, 2).
Proof. vm_compute. reflexivity. Qed.

(** The general form: below the global depth the split leaves the
    directory untouched. *)
Lemma split_directory_below_global_depth d bucket_index new_bucket_index
    new_bucket_page_id mask local_depth :
  ExtendibleHTableDirectoryPage.GetLocalDepth d bucket_index = Some local_depth →
  local_depth < ExtendibleHTableDirectoryPage.GetGlobalDepth d →
  DiskExtendibleHashTable.split_directory d bucket_index new_bucket_index
    new_bucket_page_id mask = Some (Some d).
Proof.
  intros Hld Hlt. unfold DiskExtendibleHashTable.split_directory.
  rewrite Hld. simpl.
  destruct (Z.eqb_spec (ExtendibleHTableDirectoryPage.GetGlobalDepth d)
              local_depth); [lia|].
  destruct (Z.ltb_spec (ExtendibleHTableDirectoryPage.GetGlobalDepth d)
              local_depth); [lia|reflexivity].
Qed.

(** The bucket page refuses a key it holds and stays as it is. *)
Lemma bucket_Insert_present {K V : Type} (cmp : K → K → Z) key value
    (b : ExtendibleHTableBucketPage.t K V) v :
  ExtendibleHTableBucketPage.Lookup cmp b key = Some v →
  ExtendibleHTableBucketPage.Insert cmp key value b = (false, b).
Proof.
  unfold ExtendibleHTableBucketPage.Lookup, ExtendibleHTableBucketPage.Insert.
  destruct (ExtendibleHTableBucketPage.IsFull b); [done|].
  destruct (ExtendibleHTableBucketPage.scan cmp key 0 _); [done|discriminate].
Qed.

(** C5.  [Insert] drops the result of the bucket's [Insert] and returns
    [true] for a key that is already there; the bucket itself is left as
    it was. *)
Theorem Insert_duplicate_returns_true :
  (ht ← ht_new 0 3 2;
   r0 ← ht_insert 7 97 ht;
   b ← ht_bucket r0.2 2;
   r1 ← ht_insert 7 98 r0.2;
   b' ← ht_bucket r1.2 2;
   Some (r0.1, ExtendibleHTableBucketPage.IsFull b, r1.1,
         ExtendibleHTableBucketPage.live b,
         ExtendibleHTableBucketPage.live b',
         ExtendibleHTableBucketPage.Size b'))
  = Some (true, false, true, [(7, 97)], [(7, 97)], 1).
Proof. vm_compute. reflexivity. Qed.

(** C1.  Header depth 0, directory depth 3, bucket capacity 1, identity
    hash: the inserts of keys 0, 1, 2 and 3 all return [true] and no key
    is removed, yet the lookup of key 1 returns [false] with nothing
    appended.  Four keys fit a directory of depth 2 with one key per
    bucket.  The fourth insert finds the bucket of key 1 full with local
    depth 1 below global depth 2, leaves the directory as it is, moves
    key 1 to a new page that no directory entry points to, and puts key 3
    in its place. *)
Theorem GetValue_misses_key_after_split :
  (ht ← ht_new 0 3 1;
   r0 ← ht_insert 0 97 ht;
   r1 ← ht_insert 1 98 r0.2;
   r2 ← ht_insert 2 99 r1.2;
   before ← ht_get 1 [] r2.2;
   r3 ← ht_insert 3 100 r2.2;
   after ← ht_get 1 [] r3.2;
   Some (r0.1, r1.1, r2.1, r3.1, before, after))
  = Some (true, true, true, true, (true, [98]), (false, [])).
Proof. vm_compute. reflexivity. Qed.

(** Scenario 3 of the specification (header depth 2, directory depth 3,
    bucket capacity 2, keys 1, 5 and 9) loses key 5 in the first split:
    the migration steps over it, and the directory index it hashes to
    points to the new bucket. *)
Example scenario_3_loses_key_5 :
  (ht ← ht_new 2 3 2;
   r0 ← ht_insert 1 97 ht;
   r1 ← ht_insert 5 97 r0.2;
   r2 ← ht_insert 9 97 r1.2;
   g1 ← ht_get 1 [] r2.2;
   g5 ← ht_get 5 [] r2.2;
   g9 ← ht_get 9 [] r2.2;
   Some (r0.1, r1.1, r2.1, g1, g5, g9))
  = Some (true, true, true, (true, [97]), (false, []), (true, [97])).
Proof. vm_compute. reflexivity. Qed.

(** A fourth key for which the last split is too coarse: with bucket
    capacity 1, key 4 after keys 0, 1 and 2 is sent back to the full old
    bucket because the mask comes from the page id; the bucket's [Insert]
    fails, the table's [Insert] returns [true], and the key is not
    found. *)
Example insert_into_full_bucket_reports_true :
  (ht ← ht_new 0 3 1;
   r0 ← ht_insert 0 97 ht;
   r1 ← ht_insert 1 98 r0.2;
   r2 ← ht_insert 2 99 r1.2;
   r3 ← ht_insert 4 100 r2.2;
   g ← ht_get 4 [] r3.2;
   Some (r3.1, g))
  = Some (true, (false, [])).
Proof. vm_compute. reflexivity. Qed.

(** ** Machine arithmetic *)

Lemma wrap_i32_small z :
  - 2 ^ 31 <= z < 2 ^ 31 → Machine.wrap_i32 z = z.
Proof.
  intros Hz. unfold Machine.wrap_i32.
  rewrite Z.mod_small; lia.
Qed.

Lemma wrap_u64_small z : 0 <= z < 2 ^ 64 → Machine.wrap_u64 z = z.
Proof. intros Hz. unfold Machine.wrap_u64. apply Z.mod_small. lia. Qed.

(** ** Disk manager *)





(** ** Buffer pool manager: the dirty bit *)

(** What [UnpinPage] does with the dirty bit: it stores the argument. *)
Lemma UnpinPage_stores_is_dirty b page_id is_dirty frame_id page b' :
  BufferPoolManager.page_table_ b !! page_id = Some frame_id →
  BufferPoolManager.page_at b frame_id = Some page →
  0 < Page.GetPinCount page →
  BufferPoolManager.UnpinPage page_id is_dirty b = Some (true, b') →
  Page.is_dirty_ <$> BufferPoolManager.page_at b' frame_id = Some is_dirty.
Proof.
  intros Hpt Hpage Hpin. unfold BufferPoolManager.UnpinPage.
  rewrite Hpt. simpl. rewrite Hpage. simpl.
  destruct (Z.leb_spec (Page.GetPinCount page) 0) as [?|_]; [lia|].
  destruct (LRUKReplacer.SetEvictable _ _ _) as [r|]; [|discriminate].
  simpl. intros [= <-].
  unfold BufferPoolManager.page_at in *. simpl.
  destruct (frame_id <? 0); [discriminate|].
  rewrite list_lookup_insert_eq; [reflexivity|].
  by eapply lookup_lt_Some.
Qed.

(** C2.  A pool of one frame: [NewPage] gives page 0, a second pin by
    [FetchPage], then [UnpinPage (0, true)] leaves the page pinned once
    and dirty.  [UnpinPage (0, false)] succeeds and the dirty bit is
    cleared, where the OR of the old bit and the argument is [true]. *)
Theorem UnpinPage_false_clears_dirty :
  (r0 ← BufferPoolManager.NewPage 0 (BufferPoolManager.new 1 empty_disk 2);
   r1 ← BufferPoolManager.FetchPage 0 0 r0.2;
   r2 ← BufferPoolManager.UnpinPage 0 true r1.2;
   p ← BufferPoolManager.page_at r2.2 0;
   r3 ← BufferPoolManager.UnpinPage 0 false r2.2;
   p' ← BufferPoolManager.page_at r3.2 0;
   Some (Page.GetPinCount p, Page.IsDirty p, r3.1, Page.IsDirty p',
         Page.IsDirty p || false))
  = Some (1, true, true, false, true).
Proof. vm_compute. reflexivity. Qed.

(** ** LRU-K replacer *)

Section EvictScan.

Variable cur : Z.



(** A node whose distance is 0 and whose early timestamp is not below the
    one in the locals leaves the initial locals as they are. *)
Lemma scan_stuck_foldl early0 l :
  (∀ j, j ∈ l → LRUKNode.is_evictable_ j.2 = true →
        LRUKNode.GetKDistance j.2 cur = 0 ∧ early0 <= LRUKNode.GetEarlyTimestamp j.2) →
  foldl (LRUKReplacer.Evict_step cur)
        (LRUKReplacer.mkscan 0 early0 (-1)) l
  = LRUKReplacer.mkscan 0 early0 (-1).
Proof.
  induction l as [|i l IH]; intros Hall; simpl; [done|].
  assert (Hstep : LRUKReplacer.Evict_step cur
                    (LRUKReplacer.mkscan 0 early0 (-1)) i
                  = LRUKReplacer.mkscan 0 early0 (-1)).
  { unfold LRUKReplacer.Evict_step, LRUKNode.GetEvictable.
    destruct (LRUKNode.is_evictable_ i.2) eqn:Hev; simpl; [|done].
    destruct (Hall i) as [Hd He]; [left|done|].
    rewrite Hd. simpl.
    destruct (Z.ltb_spec (LRUKNode.GetEarlyTimestamp i.2) early0); [lia|done]. }
  rewrite Hstep. apply IH. intros j Hj. apply Hall. by right.
Qed.

End EvictScan.







Lemma store_size_bound (m : gmap Z LRUKNode.t) (n : Z) :
  (∀ f x, m !! f = Some x → 0 <= f < n) → Z.of_nat (size m) <= Z.max 0 n.
Proof.
  intros Hkeys.
  assert (Hsub : dom m ⊆ (list_to_set (seqZ 0 n) : gset Z)).
  { intros f Hf. apply elem_of_dom in Hf as [x Hx].
    apply elem_of_list_to_set, elem_of_seqZ. apply Hkeys in Hx. lia. }
  apply subseteq_size in Hsub.
  rewrite size_dom, size_list_to_set, length_seqZ in Hsub by apply NoDup_seqZ.
  lia.
Qed.

Lemma evictable_count_bound r :
  replacer_wf r → evictable_count r <= Z.max 0 (LRUKReplacer.replacer_size_ r).
Proof.
  intros Hwf. unfold evictable_count, evictable_nodes.
  pose proof (length_filter
    (λ i : Z * LRUKNode.t, LRUKNode.is_evictable_ i.2 = true)
    (map_to_list (LRUKReplacer.node_store_ r))) as Hle.
  rewrite length_map_to_list in Hle.
  pose proof (store_size_bound (LRUKReplacer.node_store_ r)
                (LRUKReplacer.replacer_size_ r) (wf_frame r Hwf)).
  lia.
Qed.



(** The same state with a larger value in the unassigned local: the tie
    branch selects the frame. *)
Lemma Evict_zero_distance_depends_on_early0 :
  (r ← replacer_last_access; fst <$> LRUKReplacer.Evict 5 r) = Some 0.
Proof. vm_compute. reflexivity. Qed.



Ltac lookup_cases H :=
  repeat (apply lookup_insert_Some in H as [[<- <-]|[_ H]];
          [|try (by rewrite lookup_empty in H)]).



(** The frame that this run evicts is frame 1, the one accessed first. *)
Example Evict_scenario_5 :
  fst <$> LRUKReplacer.Evict 0 replacer_four = Some 1.
Proof. vm_compute. reflexivity. Qed.

(** *** The state past [INT32_MAX] is reached by the operations *)










(** *** Which frames the replacer knows after each of its operations *)

Lemma Evict_scan_id cur l : ∀ st,
  LRUKReplacer.evict_id (foldl (LRUKReplacer.Evict_step cur) st l)
    = LRUKReplacer.evict_id st
  ∨ ∃ i, i ∈ l
       ∧ LRUKNode.is_evictable_ i.2 = true
       ∧ LRUKReplacer.evict_id (foldl (LRUKReplacer.Evict_step cur) st l) = i.1.
Proof.
  induction l as [|i l IH]; intros st; simpl; [by left|].
  destruct (IH (LRUKReplacer.Evict_step cur st i)) as [Heq|(j & Hj & Hev & Heq)].
  - rewrite Heq. unfold LRUKReplacer.Evict_step, LRUKNode.GetEvictable.
    destruct (LRUKNode.is_evictable_ i.2) eqn:Hev; simpl; [|by left].
    repeat case_match; simpl; try (by left);
      right; exists i; split; try (by left); done.
  - right. exists j. split; [by right|done].
Qed.

(** A successful [Evict] returns an evictable frame and erases its node. *)
Lemma Evict_known early0 r f r' :
  LRUKReplacer.Evict early0 r = Some (f, r') →
  (∃ n, evictable_in r f n)
  ∧ r' = {| LRUKReplacer.node_store_ := delete f (LRUKReplacer.node_store_ r);
            LRUKReplacer.current_timestamp_ := LRUKReplacer.current_timestamp_ r;
            LRUKReplacer.evictable_size_ :=
              Machine.wrap_u64 (LRUKReplacer.evictable_size_ r - 1);
            LRUKReplacer.replacer_size_ := LRUKReplacer.replacer_size_ r;
            LRUKReplacer.k_ := LRUKReplacer.k_ r |}.
Proof.
  unfold LRUKReplacer.Evict, LRUKReplacer.Evict_scan.
  destruct (Evict_scan_id (LRUKReplacer.current_timestamp_ r)
              (map_to_list (LRUKReplacer.node_store_ r))
              (LRUKReplacer.mkscan 0 early0 (-1)))
    as [Heq|([g n] & Hin & Hev & Heq)];
    rewrite Heq; simpl.
  - discriminate.
  - destruct (g =? -1); [discriminate|]. intros [= <- <-].
    apply elem_of_map_to_list in Hin. split; [|done]. by exists n.
Qed.

Lemma RecordAccess_known f r r' g :
  LRUKReplacer.RecordAccess f r = Some r' →
  is_Some (LRUKReplacer.node_store_ r' !! g) →
  g = f ∨ is_Some (LRUKReplacer.node_store_ r !! g).
Proof.
  unfold LRUKReplacer.RecordAccess.
  destruct (_ && _); [|discriminate]. intros [= <-]. simpl.
  destruct (decide (f = g)) as [->|Hne]; [by left|].
  rewrite lookup_insert_ne by done. by right.
Qed.

Lemma SetEvictable_known f flag r r' g :
  LRUKReplacer.SetEvictable f flag r = Some r' →
  is_Some (LRUKReplacer.node_store_ r' !! g) →
  is_Some (LRUKReplacer.node_store_ r !! g).
Proof.
  unfold LRUKReplacer.SetEvictable.
  destruct (LRUKReplacer.node_store_ r !! f) as [n|] eqn:Hn; [|discriminate].
  repeat case_match; intros [= <-]; simpl; try done;
    (destruct (decide (f = g)) as [->|Hne];
     [by rewrite Hn|by rewrite lookup_insert_ne]).
Qed.

Lemma Remove_known f r r' g :
  LRUKReplacer.Remove f r = Some r' →
  is_Some (LRUKReplacer.node_store_ r' !! g) →
  g ≠ f ∧ is_Some (LRUKReplacer.node_store_ r !! g).
Proof.
  unfold LRUKReplacer.Remove.
  destruct (LRUKReplacer.node_store_ r !! f) as [n|] eqn:Hn.
  - destruct (negb _); [discriminate|]. intros [= <-]. simpl.
    destruct (decide (f = g)) as [->|Hne].
    + rewrite lookup_delete_eq. by intros [? ?].
    + rewrite lookup_delete_ne by done. done.
  - intros [= <-] Hg. split; [|done]. intros ->. rewrite Hn in Hg.
    by destruct Hg.
Qed.


(** *** Well-formed states are the reachable ones *)

Lemma evictable_nodes_insert_fresh m f n :
  m !! f = None →
  evictable_nodes (<[f := n]> m) = evictable_weight n + evictable_nodes m.
Proof.
  intros Hfresh. unfold evictable_nodes, evictable_weight.
  pose proof (map_to_list_insert m f n Hfresh) as Hperm.
  apply (filter_Permutation
           (λ i : Z * LRUKNode.t, LRUKNode.is_evictable_ i.2 = true)) in Hperm.
  apply Permutation_length in Hperm. rewrite Hperm, filter_cons. simpl.
  destruct (LRUKNode.is_evictable_ n) eqn:Hev.
  - rewrite decide_True by done. simpl length. lia.
  - rewrite decide_False by congruence. lia.
Qed.

Lemma evictable_nodes_delete m f n :
  m !! f = Some n →
  evictable_nodes m = evictable_weight n + evictable_nodes (delete f m).
Proof.
  intros Hn. rewrite <- (insert_delete_id m f n Hn) at 1.
  apply evictable_nodes_insert_fresh, lookup_delete_eq.
Qed.

Lemma evictable_nodes_replace m f n n' :
  m !! f = Some n →
  evictable_nodes (<[f := n']> m)
  = evictable_nodes m - evictable_weight n + evictable_weight n'.
Proof.
  intros Hn. rewrite <- insert_delete_eq.
  rewrite evictable_nodes_insert_fresh by apply lookup_delete_eq.
  rewrite (evictable_nodes_delete m f n Hn). lia.
Qed.

Lemma replacer_wf_new num_frames k :
  1 <= k → num_frames < 2 ^ 64 →
  replacer_wf (LRUKReplacer.new num_frames k).
Proof.
  intros Hk Hn. split; simpl; done.
Qed.

Lemma replacer_wf_RecordAccess f r r' :
  replacer_wf r →
  LRUKReplacer.current_timestamp_ r < Machine.INT32_MAX →
  LRUKReplacer.RecordAccess f r = Some r' →
  replacer_wf r'.
Proof.
  intros [W1 W2 W3 W4 W5 W6 W7] Hroom. unfold LRUKReplacer.RecordAccess.
  destruct ((0 <=? f) && (f <? LRUKReplacer.replacer_size_ r)) eqn:Hrange;
    [|discriminate].
  apply andb_true_iff in Hrange as [Hf0 Hf1].
  apply Z.leb_le in Hf0. apply Z.ltb_lt in Hf1.
  assert (Hts : Machine.wrap_u64 (LRUKReplacer.current_timestamp_ r + 1)
                = LRUKReplacer.current_timestamp_ r + 1).
  { apply wrap_u64_small. unfold Machine.INT32_MAX in *. lia. }
  rewrite Hts. intros [= <-].
  split; simpl; try done.
  - lia.
  - intros g n Hg. apply lookup_insert_Some in Hg as [[<- _]|[_ Hg]];
      [lia|by eapply W4].
  - intros g n Hg. apply lookup_insert_Some in Hg as [[<- <-]|[_ Hg]];
      [|by eapply W5].
    destruct (LRUKReplacer.node_store_ r !! f) as [n0|] eqn:Hn0; simpl;
      [by eapply W5|done].
  - intros g n Hg. apply lookup_insert_Some in Hg as [[<- <-]|[_ Hg]].
    + destruct (LRUKReplacer.node_store_ r !! f) as [n0|] eqn:Hn0; simpl.
      * destruct (W6 f n0 Hn0) as (Hne & Hdesc & Hts0).
        split; [done|]. split.
        -- split; [|done]. intros u Hu. apply Hts0 in Hu. lia.
        -- intros t [->|Ht]%elem_of_cons; [lia|]. apply Hts0 in Ht. lia.
      * split; [done|]. split.
        -- split; [|done]. intros u Hu. by apply elem_of_nil in Hu.
        -- intros t Ht. apply list_elem_of_singleton in Ht. lia.
    + destruct (W6 g n Hg) as (Hne & Hdesc & Hts0).
      split; [done|]. split; [done|].
      intros t Ht. apply Hts0 in Ht. lia.
  - unfold evictable_count in *. simpl. rewrite W7.
    destruct (LRUKReplacer.node_store_ r !! f) as [n0|] eqn:Hn0.
    + rewrite (evictable_nodes_replace _ f n0) by done.
      unfold evictable_weight, LRUKNode.RecordAccess. simpl. lia.
    + rewrite evictable_nodes_insert_fresh by done.
      unfold evictable_weight. simpl. lia.
Qed.

Lemma replacer_wf_SetEvictable f flag r r' :
  replacer_wf r →
  LRUKReplacer.SetEvictable f flag r = Some r' →
  replacer_wf r'.
Proof.
  intros Hwf. pose proof Hwf as [W1 W2 W3 W4 W5 W6 W7].
  unfold LRUKReplacer.SetEvictable.
  destruct (LRUKReplacer.node_store_ r !! f) as [n0|] eqn:Hn0; [|discriminate].
  assert (Hstore : ∀ flag' g n,
            <[f := LRUKNode.SetEvictable flag' n0]> (LRUKReplacer.node_store_ r)
              !! g = Some n →
            ∃ n1, LRUKReplacer.node_store_ r !! g = Some n1
                  ∧ LRUKNode.k_ n = LRUKNode.k_ n1
                  ∧ LRUKNode.history_ n = LRUKNode.history_ n1).
  { intros flag' g n Hg. apply lookup_insert_Some in Hg as [[<- <-]|[_ Hg]];
      eauto. }
  pose proof (evictable_count_bound r Hwf) as Hbound.
  assert (Hcount0 : 0 <= evictable_count r).
  { unfold evictable_count, evictable_nodes. lia. }
  unfold LRUKNode.GetEvictable.
  destruct (LRUKNode.is_evictable_ n0) eqn:Hev0, flag; simpl;
    intros [= <-]; try done.
  - (* evictable, made non-evictable *)
    split; simpl; try done.
    + intros g n Hg. destruct (Hstore _ _ _ Hg) as (n1 & Hn1 & _). by eapply W4.
    + intros g n Hg. destruct (Hstore _ _ _ Hg) as (n1 & Hn1 & -> & _).
      by eapply W5.
    + intros g n Hg. destruct (Hstore _ _ _ Hg) as (n1 & Hn1 & _ & ->).
      by eapply W6.
    + unfold evictable_count in *. simpl.
      rewrite (evictable_nodes_replace _ f n0) by done.
      pose proof (evictable_nodes_delete _ f n0 Hn0) as Hdel.
      assert (0 <= evictable_nodes (delete f (LRUKReplacer.node_store_ r))).
      { unfold evictable_nodes. lia. }
      unfold evictable_weight in *. rewrite Hev0 in *. simpl in *.
      rewrite wrap_u64_small; lia.
  - (* non-evictable, made evictable *)
    split; simpl; try done.
    + intros g n Hg. destruct (Hstore _ _ _ Hg) as (n1 & Hn1 & _). by eapply W4.
    + intros g n Hg. destruct (Hstore _ _ _ Hg) as (n1 & Hn1 & -> & _).
      by eapply W5.
    + intros g n Hg. destruct (Hstore _ _ _ Hg) as (n1 & Hn1 & _ & ->).
      by eapply W6.
    + unfold evictable_count in *. simpl.
      rewrite (evictable_nodes_replace _ f n0) by done.
      pose proof (evictable_nodes_delete _ f n0 Hn0) as Hdel.
      pose proof (store_size_bound (delete f (LRUKReplacer.node_store_ r))
                    (LRUKReplacer.replacer_size_ r)) as Hsz.
      unfold evictable_weight in *. rewrite Hev0 in *. simpl in *.
      assert (Z.of_nat (size (LRUKReplacer.node_store_ r))
              <= Z.max 0 (LRUKReplacer.replacer_size_ r))
        by (by apply store_size_bound).
      assert (evictable_nodes (delete f (LRUKReplacer.node_store_ r))
              <= Z.of_nat (size (delete f (LRUKReplacer.node_store_ r)))).
      { unfold evictable_nodes. rewrite <- length_map_to_list.
        apply inj_le, length_filter. }
      assert (S (size (delete f (LRUKReplacer.node_store_ r)))
              = size (LRUKReplacer.node_store_ r)).
      { rewrite <- (insert_delete_id _ f n0 Hn0) at 2.
        symmetry. apply map_size_insert_None, lookup_delete_eq. }
      rewrite wrap_u64_small; lia.
Qed.

Lemma replacer_wf_erase f n r :
  replacer_wf r →
  LRUKReplacer.node_store_ r !! f = Some n →
  LRUKNode.is_evictable_ n = true →
  replacer_wf
    {| LRUKReplacer.node_store_ := delete f (LRUKReplacer.node_store_ r);
       LRUKReplacer.current_timestamp_ := LRUKReplacer.current_timestamp_ r;
       LRUKReplacer.evictable_size_ :=
         Machine.wrap_u64 (LRUKReplacer.evictable_size_ r - 1);
       LRUKReplacer.replacer_size_ := LRUKReplacer.replacer_size_ r;
       LRUKReplacer.k_ := LRUKReplacer.k_ r |}.
Proof.
  intros Hwf Hn Hev. pose proof Hwf as [W1 W2 W3 W4 W5 W6 W7].
  split; simpl; try done.
  - intros g n1 [_ Hg]%lookup_delete_Some. by eapply W4.
  - intros g n1 [_ Hg]%lookup_delete_Some. by eapply W5.
  - intros g n1 [_ Hg]%lookup_delete_Some. by eapply W6.
  - pose proof (evictable_count_bound r Hwf) as Hbound.
    unfold evictable_count in *. simpl.
    pose proof (evictable_nodes_delete _ f n Hn) as Hdel.
    assert (0 <= evictable_nodes (delete f (LRUKReplacer.node_store_ r))).
    { unfold evictable_nodes. lia. }
    unfold evictable_weight in Hdel. rewrite Hev in Hdel.
    rewrite wrap_u64_small; lia.
Qed.

Lemma replacer_wf_Remove f r r' :
  replacer_wf r → LRUKReplacer.Remove f r = Some r' → replacer_wf r'.
Proof.
  intros Hwf. unfold LRUKReplacer.Remove.
  destruct (LRUKReplacer.node_store_ r !! f) as [n|] eqn:Hn;
    [|by intros [= <-]].
  unfold LRUKNode.GetEvictable.
  destruct (LRUKNode.is_evictable_ n) eqn:Hev; simpl; [|discriminate].
  intros [= <-]. by eapply replacer_wf_erase.
Qed.

Lemma replacer_wf_Evict early0 r f r' :
  replacer_wf r → LRUKReplacer.Evict early0 r = Some (f, r') → replacer_wf r'.
Proof.
  intros Hwf Hev.
  destruct (Evict_known _ _ _ _ Hev) as [(n & Hn & Hevn) ->].
  by eapply replacer_wf_erase.
Qed.

(** Every state that the four operations reach from a new replacer, with
    the timestamp counter at or below [INT32_MAX], is well-formed. *)
Lemma replacer_wf_reachable num_frames k r :
  1 <= k → num_frames < 2 ^ 64 →
  replacer_reachable (LRUKReplacer.new num_frames k) r →
  replacer_wf r.
Proof.
  intros Hk Hn Hreach.
  induction Hreach as [|o r r' _ IH Hrun Hnow]; [by apply replacer_wf_new|].
  destruct o as [f|f flag|f|early0]; simpl in Hrun.
  - destruct (Z.eq_dec (LRUKReplacer.current_timestamp_ r) Machine.INT32_MAX)
      as [Hfull|Hroom].
    + exfalso. revert Hrun Hnow. unfold LRUKReplacer.RecordAccess.
      destruct (_ && _); [|discriminate]. intros [= <-]. simpl.
      rewrite Hfull. vm_compute. auto.
    + eapply replacer_wf_RecordAccess; [exact IH| |exact Hrun].
      pose proof (wf_now r IH). lia.
  - by eapply replacer_wf_SetEvictable.
  - by eapply replacer_wf_Remove.
  - destruct (LRUKReplacer.Evict early0 r) as [[f r1]|] eqn:Hev.
    + injection Hrun as <-. by eapply replacer_wf_Evict.
    + by injection Hrun as <-.
Qed.

(** ** Buffer pool manager: free list and frame table *)

Lemma touch_known f b b' :
  BufferPoolManager.touch f b = Some b' →
  BufferPoolManager.pool_size_ b' = BufferPoolManager.pool_size_ b
  ∧ BufferPoolManager.next_page_id_ b' = BufferPoolManager.next_page_id_ b
  ∧ BufferPoolManager.pages_ b' = BufferPoolManager.pages_ b
  ∧ BufferPoolManager.free_list_ b' = BufferPoolManager.free_list_ b
  ∧ BufferPoolManager.page_table_ b' = BufferPoolManager.page_table_ b
  ∧ ∀ g, is_Some (LRUKReplacer.node_store_
                    (BufferPoolManager.replacer_ b') !! g) →
         g = f ∨ is_Some (LRUKReplacer.node_store_
                            (BufferPoolManager.replacer_ b) !! g).
Proof.
  unfold BufferPoolManager.touch.
  destruct (LRUKReplacer.RecordAccess f _) as [r1|] eqn:H1; [|discriminate].
  simpl.
  destruct (LRUKReplacer.SetEvictable f false r1) as [r2|] eqn:H2;
    [|discriminate].
  simpl. intros [= <-]. simpl. repeat split; try done.
  intros g Hg. eapply RecordAccess_known; [done|].
  by eapply SetEvictable_known.
Qed.

(** *** Pages of the pool *)

Lemma page_at_set_page_eq b f p :
  0 <= f → (Z.to_nat f < length (BufferPoolManager.pages_ b))%nat →
  BufferPoolManager.page_at (BufferPoolManager.set_page f p b) f = Some p.
Proof.
  intros Hf Hlen. unfold BufferPoolManager.page_at. simpl.
  destruct (Z.ltb_spec f 0); [lia|]. by apply list_lookup_insert_eq.
Qed.

Lemma page_at_set_page_ne b f g p :
  0 <= f → f ≠ g →
  BufferPoolManager.page_at (BufferPoolManager.set_page f p b) g
  = BufferPoolManager.page_at b g.
Proof.
  intros Hf Hne. unfold BufferPoolManager.page_at. simpl.
  destruct (Z.ltb_spec g 0); [done|].
  apply list_lookup_insert_ne. lia.
Qed.

(** Replacing a page by one of the same [page_id_] keeps the page ids of
    all frames. *)
Lemma page_id_set_page b f p p' g :
  BufferPoolManager.page_at b f = Some p →
  Page.page_id_ p' = Page.page_id_ p →
  Page.page_id_ <$> BufferPoolManager.page_at (BufferPoolManager.set_page f p' b) g
  = Page.page_id_ <$> BufferPoolManager.page_at b g.
Proof.
  intros Hp Hid.
  assert (0 <= f ∧ (Z.to_nat f < length (BufferPoolManager.pages_ b))%nat)
    as [Hf Hlen].
  { unfold BufferPoolManager.page_at in Hp.
    destruct (Z.ltb_spec f 0); [discriminate|].
    split; [done|]. by eapply lookup_lt_Some. }
  destruct (decide (f = g)) as [<-|Hne].
  - rewrite page_at_set_page_eq, Hp by done. simpl. by f_equal.
  - by rewrite page_at_set_page_ne.
Qed.

(** A state that differs from one with the invariant only in parts the
    invariant does not look at. *)
Lemma bpm_inv_frame hole b b' :
  bpm_inv hole b →
  BufferPoolManager.pool_size_ b' = BufferPoolManager.pool_size_ b →
  length (BufferPoolManager.pages_ b') = length (BufferPoolManager.pages_ b) →
  BufferPoolManager.free_list_ b' = BufferPoolManager.free_list_ b →
  BufferPoolManager.page_table_ b' = BufferPoolManager.page_table_ b →
  (∀ g, Page.page_id_ <$> BufferPoolManager.page_at b' g
        = Page.page_id_ <$> BufferPoolManager.page_at b g) →
  (∀ g, is_Some (LRUKReplacer.node_store_
                   (BufferPoolManager.replacer_ b') !! g) →
        is_Some (LRUKReplacer.node_store_
                   (BufferPoolManager.replacer_ b) !! g)
        ∨ hole = Some g
        ∨ ∃ pid, BufferPoolManager.page_table_ b !! pid = Some g) →
  bpm_inv hole b'.
Proof.
  intros Hinv Hsize Hlen Hfree Htable Hids Hnodes.
  destruct Hinv as [I1 I2 I3 I4 I5 I6 I7].
  split; rewrite ?Hsize, ?Hlen, ?Hfree, ?Htable; try done.
  - intros pid f Hf. rewrite Hids. by apply I4.
  - intros g Hg. destruct (Hnodes g Hg) as [?|[?|?]]; auto.
Qed.

Lemma FlushPage_frame page_id b res b' :
  BufferPoolManager.FlushPage page_id b = Some (res, b') →
  BufferPoolManager.pool_size_ b' = BufferPoolManager.pool_size_ b
  ∧ BufferPoolManager.next_page_id_ b' = BufferPoolManager.next_page_id_ b
  ∧ length (BufferPoolManager.pages_ b') = length (BufferPoolManager.pages_ b)
  ∧ BufferPoolManager.free_list_ b' = BufferPoolManager.free_list_ b
  ∧ BufferPoolManager.page_table_ b' = BufferPoolManager.page_table_ b
  ∧ BufferPoolManager.replacer_ b' = BufferPoolManager.replacer_ b
  ∧ ∀ g, Page.page_id_ <$> BufferPoolManager.page_at b' g
         = Page.page_id_ <$> BufferPoolManager.page_at b g.
Proof.
  unfold BufferPoolManager.FlushPage.
  destruct (page_id =? Page.INVALID_PAGE_ID); [discriminate|].
  destruct (BufferPoolManager.page_table_ b !! page_id) as [f|].
  - destruct (BufferPoolManager.page_at b f) as [p|] eqn:Hp; [|discriminate].
    simpl. intros [= <- <-]. simpl. repeat split; try done.
    + by rewrite length_insert.
    + intros g.
      change (BufferPoolManager.page_at _ g) with
        (BufferPoolManager.page_at
           (BufferPoolManager.set_page f
              (Page.mk (Page.data_ p) (Page.page_id_ p) (Page.pin_count_ p) false)
              b) g) at 1.
      by apply (page_id_set_page b f p).
  - intros [= <- <-]. done.
Qed.

Lemma bpm_inv_FlushPage hole page_id b res b' :
  bpm_inv hole b →
  BufferPoolManager.FlushPage page_id b = Some (res, b') →
  bpm_inv hole b'.
Proof.
  intros Hinv Hflush.
  destruct (FlushPage_frame _ _ _ _ Hflush) as (? & ? & ? & ? & ? & Hr & ?).
  eapply bpm_inv_frame; try done. rewrite Hr. auto.
Qed.

(** *** Taking a frame *)

Lemma take_frame_inv early0 b f b1 :
  bpm_inv None b →
  BufferPoolManager.take_frame early0 b = Some (Some (f, b1)) →
  bpm_inv (Some f) b1
  ∧ BufferPoolManager.pool_size_ b1 = BufferPoolManager.pool_size_ b
  ∧ BufferPoolManager.next_page_id_ b1 = BufferPoolManager.next_page_id_ b
  ∧ ∀ pid, BufferPoolManager.page_table_ b !! pid = None →
           BufferPoolManager.page_table_ b1 !! pid = None.
Proof.
  intros Hinv. pose proof Hinv as [I1 I2 I3 I4 I5 I6 I7].
  unfold BufferPoolManager.take_frame.
  destruct (BufferPoolManager.free_list_ b) as [|f0 rest] eqn:Hfree.
  - (* a victim of the replacer *)
    destruct (LRUKReplacer.Evict early0 _) as [[f' r]|] eqn:Hev; [|discriminate].
    destruct (Evict_known _ _ _ _ Hev) as [(n' & Hknown & _) Hr].
    assert (Hstore : LRUKReplacer.node_store_ r
                     = delete f' (LRUKReplacer.node_store_
                                    (BufferPoolManager.replacer_ b)))
      by (by rewrite Hr).
    clear Hr.
    destruct (I6 f' (mk_is_Some _ _ Hknown)) as [?|[pid0 Hpid0]]; [discriminate|].
    destruct (I4 pid0 f' Hpid0) as (Hrange & _ & _ & Hid0).
    simpl.
    change (BufferPoolManager.page_at (BufferPoolManager.set_replacer r b) f')
      with (BufferPoolManager.page_at b f').
    destruct (BufferPoolManager.page_at b f') as [old|] eqn:Hold; [|discriminate].
    simpl in Hid0. injection Hid0 as Hid0. simpl.
    unfold Page.GetPageId. rewrite Hid0.
    set (b0 := BufferPoolManager.set_replacer r b).
    assert (Hb0 : bpm_inv None b0).
    { apply (bpm_inv_frame None b b0 Hinv); try done.
      intros g Hg. simpl in Hg. rewrite Hstore in Hg. left.
      destruct (decide (f' = g)) as [->|Hne].
      - rewrite lookup_delete_eq in Hg. by destruct Hg.
      - by rewrite lookup_delete_ne in Hg. }
    destruct (if Page.IsDirty old then _ else _) as [b2|] eqn:Hwb; [|discriminate].
    simpl. intros [= <- <-].
    assert (Hfr : BufferPoolManager.pool_size_ b2 = BufferPoolManager.pool_size_ b0
              ∧ BufferPoolManager.next_page_id_ b2 = BufferPoolManager.next_page_id_ b0
              ∧ length (BufferPoolManager.pages_ b2) = length (BufferPoolManager.pages_ b0)
              ∧ BufferPoolManager.free_list_ b2 = BufferPoolManager.free_list_ b0
              ∧ BufferPoolManager.page_table_ b2 = BufferPoolManager.page_table_ b0
              ∧ BufferPoolManager.replacer_ b2 = BufferPoolManager.replacer_ b0
              ∧ ∀ g, Page.page_id_ <$> BufferPoolManager.page_at b2 g
                     = Page.page_id_ <$> BufferPoolManager.page_at b0 g).
    { destruct (Page.IsDirty old).
      - destruct (BufferPoolManager.FlushPage pid0 b0) as [[res b2']|] eqn:Hflush;
          [|discriminate].
        simpl in Hwb. injection Hwb as ->. by eapply FlushPage_frame.
      - injection Hwb as <-. by repeat split. }
    destruct Hfr as (Hsz & Hnext & Hlen & Hfl & Hpt & Hrep & Hids).
    assert (Hb2 : bpm_inv None b2).
    { apply (bpm_inv_frame None b0 b2 Hb0); try done. rewrite Hrep. auto. }
    assert (Hst : LRUKReplacer.node_store_ (BufferPoolManager.replacer_ b2)
                  = delete f' (LRUKReplacer.node_store_ (BufferPoolManager.replacer_ b))).
    { by rewrite Hrep. }
    simpl in Hsz, Hnext, Hfl, Hpt. rewrite Hfree in Hfl.
    change (∀ g, Page.page_id_ <$> BufferPoolManager.page_at b2 g
                 = Page.page_id_ <$> BufferPoolManager.page_at b g) in Hids.
    split; [|split; [done|split; [done|]]].
    2:{ intros pid Hnone. simpl. rewrite Hpt.
        destruct (decide (pid0 = pid)) as [->|Hne];
          [apply lookup_delete_eq|by rewrite lookup_delete_ne]. }
    destruct Hb2 as [J1 J2 J3 J4 J5 J6 J7].
    split; simpl; try done.
    + intros g Hg. rewrite Hfl in Hg. by apply elem_of_nil in Hg.
    + intros pid g [Hne Hg]%lookup_delete_Some.
      destruct (J4 pid g Hg) as (? & ? & _ & Hid).
      split; [done|]. split; [done|]. split; [|done].
      intros [= <-]. rewrite Hids, Hold in Hid. simpl in Hid. congruence.
    + intros g Hg. destruct (J5 g Hg) as [?|[?|[pid Hpid]]]; [done|by right; left|].
      destruct (decide (pid = pid0)) as [->|Hne].
      * left. rewrite Hpt in Hpid. congruence.
      * right; right. exists pid. by rewrite lookup_delete_ne.
    + intros g Hg. rewrite Hst in Hg.
      destruct (decide (f' = g)) as [->|Hne]; [by left|].
      rewrite lookup_delete_ne in Hg by done.
      destruct (I6 g Hg) as [?|[pid Hpid]]; [done|]. right. exists pid.
      rewrite Hpt, lookup_delete_ne; [done|].
      intros <-. congruence.
    + intros g [= <-]. by rewrite Hsz.
  - (* the front of the free list *)
    intros [= <- <-]. simpl.
    apply NoDup_cons in I2 as [Hnotin Hnodup].
    split; [|done].
    split; simpl; try done.
    + intros g Hg. split; [apply I3; by right|]. intros [= <-]. done.
    + intros pid g Hg. destruct (I4 pid g Hg) as (? & Hnf & _ & ?).
      split; [done|]. split; [|split; [|done]].
      * intros Hin. apply Hnf. by right.
      * intros [= <-]. apply Hnf. by left.
    + intros g Hg. destruct (I5 g Hg) as [?|[Hin|?]]; [done| |by right; right].
      apply elem_of_cons in Hin as [->|Hin]; [by left|by right; left].
    + intros g Hg. destruct (I6 g Hg) as [?|?]; [done|by right].
    + intros g [= <-]. apply I3. by left.
Qed.

(** *** Giving the frame a page *)

Lemma bpm_inv_fill f pid p b :
  bpm_inv (Some f) b →
  BufferPoolManager.page_table_ b !! pid = None →
  Page.page_id_ p = pid →
  bpm_inv None
    (BufferPoolManager.set_page f p
       (BufferPoolManager.set_page_table
          (<[pid := f]> (BufferPoolManager.page_table_ b)) b)).
Proof.
  intros [I1 I2 I3 I4 I5 I6 I7] Hfresh Hid.
  assert (Hf : 0 <= f < BufferPoolManager.pool_size_ b) by by apply I7.
  set (b1 := BufferPoolManager.set_page_table _ b).
  assert (Hat : ∀ g, g ≠ f →
            BufferPoolManager.page_at (BufferPoolManager.set_page f p b1) g
            = BufferPoolManager.page_at b g).
  { intros g Hne. rewrite page_at_set_page_ne; [done|lia|done]. }
  assert (Hatf : BufferPoolManager.page_at (BufferPoolManager.set_page f p b1) f
                 = Some p).
  { apply page_at_set_page_eq; [lia|]. simpl. rewrite I1. lia. }
  split; simpl.
  - by rewrite length_insert.
  - done.
  - intros g Hg. split; [by apply I3|done].
  - intros pid' g Hg. apply lookup_insert_Some in Hg as [[<- <-]|[Hne Hg]].
    + split; [done|]. split; [|split; [done|]].
      * intros Hin. by destruct (I3 f Hin).
      * rewrite Hatf. simpl. by f_equal.
    + destruct (I4 pid' g Hg) as (? & ? & Hgf & ?).
      split; [done|]. split; [done|]. split; [done|].
      rewrite Hat; [done|]. intros ->. done.
  - intros g Hg. right. destruct (I5 g Hg) as [[= <-]|[?|[pid' Hpid']]].
    + right. exists pid. apply lookup_insert_eq.
    + by left.
    + right. exists pid'. rewrite lookup_insert_ne; [done|]. intros <-. congruence.
  - intros g Hg. right. destruct (I6 g Hg) as [[= <-]|[pid' Hpid']].
    + exists pid. apply lookup_insert_eq.
    + exists pid'. rewrite lookup_insert_ne; [done|]. intros <-. congruence.
  - intros g Hg. discriminate.
Qed.

(** [touch] in the middle of a call: the frame it registers is the hole
    or a resident one. *)
Lemma bpm_inv_touch hole f b b' :
  bpm_inv hole b →
  hole = Some f ∨ (∃ pid, BufferPoolManager.page_table_ b !! pid = Some f) →
  BufferPoolManager.touch f b = Some b' →
  bpm_inv hole b'.
Proof.
  intros Hinv Hf Htouch.
  destruct (touch_known _ _ _ Htouch) as (? & ? & Hpages & ? & ? & Hnodes).
  apply (bpm_inv_frame hole b b' Hinv); try done.
  - by rewrite Hpages.
  - intros g. unfold BufferPoolManager.page_at. by rewrite Hpages.
  - intros g Hg. destruct (Hnodes g Hg) as [->|?]; [|by left].
    right. destruct Hf; auto.
Qed.

(** *** The five calls *)

Lemma bpm_inv_NewPage early0 b res b' :
  bpm_inv None b →
  BufferPoolManager.page_table_ b !! BufferPoolManager.next_page_id_ b = None →
  BufferPoolManager.NewPage early0 b = Some (res, b') →
  bpm_inv None b'.
Proof.
  intros Hinv Hfresh. unfold BufferPoolManager.NewPage.
  destruct (BufferPoolManager.take_frame early0 b) as [[[f b1]|]|] eqn:Htf;
    simpl; [|by intros [= <- <-]|discriminate].
  destruct (take_frame_inv _ _ _ _ Hinv Htf) as (Hb1 & Hsz & Hnext & Hsub).
  destruct (BufferPoolManager.touch f _) as [b3|] eqn:Htouch; [|discriminate].
  match type of Htouch with
  | BufferPoolManager.touch f ?x = _ => set (b2 := x) in Htouch
  end.
  simpl.
  destruct (BufferPoolManager.page_at _ f) as [page|]; [|discriminate].
  simpl. intros [= <- <-].
  assert (Hb2 : bpm_inv (Some f) b2).
  { apply (bpm_inv_frame (Some f) b1 b2 Hb1); try done. auto. }
  assert (Hb3 : bpm_inv (Some f) b3).
  { eapply bpm_inv_touch; [exact Hb2|by left|done]. }
  destruct (touch_known _ _ _ Htouch) as (_ & _ & _ & _ & Hpt & _).
  apply bpm_inv_fill; [done| |done].
  rewrite Hpt. simpl. apply Hsub. by rewrite Hnext.
Qed.

Lemma bpm_inv_FetchPage early0 page_id b res b' :
  bpm_inv None b →
  BufferPoolManager.FetchPage early0 page_id b = Some (res, b') →
  bpm_inv None b'.
Proof.
  intros Hinv. unfold BufferPoolManager.FetchPage.
  destruct (BufferPoolManager.page_table_ b !! page_id) as [f|] eqn:Hpt.
  - (* the page is resident *)
    destruct (BufferPoolManager.page_at b f) as [page|] eqn:Hpage;
      [|discriminate].
    simpl.
    destruct (BufferPoolManager.touch f _) as [b1|] eqn:Htouch; [|discriminate].
    simpl. intros [= <- <-].
    refine (bpm_inv_touch None f _ b1 _ _ Htouch);
      [|right; exists page_id; exact Hpt].
    eapply (bpm_inv_frame None b); try done.
    + simpl. by rewrite length_insert.
    + intros g. by apply (page_id_set_page b f page).
    + auto.
  - (* the page is read into a frame *)
    destruct (BufferPoolManager.take_frame early0 b) as [[[f b1]|]|] eqn:Htf;
      simpl; [|by intros [= <- <-]|discriminate].
    destruct (take_frame_inv _ _ _ _ Hinv Htf) as (Hb1 & Hsz & Hnext & Hsub).
    destruct (BufferPoolManager.touch f b1) as [b2|] eqn:Htouch; [|discriminate].
    simpl.
    destruct (BufferPoolManager.page_at _ f) as [page|]; [|discriminate].
    simpl. intros [= <- <-].
    assert (Hb2 : bpm_inv (Some f) b2).
    { eapply bpm_inv_touch; [exact Hb1|by left|done]. }
    destruct (touch_known _ _ _ Htouch) as (_ & _ & _ & _ & Hpt2 & _).
    apply bpm_inv_fill; [done| |done].
    rewrite Hpt2. by apply Hsub.
Qed.

Lemma bpm_inv_UnpinPage page_id is_dirty b res b' :
  bpm_inv None b →
  BufferPoolManager.UnpinPage page_id is_dirty b = Some (res, b') →
  bpm_inv None b'.
Proof.
  intros Hinv. unfold BufferPoolManager.UnpinPage.
  destruct (BufferPoolManager.page_table_ b !! page_id) as [f|] eqn:Hpt;
    [|by intros [= <- <-]].
  destruct (BufferPoolManager.page_at b f) as [page|] eqn:Hpage; [|discriminate].
  simpl. destruct (Page.GetPinCount page <=? 0); [by intros [= <- <-]|].
  destruct (LRUKReplacer.SetEvictable f _ _) as [r|] eqn:Hset; [|discriminate].
  simpl. intros [= <- <-].
  eapply (bpm_inv_frame None b); try done.
  - simpl. by rewrite length_insert.
  - intros g.
    apply (page_id_set_page (BufferPoolManager.set_replacer r b) f page); done.
  - intros g Hg. left. simpl in Hg. by eapply SetEvictable_known.
Qed.

Lemma bpm_inv_DeletePage page_id b res b' :
  bpm_inv None b →
  BufferPoolManager.DeletePage page_id b = Some (res, b') →
  bpm_inv None b'.
Proof.
  intros Hinv. unfold BufferPoolManager.DeletePage.
  destruct (BufferPoolManager.page_table_ b !! page_id) as [f|] eqn:Hpt;
    [|by intros [= <- <-]].
  destruct (BufferPoolManager.page_at b f) as [page|] eqn:Hpage; [|discriminate].
  simpl. destruct (0 <? Page.GetPinCount page); [by intros [= <- <-]|].
  destruct (if Page.is_dirty_ page then _ else _) as [b1|] eqn:Hwb;
    [|discriminate].
  simpl.
  assert (Hfr : BufferPoolManager.pool_size_ b1 = BufferPoolManager.pool_size_ b
            ∧ BufferPoolManager.next_page_id_ b1 = BufferPoolManager.next_page_id_ b
            ∧ length (BufferPoolManager.pages_ b1) = length (BufferPoolManager.pages_ b)
            ∧ BufferPoolManager.free_list_ b1 = BufferPoolManager.free_list_ b
            ∧ BufferPoolManager.page_table_ b1 = BufferPoolManager.page_table_ b
            ∧ BufferPoolManager.replacer_ b1 = BufferPoolManager.replacer_ b
            ∧ ∀ g, Page.page_id_ <$> BufferPoolManager.page_at b1 g
                   = Page.page_id_ <$> BufferPoolManager.page_at b g).
  { destruct (Page.is_dirty_ page).
    - destruct (BufferPoolManager.FlushPage page_id b) as [[r0 b1']|] eqn:Hflush;
        [|discriminate].
      simpl in Hwb. injection Hwb as ->. by eapply FlushPage_frame.
    - injection Hwb as <-. by repeat split. }
  destruct Hfr as (Hsz & Hnext & Hlen & Hfl & Hpt1 & Hrep & Hids).
  assert (Hb1 : bpm_inv None b1).
  { apply (bpm_inv_frame None b b1 Hinv); try done. rewrite Hrep. auto. }
  destruct (BufferPoolManager.page_at b1 f) as [page1|] eqn:Hpage1;
    [|discriminate].
  simpl.
  destruct (LRUKReplacer.Remove f _) as [r|] eqn:Hrem; [|discriminate].
  simpl. intros [= <- <-].
  destruct Hb1 as [J1 J2 J3 J4 J5 J6 J7].
  rewrite <- Hpt1 in Hpt.
  destruct (J4 page_id f Hpt) as (Hrange & Hnf & _ & Hidf).
  rewrite Hpage1 in Hidf. simpl in Hidf. injection Hidf as Hidf.
  unfold Page.GetPageId. rewrite Hidf.
  set (b2 := BufferPoolManager.set_page f (Page.ResetMemory page1) b1).
  assert (Hids2 : ∀ g, Page.page_id_ <$> BufferPoolManager.page_at b2 g
                       = Page.page_id_ <$> BufferPoolManager.page_at b1 g).
  { intros g. by apply (page_id_set_page b1 f page1). }
  split; simpl.
  - by rewrite length_insert.
  - apply NoDup_app. split; [done|]. split; [|apply NoDup_singleton].
    intros g Hg Hgf. apply list_elem_of_singleton in Hgf. by subst g.
  - intros g [Hg|Hg]%elem_of_app; [by apply J3|].
    apply list_elem_of_singleton in Hg. by subst g.
  - intros pid g [Hne Hg]%lookup_delete_Some.
    destruct (J4 pid g Hg) as (? & ? & _ & Hidg).
    assert (g ≠ f).
    { intros ->. rewrite Hpage1 in Hidg. simpl in Hidg. congruence. }
    split; [done|]. split; [|split; [done|]].
    + intros [Hin|Hin]%elem_of_app; [done|].
      by apply list_elem_of_singleton in Hin.
    + change (BufferPoolManager.page_at _ g) with (BufferPoolManager.page_at b2 g).
      by rewrite Hids2.
  - intros g Hg. right. destruct (J5 g Hg) as [?|[?|[pid Hpid]]]; [done| |].
    + left. apply elem_of_app. by left.
    + destruct (decide (pid = page_id)) as [->|Hne].
      * left. apply elem_of_app. right. apply list_elem_of_singleton. congruence.
      * right. exists pid. by rewrite lookup_delete_ne.
  - intros g Hg. right.
    destruct (Remove_known _ _ _ _ Hrem Hg) as [Hgf Hg'].
    destruct (J6 g Hg') as [?|[pid Hpid]]; [done|].
    exists pid. rewrite lookup_delete_ne; [done|]. intros <-. congruence.
  - discriminate.
Qed.

Lemma bpm_inv_run o b b' :
  bpm_inv None b → ¬ allocates_resident o b → bpm_run o b = Some b' →
  bpm_inv None b'.
Proof.
  intros Hinv Hfresh Hrun. destruct o as [e|e pid|pid d|pid|pid]; simpl in Hrun.
  - destruct (BufferPoolManager.NewPage e b) as [[res b1]|] eqn:Hop;
      [|discriminate].
    injection Hrun as <-. eapply bpm_inv_NewPage; [done| |done].
    simpl in Hfresh.
    destruct (BufferPoolManager.page_table_ b !! _); [|done].
    exfalso. apply Hfresh. eauto.
  - destruct (BufferPoolManager.FetchPage e pid b) as [[res b1]|] eqn:Hop;
      [|discriminate].
    injection Hrun as <-. by eapply bpm_inv_FetchPage.
  - destruct (BufferPoolManager.UnpinPage pid d b) as [[res b1]|] eqn:Hop;
      [|discriminate].
    injection Hrun as <-. by eapply bpm_inv_UnpinPage.
  - destruct (BufferPoolManager.FlushPage pid b) as [[res b1]|] eqn:Hop;
      [|discriminate].
    injection Hrun as <-. by eapply bpm_inv_FlushPage.
  - destruct (BufferPoolManager.DeletePage pid b) as [[res b1]|] eqn:Hop;
      [|discriminate].
    injection Hrun as <-. by eapply bpm_inv_DeletePage.
Qed.

Lemma bpm_inv_new pool_size disk_manager replacer_k :
  bpm_inv None (BufferPoolManager.new pool_size disk_manager replacer_k).
Proof.
  split; simpl.
  - apply repeat_length.
  - apply NoDup_seqZ.
  - intros f Hf. apply elem_of_seqZ in Hf. split; [lia|done].
  - intros pid f Hf. by rewrite lookup_empty in Hf.
  - intros f Hf. right; left. apply elem_of_seqZ. lia.
  - intros f [n Hf]. by rewrite lookup_empty in Hf.
  - discriminate.
Qed.

Lemma bpm_inv_partitioned b : bpm_inv None b → frames_partitioned b.
Proof.
  intros [I1 I2 I3 I4 I5 I6 I7].
  unfold frames_partitioned, free_frames, resident_frames, pool_frames.
  split.
  - intros f Hfree Hres.
    apply elem_of_list_to_set in Hfree.
    apply elem_of_map_img in Hres as [pid Hpid].
    by destruct (I4 pid f Hpid) as (_ & Hnf & _).
  - apply set_eq. intros f.
    rewrite elem_of_union, !elem_of_list_to_set, elem_of_map_img, elem_of_seqZ.
    split.
    + intros [Hfree|[pid Hpid]].
      * destruct (I3 f Hfree). lia.
      * destruct (I4 pid f Hpid) as (? & _). lia.
    + intros Hf. destruct (I5 f) as [?|[?|?]]; [lia|done|by left|by right].
Qed.

(** C9, as amended.  From a new buffer pool, every sequence of calls of
    [NewPage], [FetchPage], [UnpinPage], [FlushPage] and [DeletePage] in
    which no [NewPage] is made while a page with the id it is about to
    hand out is resident leads to a state where the frames of the free
    list and the frames of the frame table are disjoint and together are
    the frame ids from 0 to [pool_size - 1]. *)
Theorem frames_partitioned_reachable pool_size disk_manager replacer_k b :
  bpm_reachable_fresh
    (BufferPoolManager.new pool_size disk_manager replacer_k) b →
  frames_partitioned b.
Proof.
  intros Hreach. apply bpm_inv_partitioned.
  induction Hreach as [|o b b' _ IH Hfresh Hrun].
  - apply bpm_inv_new.
  - by eapply bpm_inv_run.
Qed.

Lemma bpm_run_fresh_None ops :
  foldl (λ s o, s ≫= λ b, if allocates_resident_b o b then None else bpm_run o b)
        None ops = None.
Proof. induction ops as [|o ops IH]; [done|]. simpl. exact IH. Qed.

Lemma bpm_run_fresh_reachable b0 ops : ∀ b1 b,
  bpm_reachable_fresh b0 b1 →
  bpm_run_fresh ops b1 = Some b →
  bpm_reachable_fresh b0 b.
Proof.
  unfold bpm_run_fresh.
  induction ops as [|o ops IH]; intros b1 b Hreach Hrun; simpl in Hrun.
  - by injection Hrun as <-.
  - destruct (allocates_resident_b o b1) eqn:Hfresh.
    { by rewrite bpm_run_fresh_None in Hrun. }
    destruct (bpm_run o b1) as [b2|] eqn:Hstep.
    2:{ by rewrite bpm_run_fresh_None in Hrun. }
    apply (IH b2 b); [|done].
    eapply bpm_fresh_call; [exact Hreach| |exact Hstep].
    destruct o; simpl in *; try tauto.
    destruct (BufferPoolManager.page_table_ b1 !! _); [discriminate|].
    by intros [? ?].
Qed.

Lemma bpm_run_all_None ops :
  foldl (λ s o, s ≫= bpm_run o) None ops = None.
Proof. induction ops as [|o ops IH]; [done|]. simpl. exact IH. Qed.

Lemma bpm_run_all_reachable b0 ops : ∀ b1 b,
  bpm_reachable b0 b1 →
  bpm_run_all ops b1 = Some b →
  bpm_reachable b0 b.
Proof.
  unfold bpm_run_all.
  induction ops as [|o ops IH]; intros b1 b Hreach Hrun; simpl in Hrun.
  - by injection Hrun as <-.
  - destruct (bpm_run o b1) as [b2|] eqn:Hstep.
    2:{ by rewrite bpm_run_all_None in Hrun. }
    apply (IH b2 b); [|done]. by eapply bpm_reachable_call.
Qed.

(** An instance: scenario 1 of the specification. *)
Lemma frames_partitioned_reachable_witness :
  match bpm_run_fresh bpm_scenario_1 (BufferPoolManager.new 3 empty_disk 2) with
  | Some b => frames_partitioned b
  | None => False
  end.
Proof.
  destruct (bpm_run_fresh bpm_scenario_1 (BufferPoolManager.new 3 empty_disk 2))
    as [b|] eqn:Hrun.
  - apply (frames_partitioned_reachable 3 empty_disk 2 b).
    eapply bpm_run_fresh_reachable; [apply bpm_fresh_start|exact Hrun].
  - vm_compute in Hrun. discriminate Hrun.
Defined.

(** C9 as stated fails.  On a new pool of two frames [FetchPage 0] puts
    page 0 into frame 0; the next [NewPage] takes frame 1 from the free
    list, is given the page id 0 as well and overwrites the entry of the
    frame table.  Frame 0 is then neither free nor in the frame table. *)
Lemma frames_not_partitioned_after_fetch_then_new :
  ∃ b, bpm_run_all bpm_orphan_run (BufferPoolManager.new 2 empty_disk 2) = Some b
       ∧ bpm_reachable (BufferPoolManager.new 2 empty_disk 2) b
       ∧ BufferPoolManager.free_list_ b = []
       ∧ map_to_list (BufferPoolManager.page_table_ b) = [(0, 1)]
       ∧ ¬ frames_partitioned b.
Proof.
  destruct (bpm_run_all bpm_orphan_run (BufferPoolManager.new 2 empty_disk 2))
    as [b|] eqn:Hrun; [|vm_compute in Hrun; discriminate Hrun].
  exists b. split; [done|].
  split; [eapply bpm_run_all_reachable; [apply bpm_reachable_start|exact Hrun]|].
  assert (Hfree : BufferPoolManager.free_list_ b = []).
  { vm_compute in Hrun. by injection Hrun as <-. }
  assert (Htable : map_to_list (BufferPoolManager.page_table_ b) = [(0, 1)]).
  { vm_compute in Hrun. by injection Hrun as <-. }
  assert (Hsize : BufferPoolManager.pool_size_ b = 2).
  { vm_compute in Hrun. by injection Hrun as <-. }
  split; [done|]. split; [done|].
  intros [_ Hunion].
  assert (Hin : 0 ∈ pool_frames b).
  { unfold pool_frames. rewrite Hsize. apply elem_of_list_to_set, elem_of_seqZ. lia. }
  rewrite <- Hunion in Hin. apply elem_of_union in Hin as [Hin|Hin].
  - unfold free_frames in Hin. rewrite Hfree in Hin.
    by apply elem_of_list_to_set, elem_of_nil in Hin.
  - apply elem_of_map_img in Hin as [pid Hpid].
    apply elem_of_map_to_list in Hpid. rewrite Htable in Hpid.
    apply list_elem_of_singleton in Hpid. discriminate Hpid.
Qed.

(* ===================================================================== *)
(** * Part IV: further properties                                         *)
(* ===================================================================== *)

(** ** Disk manager: a written page and its neighbours *)

Lemma lookup_repeat_lt {A} (x : A) (n i : nat) :
  (i < n)%nat → repeat x n !! i = Some x.
Proof.
  revert i. induction n as [|n IH]; intros i Hi; [lia|].
  destruct i as [|i]; [done|]. simpl. apply IH. lia.
Qed.

(** The file after [WritePage], byte by byte: below the offset the old
    byte or the zero of the gap, then the page, then the old bytes. *)
Lemma WritePage_lookup d page_id page_data (i : nat) :
  0 <= page_id →
  page_id * DiskManager.BUSTUB_PAGE_SIZE < 2 ^ 64 →
  length page_data = Z.to_nat DiskManager.BUSTUB_PAGE_SIZE →
  let off := Z.to_nat (page_id * DiskManager.BUSTUB_PAGE_SIZE) in
  DiskManager.db_io_ (DiskManager.WritePage d page_id page_data) !! i
  = if decide (i < off)%nat
    then Some (default Byte.x00 (DiskManager.db_io_ d !! i))
    else if decide (i < off + Z.to_nat DiskManager.BUSTUB_PAGE_SIZE)%nat
         then page_data !! (i - off)%nat
         else DiskManager.db_io_ d !! i.
Proof.
  intros Hpid Hoff Hlen off. unfold DiskManager.WritePage. simpl.
  rewrite (wrap_u64_small page_id)
    by (unfold DiskManager.BUSTUB_PAGE_SIZE in *; lia).
  rewrite wrap_u64_small
    by (unfold DiskManager.BUSTUB_PAGE_SIZE in *; lia).
  fold off.
  set (file := DiskManager.db_io_ d).
  set (padded := file ++ _).
  assert (Hpad : (off <= length padded)%nat).
  { subst padded. rewrite length_app. unfold DiskManager.zeros.
    rewrite repeat_length. subst off. lia. }
  assert (Htake : length (take off padded) = off).
  { rewrite length_take. lia. }
  rewrite (take_ge page_data) by lia.
  destruct (decide (i < off)%nat) as [Hi|Hi].
  - rewrite lookup_app_l by lia. rewrite lookup_take_lt by done.
    subst padded. destruct (file !! i) as [x|] eqn:Hx.
    + by rewrite lookup_app_l by (by eapply lookup_lt_Some).
    + apply lookup_ge_None in Hx. rewrite lookup_app_r by done.
      simpl. unfold DiskManager.zeros. apply lookup_repeat_lt. subst off. lia.
  - rewrite lookup_app_r by lia. rewrite Htake.
    destruct (decide (i < off + _)%nat) as [Hj|Hj].
    + by rewrite lookup_app_l by lia.
    + rewrite lookup_app_r by lia. rewrite lookup_drop. f_equal.
      subst off. unfold DiskManager.BUSTUB_PAGE_SIZE in *. lia.
Qed.

Lemma WritePage_length d page_id page_data :
  0 <= page_id →
  page_id * DiskManager.BUSTUB_PAGE_SIZE < 2 ^ 64 →
  length page_data = Z.to_nat DiskManager.BUSTUB_PAGE_SIZE →
  Z.of_nat (length (DiskManager.db_io_
                      (DiskManager.WritePage d page_id page_data)))
  = Z.max (Z.of_nat (length (DiskManager.db_io_ d)))
          ((page_id + 1) * DiskManager.BUSTUB_PAGE_SIZE).
Proof.
  intros Hpid Hoff Hlen. unfold DiskManager.WritePage. simpl.
  rewrite (wrap_u64_small page_id)
    by (unfold DiskManager.BUSTUB_PAGE_SIZE in *; lia).
  rewrite wrap_u64_small
    by (unfold DiskManager.BUSTUB_PAGE_SIZE in *; lia).
  rewrite !length_app, length_take, length_take, length_drop, length_app.
  unfold DiskManager.zeros. rewrite repeat_length.
  unfold DiskManager.BUSTUB_PAGE_SIZE in *. lia.
Qed.


(** The pages that the file held in full keep their bytes. *)
Lemma WritePage_page_bytes_other d page_id page_data other :
  0 <= page_id →
  page_id * DiskManager.BUSTUB_PAGE_SIZE < 2 ^ 64 →
  length page_data = Z.to_nat DiskManager.BUSTUB_PAGE_SIZE →
  0 <= other → other ≠ page_id →
  (other + 1) * DiskManager.BUSTUB_PAGE_SIZE
    <= Z.of_nat (length (DiskManager.db_io_ d)) →
  page_bytes (DiskManager.WritePage d page_id page_data) other
  = page_bytes d other.
Proof.
  intros Hpid H64 Hlen Hother Hne Hin. unfold page_bytes.
  apply list_eq. intros i.
  destruct (decide (i < Z.to_nat DiskManager.BUSTUB_PAGE_SIZE)%nat) as [Hi|Hi].
  - rewrite !lookup_take_lt by done. rewrite !lookup_drop.
    rewrite WritePage_lookup by done. simpl.
    destruct (decide _) as [Hlow|Hlow].
    + destruct (DiskManager.db_io_ d !! _) as [x|] eqn:Hx; [done|].
      apply lookup_ge_None in Hx.
      unfold DiskManager.BUSTUB_PAGE_SIZE in *. lia.
    + destruct (decide _) as [Hmid|_]; [|done].
      unfold DiskManager.BUSTUB_PAGE_SIZE in *. lia.
  - by rewrite !lookup_take_ge by lia.
Qed.

(** [ReadPage] of a page that the file holds in full. *)
Lemma ReadPage_page_bytes d page_id buf :
  0 <= page_id →
  Z.of_nat (length (DiskManager.db_io_ d)) <= Machine.INT32_MAX →
  (page_id + 1) * DiskManager.BUSTUB_PAGE_SIZE
    <= Z.of_nat (length (DiskManager.db_io_ d)) →
  DiskManager.ReadPage d page_id buf = page_bytes d page_id.
Proof.
  intros Hpid Hsize Hin.
  unfold DiskManager.ReadPage, DiskManager.GetFileSize.
  rewrite (wrap_i32_small (page_id * _))
    by (unfold Machine.INT32_MAX, DiskManager.BUSTUB_PAGE_SIZE in *; lia).
  rewrite wrap_i32_small
    by (unfold Machine.INT32_MAX, DiskManager.BUSTUB_PAGE_SIZE in *; lia).
  destruct (Z.ltb_spec (Z.of_nat (length (DiskManager.db_io_ d)))
              (page_id * DiskManager.BUSTUB_PAGE_SIZE)) as [Hlt|_].
  { unfold DiskManager.BUSTUB_PAGE_SIZE in *. lia. }
  destruct (Z.ltb_spec (page_id * DiskManager.BUSTUB_PAGE_SIZE) 0) as [Hlt|_].
  { unfold DiskManager.BUSTUB_PAGE_SIZE in *. lia. }
  fold (page_bytes d page_id).
  assert (Hgot : length (page_bytes d page_id)
                 = Z.to_nat DiskManager.BUSTUB_PAGE_SIZE).
  { unfold page_bytes. rewrite length_take, length_drop.
    unfold DiskManager.BUSTUB_PAGE_SIZE in *. lia. }
  rewrite Hgot.
  destruct (Z.ltb_spec (Z.of_nat (Z.to_nat DiskManager.BUSTUB_PAGE_SIZE))
              DiskManager.BUSTUB_PAGE_SIZE) as [Hlt|_]; [|done].
  unfold DiskManager.BUSTUB_PAGE_SIZE in *. lia.
Qed.



(** X2.  [WritePage] leaves the other pages of the file as they are: a
    page that the file held in full before the write of another page is
    read with the same result afterwards. *)
Theorem WritePage_keeps_other_pages d page_id page_data other buf :
  0 <= page_id →
  (page_id + 1) * DiskManager.BUSTUB_PAGE_SIZE <= Machine.INT32_MAX →
  Z.of_nat (length (DiskManager.db_io_ d)) <= Machine.INT32_MAX →
  Z.of_nat (length page_data) = DiskManager.BUSTUB_PAGE_SIZE →
  0 <= other → other ≠ page_id →
  (other + 1) * DiskManager.BUSTUB_PAGE_SIZE
    <= Z.of_nat (length (DiskManager.db_io_ d)) →
  DiskManager.ReadPage (DiskManager.WritePage d page_id page_data) other buf
  = DiskManager.ReadPage d other buf.
Proof.
  intros Hpid Hoff Hsize Hlen Hother Hne Hin.
  assert (Hlen' : length page_data = Z.to_nat DiskManager.BUSTUB_PAGE_SIZE) by lia.
  assert (H64 : page_id * DiskManager.BUSTUB_PAGE_SIZE < 2 ^ 64).
  { unfold Machine.INT32_MAX, DiskManager.BUSTUB_PAGE_SIZE in *. lia. }
  pose proof (WritePage_length d page_id page_data Hpid H64 Hlen') as Hfile.
  rewrite !ReadPage_page_bytes by lia.
  by apply WritePage_page_bytes_other.
Qed.

Lemma WritePage_keeps_other_pages_witness :
  let d := DiskManager.WritePage empty_disk 1
             (repeat Byte.x2a (Z.to_nat DiskManager.BUSTUB_PAGE_SIZE)) in
  DiskManager.ReadPage
    (DiskManager.WritePage d 0
       (repeat Byte.x2b (Z.to_nat DiskManager.BUSTUB_PAGE_SIZE)))
    1 [] = DiskManager.ReadPage d 1 [].
Proof.
  intros d.
  apply (WritePage_keeps_other_pages d 0 _ 1).
  - lia.
  - vm_compute. discriminate.
  - vm_compute. discriminate.
  - rewrite repeat_length. vm_compute. reflexivity.
  - lia.
  - lia.
  - vm_compute. discriminate.
Defined.

(** ** Replacer: what [Evict] and [Size] guarantee in every state *)

(** X3.  In every state that the four operations lead to from a new
    replacer (timestamps up to [INT32_MAX]), [Size] is the number of
    evictable frames, and it stays within the number of frames the
    replacer was made for. *)
Theorem Size_counts_evictable_frames num_frames k r :
  1 <= k → num_frames < 2 ^ 64 →
  replacer_reachable (LRUKReplacer.new num_frames k) r →
  LRUKReplacer.Size r = evictable_count r
  ∧ 0 <= LRUKReplacer.Size r <= Z.max 0 (LRUKReplacer.replacer_size_ r).
Proof.
  intros Hk Hn Hreach.
  pose proof (replacer_wf_reachable num_frames k r Hk Hn Hreach) as Hwf.
  pose proof (wf_size r Hwf) as Hsize.
  pose proof (evictable_count_bound r Hwf) as Hle.
  unfold LRUKReplacer.Size. rewrite Hsize. split; [done|].
  split; [|done]. unfold evictable_count, evictable_nodes. lia.
Qed.

Lemma Size_counts_evictable_frames_witness :
  LRUKReplacer.Size replacer_one = evictable_count replacer_one
  ∧ 0 <= LRUKReplacer.Size replacer_one
      <= Z.max 0 (LRUKReplacer.replacer_size_ replacer_one).
Proof.
  apply (Size_counts_evictable_frames 1 1 replacer_one).
  - lia.
  - vm_compute. reflexivity.
  - eapply (replacer_reachable_call _ (OpSetEvictable 0 true)).
    + eapply (replacer_reachable_call _ (OpRecordAccess 0)).
      * apply replacer_reachable_start.
      * reflexivity.
      * vm_compute. discriminate.
    + vm_compute. reflexivity.
    + vm_compute. discriminate.
Defined.

(** X4.  [Evict] never hands out a frame that is unknown or not
    evictable: in every state and whatever the unassigned local holds, the
    frame of a successful call was evictable, its node is gone afterwards,
    and all other nodes and the timestamp counter are as before. *)
Theorem Evict_returns_evictable_frame early0 r f r' :
  LRUKReplacer.Evict early0 r = Some (f, r') →
  (∃ n, evictable_in r f n)
  ∧ LRUKReplacer.node_store_ r' !! f = None
  ∧ (∀ g, g ≠ f →
       LRUKReplacer.node_store_ r' !! g = LRUKReplacer.node_store_ r !! g)
  ∧ LRUKReplacer.current_timestamp_ r' = LRUKReplacer.current_timestamp_ r.
Proof.
  intros Hev. destruct (Evict_known _ _ _ _ Hev) as [Hn ->]. simpl.
  split; [done|]. split; [apply lookup_delete_eq|].
  split; [|done]. intros g Hg. by apply lookup_delete_ne.
Qed.

Lemma Evict_returns_evictable_frame_witness :
  ∃ r', LRUKReplacer.Evict 0 replacer_four = Some (1, r')
        ∧ (∃ n, evictable_in replacer_four 1 n)
        ∧ LRUKReplacer.node_store_ r' !! 1 = None.
Proof.
  destruct (LRUKReplacer.Evict 0 replacer_four) as [[f r']|] eqn:Hev.
  - assert (Hf : f = 1) by (vm_compute in Hev; by injection Hev as <- _).
    subst f. exists r'. split; [done|].
    destruct (Evict_returns_evictable_frame 0 replacer_four 1 r' Hev)
      as (Hn & Hgone & _).
    by split.
  - vm_compute in Hev. discriminate Hev.
Defined.

(** X5.  When no frame is evictable, [Evict] returns [false], in every
    state and whatever the unassigned local holds. *)
Theorem Evict_fails_without_evictable_frame early0 r :
  (∀ f n, LRUKReplacer.node_store_ r !! f = Some n →
          LRUKNode.is_evictable_ n = false) →
  LRUKReplacer.Evict early0 r = None.
Proof.
  intros Hall. unfold LRUKReplacer.Evict, LRUKReplacer.Evict_scan.
  rewrite scan_stuck_foldl; [done|].
  intros [f n] Hin Hev. apply elem_of_map_to_list in Hin.
  simpl in Hev. rewrite (Hall f n Hin) in Hev. discriminate.
Qed.

Lemma Evict_fails_without_evictable_frame_witness :
  match LRUKReplacer.RecordAccess 0 (LRUKReplacer.new 2 2) with
  | Some r => LRUKReplacer.Evict 7 r = None
  | None => False
  end.
Proof.
  destruct (LRUKReplacer.RecordAccess 0 (LRUKReplacer.new 2 2)) as [r|] eqn:Hr.
  - apply (Evict_fails_without_evictable_frame 7 r).
    intros f n Hn. vm_compute in Hr. injection Hr as <-.
    cbn [LRUKReplacer.node_store_] in Hn.
    change (<[0 := LRUKNode.mk [1] 0 2 false]> (∅ : gmap Z LRUKNode.t) !! f
            = Some n) in Hn.
    lookup_cases Hn. reflexivity.
  - vm_compute in Hr. discriminate Hr.
Defined.



(** X7.  [SetEvictable] is idempotent: a second call with the same
    frame and flag changes nothing, so a frame is not counted twice by
    [Size]. *)
Theorem SetEvictable_idempotent f flag r r1 :
  LRUKReplacer.SetEvictable f flag r = Some r1 →
  LRUKReplacer.SetEvictable f flag r1 = Some r1.
Proof.
  unfold LRUKReplacer.SetEvictable, LRUKNode.GetEvictable.
  destruct (LRUKReplacer.node_store_ r !! f) as [n|] eqn:Hn; [|discriminate].
  destruct (LRUKNode.is_evictable_ n) eqn:Hev, flag; simpl;
    intros [= <-]; simpl; rewrite ?lookup_insert_eq, ?Hn; simpl;
    rewrite ?Hev; done.
Qed.

Lemma SetEvictable_idempotent_witness :
  match replacer_last_access with
  | Some r => LRUKReplacer.SetEvictable 0 true r = Some r
  | None => False
  end.
Proof.
  unfold replacer_last_access.
  destruct (LRUKReplacer.RecordAccess 0 (LRUKReplacer.new 1 1)) as [r0|] eqn:H0;
    [|vm_compute in H0; discriminate H0].
  simpl.
  destruct (LRUKReplacer.SetEvictable 0 true r0) as [r|] eqn:H1.
  - exact (SetEvictable_idempotent 0 true r0 r H1).
  - vm_compute in H0. injection H0 as <-. vm_compute in H1. discriminate H1.
Defined.



(** ** Buffer pool manager: pins, dirty pages and the frame table *)

(** Replacing a page by one that agrees with it on a field keeps that
    field in all frames. *)
Lemma page_at_set_page_proj {A} (proj : Page.t → A) b f p p' g :
  BufferPoolManager.page_at b f = Some p →
  proj p' = proj p →
  proj <$> BufferPoolManager.page_at (BufferPoolManager.set_page f p' b) g
  = proj <$> BufferPoolManager.page_at b g.
Proof.
  intros Hp Hid.
  assert (0 <= f ∧ (Z.to_nat f < length (BufferPoolManager.pages_ b))%nat)
    as [Hf Hlen].
  { unfold BufferPoolManager.page_at in Hp.
    destruct (Z.ltb_spec f 0); [discriminate|].
    split; [done|]. by eapply lookup_lt_Some. }
  destruct (decide (f = g)) as [<-|Hne].
  - rewrite page_at_set_page_eq, Hp by done. simpl. by f_equal.
  - by rewrite page_at_set_page_ne.
Qed.

Lemma page_at_in_range b f p :
  BufferPoolManager.page_at b f = Some p →
  0 <= f ∧ (Z.to_nat f < length (BufferPoolManager.pages_ b))%nat.
Proof.
  unfold BufferPoolManager.page_at.
  destruct (Z.ltb_spec f 0); [discriminate|].
  intros Hp. split; [done|]. by eapply lookup_lt_Some.
Qed.

(** [FlushPage] changes the disk and one dirty bit. *)
Lemma FlushPage_pages page_id b res b' :
  BufferPoolManager.FlushPage page_id b = Some (res, b') →
  BufferPoolManager.replacer_ b' = BufferPoolManager.replacer_ b
  ∧ BufferPoolManager.page_table_ b' = BufferPoolManager.page_table_ b
  ∧ ∀ g,
      Page.pin_count_ <$> BufferPoolManager.page_at b' g
      = Page.pin_count_ <$> BufferPoolManager.page_at b g
      ∧ Page.data_ <$> BufferPoolManager.page_at b' g
        = Page.data_ <$> BufferPoolManager.page_at b g
      ∧ (Page.is_dirty_ <$> BufferPoolManager.page_at b g = Some false →
         Page.is_dirty_ <$> BufferPoolManager.page_at b' g = Some false)
      ∧ (BufferPoolManager.page_table_ b !! page_id = Some g →
         Page.is_dirty_ <$> BufferPoolManager.page_at b' g = Some false).
Proof.
  unfold BufferPoolManager.FlushPage.
  destruct (page_id =? Page.INVALID_PAGE_ID); [discriminate|].
  destruct (BufferPoolManager.page_table_ b !! page_id) as [f|].
  - destruct (BufferPoolManager.page_at b f) as [p|] eqn:Hp; [|discriminate].
    simpl. intros [= <- Hb'].
    set (p' := Page.mk (Page.data_ p) (Page.page_id_ p) (Page.pin_count_ p) false).
    assert (Hat : ∀ g, BufferPoolManager.page_at b' g
              = BufferPoolManager.page_at (BufferPoolManager.set_page f p' b) g).
    { intros g. by rewrite <- Hb'. }
    split; [by rewrite <- Hb'|]. split; [by rewrite <- Hb'|]. intros g.
    rewrite Hat.
    destruct (page_at_in_range b f p Hp) as [Hf Hlen].
    split; [by apply (page_at_set_page_proj Page.pin_count_ b f p)|].
    split; [by apply (page_at_set_page_proj Page.data_ b f p)|].
    split.
    + destruct (decide (f = g)) as [<-|Hne].
      * by rewrite page_at_set_page_eq.
      * by rewrite page_at_set_page_ne.
    + intros [= <-]. by rewrite page_at_set_page_eq.
  - intros [= <- <-]. split; [done|]. split; [done|]. intros g.
    split; [done|]. split; [done|]. split; [done|discriminate].
Qed.

Lemma SetEvictable_nodes f flag r r' :
  LRUKReplacer.SetEvictable f flag r = Some r' →
  (∀ g, g ≠ f →
     LRUKReplacer.node_store_ r' !! g = LRUKReplacer.node_store_ r !! g)
  ∧ (∀ n, LRUKReplacer.node_store_ r' !! f = Some n →
          LRUKNode.is_evictable_ n = flag).
Proof.
  unfold LRUKReplacer.SetEvictable, LRUKNode.GetEvictable.
  destruct (LRUKReplacer.node_store_ r !! f) as [n0|] eqn:Hn; [|discriminate].
  destruct (LRUKNode.is_evictable_ n0) eqn:Hev, flag; simpl;
    intros [= <-]; simpl; (split; [intros g Hg; by rewrite ?lookup_insert_ne|]);
    intros n; rewrite ?lookup_insert_eq, ?Hn; intros [= <-]; done.
Qed.

Lemma RecordAccess_nodes f r r' g :
  LRUKReplacer.RecordAccess f r = Some r' → g ≠ f →
  LRUKReplacer.node_store_ r' !! g = LRUKReplacer.node_store_ r !! g.
Proof.
  unfold LRUKReplacer.RecordAccess.
  destruct (_ && _); [|discriminate]. intros [= <-] Hne. simpl.
  by rewrite lookup_insert_ne.
Qed.

Lemma touch_nodes f b b' :
  BufferPoolManager.touch f b = Some b' →
  BufferPoolManager.pages_ b' = BufferPoolManager.pages_ b
  ∧ (∀ g, g ≠ f →
       LRUKReplacer.node_store_ (BufferPoolManager.replacer_ b') !! g
       = LRUKReplacer.node_store_ (BufferPoolManager.replacer_ b) !! g)
  ∧ (∀ n, LRUKReplacer.node_store_ (BufferPoolManager.replacer_ b') !! f
          = Some n → LRUKNode.is_evictable_ n = false).
Proof.
  unfold BufferPoolManager.touch.
  destruct (LRUKReplacer.RecordAccess f _) as [r1|] eqn:H1; [|discriminate].
  simpl.
  destruct (LRUKReplacer.SetEvictable f false r1) as [r2|] eqn:H2;
    [|discriminate].
  simpl. intros [= <-]. simpl.
  destruct (SetEvictable_nodes _ _ _ _ H2) as [Hother Hf].
  split; [done|]. split; [|done].
  intros g Hg. rewrite Hother by done. by eapply RecordAccess_nodes.
Qed.

(** A state whose evictable frames were evictable before, with the same
    pin count. *)
Lemma evictable_unpinned_frame b b' :
  evictable_unpinned b →
  (∀ g n,
     LRUKReplacer.node_store_ (BufferPoolManager.replacer_ b') !! g = Some n →
     LRUKNode.is_evictable_ n = true →
     (∃ n0, LRUKReplacer.node_store_ (BufferPoolManager.replacer_ b) !! g
            = Some n0 ∧ LRUKNode.is_evictable_ n0 = true)
     ∧ Page.pin_count_ <$> BufferPoolManager.page_at b' g
       = Page.pin_count_ <$> BufferPoolManager.page_at b g) →
  evictable_unpinned b'.
Proof.
  intros Hinv Hstep g n Hn Hev.
  destruct (Hstep g n Hn Hev) as [(n0 & Hn0 & Hev0) ->]. by eapply Hinv.
Qed.

Lemma evictable_unpinned_FlushPage page_id b res b' :
  evictable_unpinned b →
  BufferPoolManager.FlushPage page_id b = Some (res, b') →
  evictable_unpinned b'.
Proof.
  intros Hinv Hflush.
  destruct (FlushPage_pages _ _ _ _ Hflush) as (Hrep & _ & Hpages).
  apply (evictable_unpinned_frame b b' Hinv). intros g n Hn Hev.
  rewrite Hrep in Hn. split; [by exists n|]. by destruct (Hpages g).
Qed.

Lemma evictable_unpinned_take_frame early0 b f b1 :
  evictable_unpinned b →
  BufferPoolManager.take_frame early0 b = Some (Some (f, b1)) →
  evictable_unpinned b1.
Proof.
  intros Hinv. unfold BufferPoolManager.take_frame.
  destruct (BufferPoolManager.free_list_ b) as [|f0 rest].
  - destruct (LRUKReplacer.Evict early0 _) as [[f' r]|] eqn:Hev; [|discriminate].
    destruct (Evict_known _ _ _ _ Hev) as [_ Hr].
    simpl.
    change (BufferPoolManager.page_at (BufferPoolManager.set_replacer r b) f')
      with (BufferPoolManager.page_at b f').
    destruct (BufferPoolManager.page_at b f') as [old|]; [|discriminate].
    simpl.
    set (b0 := BufferPoolManager.set_replacer r b).
    assert (Hb0 : evictable_unpinned b0).
    { apply (evictable_unpinned_frame b b0 Hinv). intros g n Hn Hgev.
      simpl in Hn. rewrite Hr in Hn. simpl in Hn.
      apply lookup_delete_Some in Hn as [_ Hn]. split; [by exists n|done]. }
    destruct (if Page.IsDirty old then _ else _) as [b2|] eqn:Hwb; [|discriminate].
    simpl. intros [= <- <-].
    assert (Hb2 : evictable_unpinned b2).
    { destruct (Page.IsDirty old).
      - destruct (BufferPoolManager.FlushPage _ b0) as [[res b2']|] eqn:Hflush;
          [|discriminate].
        simpl in Hwb. injection Hwb as ->.
        by eapply evictable_unpinned_FlushPage.
      - by injection Hwb as <-. }
    exact Hb2.
  - intros [= <- <-]. exact Hinv.
Qed.

Lemma evictable_unpinned_fill f b2 b3 p :
  evictable_unpinned b2 →
  BufferPoolManager.touch f b2 = Some b3 →
  0 <= f →
  ∀ m, evictable_unpinned
         (BufferPoolManager.set_page f p (BufferPoolManager.set_page_table m b3)).
Proof.
  intros Hinv Htouch Hf m.
  destruct (touch_nodes _ _ _ Htouch) as (Hpages & Hother & Hfix).
  apply (evictable_unpinned_frame b2 _ Hinv). intros g n Hn Hev. simpl in Hn.
  destruct (decide (g = f)) as [->|Hne].
  { rewrite (Hfix n Hn) in Hev. discriminate. }
  rewrite Hother in Hn by done. split; [by exists n|].
  rewrite page_at_set_page_ne by done.
  unfold BufferPoolManager.page_at. simpl. by rewrite Hpages.
Qed.

Lemma evictable_unpinned_NewPage early0 b res b' :
  evictable_unpinned b →
  BufferPoolManager.NewPage early0 b = Some (res, b') →
  evictable_unpinned b'.
Proof.
  intros Hinv. unfold BufferPoolManager.NewPage.
  destruct (BufferPoolManager.take_frame early0 b) as [[[f b1]|]|] eqn:Htake;
    simpl; [|by intros [= <- <-]|discriminate].
  pose proof (evictable_unpinned_take_frame _ _ _ _ Hinv Htake) as Hb1.
  match goal with
  | |- context [BufferPoolManager.touch f ?x] => set (b2 := x)
  end.
  assert (Hb2 : evictable_unpinned b2) by exact Hb1.
  destruct (BufferPoolManager.touch f b2) as [b3|] eqn:Htouch; [|discriminate].
  simpl.
  destruct (BufferPoolManager.page_at _ f) as [page|] eqn:Hpage; [|discriminate].
  simpl. intros [= <- <-].
  destruct (page_at_in_range _ _ _ Hpage) as [Hf _].
  by eapply evictable_unpinned_fill.
Qed.

Lemma evictable_unpinned_FetchPage early0 page_id b res b' :
  evictable_unpinned b →
  BufferPoolManager.FetchPage early0 page_id b = Some (res, b') →
  evictable_unpinned b'.
Proof.
  intros Hinv. unfold BufferPoolManager.FetchPage.
  destruct (BufferPoolManager.page_table_ b !! page_id) as [f|].
  - destruct (BufferPoolManager.page_at b f) as [page|] eqn:Hpage;
      [|discriminate].
    simpl.
    destruct (BufferPoolManager.touch f _) as [b1|] eqn:Htouch; [|discriminate].
    simpl. intros [= <- <-].
    destruct (touch_nodes _ _ _ Htouch) as (Hpages & Hother & Hfix).
    destruct (page_at_in_range _ _ _ Hpage) as [Hf _].
    apply (evictable_unpinned_frame b b1 Hinv). intros g n Hn Hev.
    destruct (decide (g = f)) as [->|Hne].
    { rewrite (Hfix n Hn) in Hev. discriminate. }
    rewrite Hother in Hn by done. split; [by exists n|].
    unfold BufferPoolManager.page_at at 1. rewrite Hpages.
    fold (BufferPoolManager.page_at
            (BufferPoolManager.set_page f
               (Page.mk (Page.data_ page) (Page.page_id_ page)
                  (Machine.wrap_i32 (Page.pin_count_ page + 1)) true) b) g).
    by rewrite page_at_set_page_ne.
  - destruct (BufferPoolManager.take_frame early0 b) as [[[f b1]|]|] eqn:Htake;
      simpl; [|by intros [= <- <-]|discriminate].
    pose proof (evictable_unpinned_take_frame _ _ _ _ Hinv Htake) as Hb1.
    destruct (BufferPoolManager.touch f b1) as [b2|] eqn:Htouch; [|discriminate].
    simpl.
    destruct (BufferPoolManager.page_at _ f) as [page|] eqn:Hpage; [|discriminate].
    simpl. intros [= <- <-].
    destruct (page_at_in_range _ _ _ Hpage) as [Hf _].
    by eapply evictable_unpinned_fill.
Qed.

Lemma evictable_unpinned_UnpinPage page_id is_dirty b res b' :
  evictable_unpinned b →
  BufferPoolManager.UnpinPage page_id is_dirty b = Some (res, b') →
  evictable_unpinned b'.
Proof.
  intros Hinv. unfold BufferPoolManager.UnpinPage.
  destruct (BufferPoolManager.page_table_ b !! page_id) as [f|];
    [|by intros [= <- <-]].
  destruct (BufferPoolManager.page_at b f) as [page|] eqn:Hpage; [|discriminate].
  simpl. destruct (Page.GetPinCount page <=? 0); [by intros [= <- <-]|].
  destruct (LRUKReplacer.SetEvictable f _ _) as [r|] eqn:Hset; [|discriminate].
  simpl. intros [= <- <-].
  destruct (SetEvictable_nodes _ _ _ _ Hset) as [Hother Hfix].
  destruct (page_at_in_range _ _ _ Hpage) as [Hf Hlen].
  intros g n Hn Hev. simpl in Hn.
  destruct (decide (g = f)) as [->|Hne].
  - rewrite page_at_set_page_eq by done. simpl.
    rewrite (Hfix n Hn) in Hev. apply Z.eqb_eq in Hev. by rewrite Hev.
  - rewrite page_at_set_page_ne by done.
    rewrite Hother in Hn by done. by apply (Hinv g n).
Qed.

Lemma evictable_unpinned_DeletePage page_id b res b' :
  evictable_unpinned b →
  BufferPoolManager.DeletePage page_id b = Some (res, b') →
  evictable_unpinned b'.
Proof.
  intros Hinv. unfold BufferPoolManager.DeletePage.
  destruct (BufferPoolManager.page_table_ b !! page_id) as [f|];
    [|by intros [= <- <-]].
  destruct (BufferPoolManager.page_at b f) as [page|] eqn:Hpage; [|discriminate].
  simpl. destruct (0 <? Page.GetPinCount page); [by intros [= <- <-]|].
  destruct (if Page.is_dirty_ page then _ else _) as [b1|] eqn:Hwb;
    [|discriminate].
  simpl.
  assert (Hb1 : evictable_unpinned b1).
  { destruct (Page.is_dirty_ page).
    - destruct (BufferPoolManager.FlushPage page_id b) as [[r0 b1']|] eqn:Hflush;
        [|discriminate].
      simpl in Hwb. injection Hwb as ->.
      by eapply evictable_unpinned_FlushPage.
    - by injection Hwb as <-. }
  destruct (BufferPoolManager.page_at b1 f) as [page1|] eqn:Hpage1;
    [|discriminate].
  simpl.
  destruct (LRUKReplacer.Remove f _) as [r|] eqn:Hrem; [|discriminate].
  simpl. intros [= <- <-].
  apply (evictable_unpinned_frame b1 _ Hb1). intros g n Hn Hev. simpl in Hn.
  assert (Hn1 : LRUKReplacer.node_store_ (BufferPoolManager.replacer_ b1) !! g
                = Some n).
  { revert Hrem Hn. unfold LRUKReplacer.Remove. simpl.
    destruct (LRUKReplacer.node_store_ (BufferPoolManager.replacer_ b1) !! f);
      [|by intros [= <-]].
    destruct (negb _); [discriminate|]. intros [= <-]. simpl.
    by intros [_ ?]%lookup_delete_Some. }
  split; [by exists n|].
  change (BufferPoolManager.page_at _ g) with
    (BufferPoolManager.page_at
       (BufferPoolManager.set_page f (Page.ResetMemory page1) b1) g) at 1.
  by apply (page_at_set_page_proj Page.pin_count_ b1 f page1).
Qed.

Lemma evictable_unpinned_run o b b' :
  evictable_unpinned b → bpm_run o b = Some b' → evictable_unpinned b'.
Proof.
  intros Hinv Hrun. destruct o as [e|e pid|pid d|pid|pid]; simpl in Hrun.
  - destruct (BufferPoolManager.NewPage e b) as [[res b1]|] eqn:Hop;
      [|discriminate].
    injection Hrun as <-. by eapply evictable_unpinned_NewPage.
  - destruct (BufferPoolManager.FetchPage e pid b) as [[res b1]|] eqn:Hop;
      [|discriminate].
    injection Hrun as <-. by eapply evictable_unpinned_FetchPage.
  - destruct (BufferPoolManager.UnpinPage pid d b) as [[res b1]|] eqn:Hop;
      [|discriminate].
    injection Hrun as <-. by eapply evictable_unpinned_UnpinPage.
  - destruct (BufferPoolManager.FlushPage pid b) as [[res b1]|] eqn:Hop;
      [|discriminate].
    injection Hrun as <-. by eapply evictable_unpinned_FlushPage.
  - destruct (BufferPoolManager.DeletePage pid b) as [[res b1]|] eqn:Hop;
      [|discriminate].
    injection Hrun as <-. by eapply evictable_unpinned_DeletePage.
Qed.

(** X9.  A pinned page is never chosen for eviction.  In every state
    that calls of [NewPage], [FetchPage], [UnpinPage], [FlushPage] and
    [DeletePage] lead to from a new pool, each frame that the replacer
    holds as evictable has pin count 0; so the frame that [Evict] returns
    there, whatever the unassigned local holds, has pin count 0. *)
Theorem Evict_victim_unpinned pool_size disk_manager replacer_k b :
  bpm_reachable (BufferPoolManager.new pool_size disk_manager replacer_k) b →
  evictable_unpinned b
  ∧ ∀ early0 f r',
      LRUKReplacer.Evict early0 (BufferPoolManager.replacer_ b) = Some (f, r') →
      Page.pin_count_ <$> BufferPoolManager.page_at b f = Some 0.
Proof.
  intros Hreach.
  assert (Hinv : evictable_unpinned b).
  { induction Hreach as [|o b b' _ IH Hrun].
    - intros f n Hn. simpl in Hn. by rewrite lookup_empty in Hn.
    - by eapply evictable_unpinned_run. }
  split; [done|]. intros early0 f r' Hev.
  destruct (Evict_known _ _ _ _ Hev) as [(n & Hn & Hnev) _].
  by apply (Hinv f n).
Qed.

Lemma Evict_victim_unpinned_witness :
  match bpm_run_all [OpNewPage 0; OpNewPage 0; OpUnpinPage 1 false]
          (BufferPoolManager.new 2 empty_disk 2) with
  | Some b =>
      LRUKReplacer.Evict 0 (BufferPoolManager.replacer_ b)
      = Some (1, LRUKReplacer.mk
                   (delete 1 (LRUKReplacer.node_store_ (BufferPoolManager.replacer_ b)))
                   2 0 2 2)
      ∧ Page.pin_count_ <$> BufferPoolManager.page_at b 1 = Some 0
  | None => False
  end.
Proof.
  destruct (bpm_run_all _ _) as [b|] eqn:Hrun.
  - assert (Hev : LRUKReplacer.Evict 0 (BufferPoolManager.replacer_ b)
      = Some (1, LRUKReplacer.mk
                   (delete 1 (LRUKReplacer.node_store_ (BufferPoolManager.replacer_ b)))
                   2 0 2 2)).
    { vm_compute in Hrun. injection Hrun as <-. vm_compute. reflexivity. }
    split; [exact Hev|].
    refine (proj2 (Evict_victim_unpinned 2 empty_disk 2 b _) 0 1 _ Hev).
    eapply bpm_run_all_reachable; [apply bpm_reachable_start|exact Hrun].
  - vm_compute in Hrun. discriminate Hrun.
Defined.

(** *** The frame table in the states without page id collisions *)

Lemma bpm_inv_reachable_fresh pool_size disk_manager replacer_k b :
  bpm_reachable_fresh
    (BufferPoolManager.new pool_size disk_manager replacer_k) b →
  bpm_inv None b.
Proof.
  intros Hreach. induction Hreach as [|o b b' _ IH Hfresh Hrun].
  - apply bpm_inv_new.
  - by eapply bpm_inv_run.
Qed.

(** X10.  The frame table names each resident page once.  In the states
    reached from a new pool without a [NewPage] that hands out the id of
    a resident page, every entry of the frame table leads to a frame of
    the pool whose page carries the entry's page id and that is not on
    the free list, no frame is entered under two page ids, and no frame
    is twice on the free list. *)
Theorem page_table_names_each_page_once pool_size disk_manager replacer_k b :
  bpm_reachable_fresh
    (BufferPoolManager.new pool_size disk_manager replacer_k) b →
  (∀ page_id frame_id,
     BufferPoolManager.page_table_ b !! page_id = Some frame_id →
     0 <= frame_id < BufferPoolManager.pool_size_ b
     ∧ Page.page_id_ <$> BufferPoolManager.page_at b frame_id = Some page_id
     ∧ frame_id ∉ BufferPoolManager.free_list_ b)
  ∧ (∀ page_id1 page_id2 frame_id,
       BufferPoolManager.page_table_ b !! page_id1 = Some frame_id →
       BufferPoolManager.page_table_ b !! page_id2 = Some frame_id →
       page_id1 = page_id2)
  ∧ NoDup (BufferPoolManager.free_list_ b).
Proof.
  intros Hreach.
  destruct (bpm_inv_reachable_fresh _ _ _ _ Hreach) as [I1 I2 I3 I4 I5 I6 I7].
  split; [|split; [|done]].
  - intros pid f Hf. destruct (I4 pid f Hf) as (? & ? & _ & ?). done.
  - intros pid1 pid2 f H1 H2.
    destruct (I4 pid1 f H1) as (_ & _ & _ & Hid1).
    destruct (I4 pid2 f H2) as (_ & _ & _ & Hid2).
    congruence.
Qed.

Lemma page_table_names_each_page_once_witness :
  match bpm_run_fresh bpm_scenario_1 (BufferPoolManager.new 3 empty_disk 2) with
  | Some b =>
      NoDup (BufferPoolManager.free_list_ b)
      ∧ ∀ page_id1 page_id2 frame_id,
          BufferPoolManager.page_table_ b !! page_id1 = Some frame_id →
          BufferPoolManager.page_table_ b !! page_id2 = Some frame_id →
          page_id1 = page_id2
  | None => False
  end.
Proof.
  destruct (bpm_run_fresh bpm_scenario_1 (BufferPoolManager.new 3 empty_disk 2))
    as [b|] eqn:Hrun.
  - destruct (page_table_names_each_page_once 3 empty_disk 2 b)
      as (_ & Hinj & Hnodup).
    + eapply bpm_run_fresh_reachable; [apply bpm_fresh_start|exact Hrun].
    + split; [exact Hnodup|exact Hinj].
  - vm_compute in Hrun. discriminate Hrun.
Defined.

(** *** Writing pages back *)






(** X12.  [DeletePage] takes a page out of the pool unless it is pinned.
    In the states reached from a new pool without a page id collision, a
    call that returns [true] leaves the page id out of the frame table
    and the other entries as they were, and the frame of a page that was
    resident is at the back of the free list; a call that returns
    [false] changes nothing, and the page is resident with a positive pin
    count. *)
Theorem DeletePage_unmaps pool_size disk_manager replacer_k b page_id res b' :
  bpm_reachable_fresh
    (BufferPoolManager.new pool_size disk_manager replacer_k) b →
  BufferPoolManager.DeletePage page_id b = Some (res, b') →
  (res = true →
     BufferPoolManager.page_table_ b' !! page_id = None
     ∧ (∀ other, other ≠ page_id →
          BufferPoolManager.page_table_ b' !! other
          = BufferPoolManager.page_table_ b !! other)
     ∧ ∀ f, BufferPoolManager.page_table_ b !! page_id = Some f →
            BufferPoolManager.free_list_ b'
            = BufferPoolManager.free_list_ b ++ [f])
  ∧ (res = false →
       b' = b
       ∧ ∃ f p, BufferPoolManager.page_table_ b !! page_id = Some f
                ∧ BufferPoolManager.page_at b f = Some p
                ∧ 0 < Page.pin_count_ p).
Proof.
  intros Hreach.
  destruct (bpm_inv_reachable_fresh _ _ _ _ Hreach) as [I1 I2 I3 I4 I5 I6 I7].
  unfold BufferPoolManager.DeletePage.
  destruct (BufferPoolManager.page_table_ b !! page_id) as [f|] eqn:Hf.
  2:{ intros [= <- <-]. split; [|discriminate]. intros _.
      split; [done|]. split; [done|]. intros f Hx. discriminate Hx. }
  destruct (I4 page_id f Hf) as (_ & _ & _ & Hid).
  destruct (BufferPoolManager.page_at b f) as [page|] eqn:Hpage; [|discriminate].
  simpl in Hid. injection Hid as Hid. simpl.
  unfold Page.GetPinCount.
  destruct (Z.ltb_spec 0 (Page.pin_count_ page)) as [Hpin|Hpin].
  { intros [= <- <-]. split; [discriminate|]. intros _. split; [done|].
    by exists f, page. }
  destruct (if Page.is_dirty_ page then _ else _) as [b1|] eqn:Hwb;
    [|discriminate].
  simpl.
  assert (Hb1 : BufferPoolManager.page_table_ b1 = BufferPoolManager.page_table_ b
                ∧ BufferPoolManager.free_list_ b1 = BufferPoolManager.free_list_ b
                ∧ Page.page_id_ <$> BufferPoolManager.page_at b1 f = Some page_id).
  { destruct (Page.is_dirty_ page).
    - destruct (BufferPoolManager.FlushPage page_id b) as [[r0 b1']|] eqn:Hflush;
        [|discriminate].
      simpl in Hwb. injection Hwb as ->.
      destruct (FlushPage_frame _ _ _ _ Hflush) as (_ & _ & _ & ? & ? & _ & Hids).
      split; [done|]. split; [done|]. by rewrite Hids, Hpage, <- Hid.
    - injection Hwb as <-. by rewrite Hpage, <- Hid. }
  destruct Hb1 as (Htable1 & Hfree1 & Hid1).
  destruct (BufferPoolManager.page_at b1 f) as [page1|] eqn:Hpage1;
    [|discriminate].
  simpl in Hid1. injection Hid1 as Hid1. simpl.
  destruct (LRUKReplacer.Remove f _) as [r|] eqn:Hrem; [|discriminate].
  simpl. intros [= <- <-]. split; [|discriminate]. intros _. simpl.
  unfold Page.GetPageId. rewrite Hid1, Htable1, Hfree1.
  split; [apply lookup_delete_eq|]. split.
  - intros other Hne. by apply lookup_delete_ne.
  - by intros f' [= <-].
Qed.

Lemma DeletePage_unmaps_witness :
  match bpm_run_fresh [OpNewPage 0; OpUnpinPage 0 true]
          (BufferPoolManager.new 2 empty_disk 2) with
  | Some b =>
      match BufferPoolManager.DeletePage 0 b with
      | Some (res, b') =>
          res = true ∧ BufferPoolManager.page_table_ b' !! 0 = None
      | None => False
      end
  | None => False
  end.
Proof.
  destruct (bpm_run_fresh _ _) as [b|] eqn:Hrun;
    [|vm_compute in Hrun; discriminate Hrun].
  destruct (BufferPoolManager.DeletePage 0 b) as [[res b']|] eqn:Hdel.
  - assert (Hres : res = true).
    { vm_compute in Hrun. injection Hrun as <-. vm_compute in Hdel.
      by injection Hdel as <- _. }
    split; [exact Hres|].
    refine (proj1 (proj1 (DeletePage_unmaps 2 empty_disk 2 b 0 res b' _ Hdel) Hres)).
    eapply bpm_run_fresh_reachable; [apply bpm_fresh_start|exact Hrun].
  - vm_compute in Hrun. injection Hrun as <-. vm_compute in Hdel.
    discriminate Hdel.
Defined.

(** *** Write-back on eviction *)





(** *** What [NewPage] returns *)

Lemma take_frame_next_page_id early0 b f b1 :
  BufferPoolManager.take_frame early0 b = Some (Some (f, b1)) →
  BufferPoolManager.next_page_id_ b1 = BufferPoolManager.next_page_id_ b.
Proof.
  unfold BufferPoolManager.take_frame.
  destruct (BufferPoolManager.free_list_ b) as [|f0 rest];
    [|by intros [= <- <-]].
  destruct (LRUKReplacer.Evict early0 _) as [[f' r]|]; [|discriminate].
  cbn [mbind option_bind].
  change (BufferPoolManager.page_at (BufferPoolManager.set_replacer r b) f')
    with (BufferPoolManager.page_at b f').
  destruct (BufferPoolManager.page_at b f') as [old|]; [|discriminate].
  cbn [mbind option_bind].
  destruct (Page.IsDirty old).
  - destruct (BufferPoolManager.FlushPage _ _) as [[res b2]|] eqn:Hflush;
      [|discriminate].
    cbn [fmap option_fmap option_map mbind option_bind snd].
    intros [= <- <-].
    destruct (FlushPage_frame _ _ _ _ Hflush) as (_ & Hn & _). exact Hn.
  - cbn [mbind option_bind]. by intros [= <- <-].
Qed.

(** X14.  [NewPage] hands out the next page id with a zeroed, pinned
    page.  In every state, a call that returns a page gives it the id
    that [next_page_id_] held and moves the counter on by one; the frame
    then holds a page of zeros with that id, pin count 1 and no dirty
    mark, the frame table has the id on this frame, and the replacer
    does not hold the frame as evictable.  A call that returns no page
    changes nothing; the free list was empty and [Evict] had failed. *)
Theorem NewPage_hands_out_zeroed_page early0 b res b' :
  BufferPoolManager.NewPage early0 b = Some (res, b') →
  match res with
  | Some (frame_id, page_id) =>
      page_id = BufferPoolManager.next_page_id_ b
      ∧ BufferPoolManager.next_page_id_ b' = Machine.wrap_i32 (page_id + 1)
      ∧ BufferPoolManager.page_at b' frame_id
        = Some (Page.mk (DiskManager.zeros DiskManager.BUSTUB_PAGE_SIZE)
                  page_id 1 false)
      ∧ BufferPoolManager.page_table_ b' !! page_id = Some frame_id
      ∧ ∀ n, LRUKReplacer.node_store_ (BufferPoolManager.replacer_ b')
               !! frame_id = Some n →
             LRUKNode.is_evictable_ n = false
  | None =>
      b' = b
      ∧ BufferPoolManager.free_list_ b = []
      ∧ LRUKReplacer.Evict early0 (BufferPoolManager.replacer_ b) = None
  end.
Proof.
  unfold BufferPoolManager.NewPage.
  destruct (BufferPoolManager.take_frame early0 b) as [[[f b1]|]|] eqn:Htake;
    cbn [mbind option_bind]; [| |discriminate].
  - pose proof (take_frame_next_page_id _ _ _ _ Htake) as Hnext.
    cbn [BufferPoolManager.AllocatePage].
    destruct (BufferPoolManager.touch f _) as [b3|] eqn:Htouch; [|discriminate].
    cbn [mbind option_bind].
    destruct (BufferPoolManager.page_at (BufferPoolManager.set_page_table _ _) f)
      as [page|] eqn:Hpage; [|discriminate].
    cbn [mbind option_bind]. intros [= <- <-].
    destruct (touch_known _ _ _ Htouch) as (_ & Hnext3 & _).
    destruct (touch_nodes _ _ _ Htouch) as (_ & _ & Hfix).
    destruct (page_at_in_range _ _ _ Hpage) as [Hf Hlen].
    split; [by rewrite Hnext|].
    split; [simpl; rewrite Hnext3; simpl; by rewrite Hnext|].
    split; [by rewrite page_at_set_page_eq|].
    split; [simpl; by rewrite lookup_insert_eq|].
    exact Hfix.
  - intros [= <- <-]. split; [done|].
    revert Htake. unfold BufferPoolManager.take_frame.
    destruct (BufferPoolManager.free_list_ b) as [|f0 rest]; [|discriminate].
    destruct (LRUKReplacer.Evict early0 _) as [[f' r]|]; [|done].
    cbn [mbind option_bind].
    destruct (BufferPoolManager.page_at _ f') as [old|]; [|discriminate].
    cbn [mbind option_bind].
    destruct (if Page.IsDirty old then _ else _); discriminate.
Qed.

Lemma NewPage_hands_out_zeroed_page_witness :
  match BufferPoolManager.NewPage 0 (BufferPoolManager.new 2 empty_disk 2) with
  | Some (Some (frame_id, page_id), b') =>
      page_id = 0 ∧ BufferPoolManager.next_page_id_ b' = 1
  | _ => False
  end.
Proof.
  destruct (BufferPoolManager.NewPage 0 (BufferPoolManager.new 2 empty_disk 2))
    as [[[[f pid]|] b']|] eqn:Hnew.
  - destruct (NewPage_hands_out_zeroed_page _ _ _ _ Hnew) as (Hpid & Hnext & _).
    split; [exact Hpid|]. rewrite Hnext, Hpid. reflexivity.
  - vm_compute in Hnew. discriminate Hnew.
  - vm_compute in Hnew. discriminate Hnew.
Defined.

(** ** Page guards *)

Lemma SetEvictable_returns f flag r :
  is_Some (LRUKReplacer.node_store_ r !! f) →
  ∃ r', LRUKReplacer.SetEvictable f flag r = Some r'
        ∧ is_Some (LRUKReplacer.node_store_ r' !! f).
Proof.
  intros [n Hn]. unfold LRUKReplacer.SetEvictable. rewrite Hn.
  repeat case_match; eexists; (split; [reflexivity|]); simpl;
    rewrite ?lookup_insert_eq, ?Hn; by eexists.
Qed.

Lemma touch_node f b b' :
  BufferPoolManager.touch f b = Some b' →
  BufferPoolManager.page_table_ b' = BufferPoolManager.page_table_ b
  ∧ is_Some (LRUKReplacer.node_store_ (BufferPoolManager.replacer_ b') !! f).
Proof.
  unfold BufferPoolManager.touch.
  destruct (LRUKReplacer.RecordAccess f _) as [r1|] eqn:H1; [|discriminate].
  simpl.
  assert (Hn1 : is_Some (LRUKReplacer.node_store_ r1 !! f)).
  { revert H1. unfold LRUKReplacer.RecordAccess.
    destruct (_ && _); [|discriminate]. intros [= <-]. simpl.
    rewrite lookup_insert_eq. by eexists. }
  destruct (SetEvictable_returns f false r1 Hn1) as (r2 & -> & Hn2).
  simpl. intros [= <-]. by split.
Qed.

(** X15.  A guard gives back the pin it holds.  For a resident page
    whose pin count is not at the top of the [int] range,
    [FetchPageBasic] pins the page once more and returns a guard on its
    frame; [Drop] on that guard returns, the pin count is what it was
    before the fetch, the replacer holds the frame as evictable exactly
    if that count is 0, the guard no longer refers to a page, and a
    second [Drop] changes nothing. *)
Theorem Drop_gives_back_the_pin early0 page_id b f p g b1 :
  BufferPoolManager.page_table_ b !! page_id = Some f →
  BufferPoolManager.page_at b f = Some p →
  Page.page_id_ p = page_id →
  0 <= Page.pin_count_ p < Machine.INT32_MAX →
  BasicPageGuard.FetchPageBasic early0 page_id b = Some (g, b1) →
  BasicPageGuard.page_ g = Some f
  ∧ Page.pin_count_ <$> BufferPoolManager.page_at b1 f
    = Some (Page.pin_count_ p + 1)
  ∧ ∃ g' b2,
      BasicPageGuard.Drop g b1 = Some (g', b2)
      ∧ BasicPageGuard.page_ g' = None
      ∧ Page.pin_count_ <$> BufferPoolManager.page_at b2 f
        = Some (Page.pin_count_ p)
      ∧ (∀ n, LRUKReplacer.node_store_ (BufferPoolManager.replacer_ b2) !! f
              = Some n →
              LRUKNode.is_evictable_ n = (Page.pin_count_ p =? 0))
      ∧ BasicPageGuard.Drop g' b2 = Some (g', b2).
Proof.
  intros Hf Hp Hid Hpin.
  unfold BasicPageGuard.FetchPageBasic, BufferPoolManager.FetchPage.
  rewrite Hf, Hp. simpl.
  rewrite wrap_i32_small by (unfold Machine.INT32_MAX in *; lia).
  set (page' := Page.mk (Page.data_ p) (Page.page_id_ p)
                  (Page.pin_count_ p + 1) true).
  destruct (BufferPoolManager.touch f _) as [b1'|] eqn:Htouch; [|discriminate].
  simpl. intros [= <- <-].
  destruct (page_at_in_range _ _ _ Hp) as [Hf0 Hlen].
  destruct (touch_nodes _ _ _ Htouch) as (Hpages & _).
  destruct (touch_node _ _ _ Htouch) as (Htable & Hnode).
  assert (Hp1 : BufferPoolManager.page_at b1' f = Some page').
  { unfold BufferPoolManager.page_at. rewrite Hpages.
    by apply (page_at_set_page_eq b f page'). }
  split; [done|]. split; [by rewrite Hp1|].
  destruct (SetEvictable_returns f (Page.pin_count_ p =? 0)
              (BufferPoolManager.replacer_ b1') Hnode) as (r & Hset & _).
  unfold BasicPageGuard.Drop. simpl. rewrite Hp1. simpl.
  destruct (Z.leb_spec (Page.pin_count_ p + 1) 0) as [?|_]; [lia|].
  unfold BufferPoolManager.UnpinPage, Page.GetPageId. simpl.
  rewrite Htable. simpl. rewrite Hid, Hf, Hp1. simpl.
  destruct (Z.leb_spec (Page.pin_count_ p + 1) 0) as [?|_]; [lia|].
  replace (Page.pin_count_ p + 1 - 1) with (Page.pin_count_ p) by lia.
  rewrite wrap_i32_small by (unfold Machine.INT32_MAX in *; lia).
  rewrite Hset. simpl.
  eexists _, _. split; [reflexivity|]. simpl. split; [done|].
  assert (Hlen1 : (Z.to_nat f < length (BufferPoolManager.pages_ b1'))%nat).
  { rewrite Hpages. simpl. by rewrite length_insert. }
  split; [|split; [|done]].
  - rewrite (page_at_set_page_eq (BufferPoolManager.set_replacer r b1')) by done.
    done.
  - intros n Hn. by apply (SetEvictable_nodes _ _ _ _ Hset).
Qed.

Lemma Drop_gives_back_the_pin_witness :
  match bpm_run_all [OpNewPage 0; OpUnpinPage 0 false]
          (BufferPoolManager.new 2 empty_disk 2) with
  | Some b =>
      match BasicPageGuard.FetchPageBasic 0 0 b with
      | Some (g, b1) =>
          ∃ g' b2, BasicPageGuard.Drop g b1 = Some (g', b2)
                   ∧ Page.pin_count_ <$> BufferPoolManager.page_at b2 0 = Some 0
      | None => False
      end
  | None => False
  end.
Proof.
  destruct (bpm_run_all _ _) as [b|] eqn:Hrun;
    [|vm_compute in Hrun; discriminate Hrun].
  assert (Htable : BufferPoolManager.page_table_ b !! 0 = Some 0).
  { vm_compute in Hrun. by injection Hrun as <-. }
  assert (Hpage : BufferPoolManager.page_at b 0
            = Some (Page.mk (DiskManager.zeros DiskManager.BUSTUB_PAGE_SIZE)
                      0 0 false)).
  { vm_compute in Hrun. by injection Hrun as <-. }
  destruct (BasicPageGuard.FetchPageBasic 0 0 b) as [[g b1]|] eqn:Hfetch.
  - destruct (Drop_gives_back_the_pin 0 0 b 0 _ g b1 Htable Hpage)
      as (_ & _ & g' & b2 & Hdrop & _ & Hpin & _).
    + reflexivity.
    + simpl. unfold Machine.INT32_MAX. lia.
    + exact Hfetch.
    + exists g', b2. split; [exact Hdrop|exact Hpin].
  - vm_compute in Hrun. injection Hrun as <-. vm_compute in Hfetch.
    discriminate Hfetch.
Defined.

(** ** Header and directory pages: indices *)



Lemma land_mask hash g : 0 <= g → Z.land hash (2 ^ g - 1) = hash mod 2 ^ g.
Proof.
  intros Hg. rewrite <- Z.land_ones by done. f_equal.
  rewrite Z.ones_equiv. lia.
Qed.

(** X17.  The bucket index lies within the directory: whenever [Size]
    is defined, [HashToBucketIndex] returns the hash modulo [Size],
    for every integer taken as hash. *)
Theorem HashToBucketIndex_in_range d hash n :
  ExtendibleHTableDirectoryPage.Size d = Some n →
  ∃ i, ExtendibleHTableDirectoryPage.HashToBucketIndex d hash = Some i
       ∧ i = hash mod n
       ∧ 0 <= i < n.
Proof.
  unfold ExtendibleHTableDirectoryPage.Size,
    ExtendibleHTableDirectoryPage.HashToBucketIndex,
    ExtendibleHTableDirectoryPage.GetGlobalDepthMask, Machine.shl1.
  destruct (Z.leb_spec 0 (ExtendibleHTableDirectoryPage.global_depth_ d));
    [|discriminate].
  destruct (Z.ltb_spec (ExtendibleHTableDirectoryPage.global_depth_ d) 31);
    [|discriminate].
  simpl. intros [= <-]. eexists. split; [reflexivity|].
  rewrite land_mask by done. split; [done|].
  apply Z.mod_pos_bound. lia.
Qed.

Lemma HashToBucketIndex_in_range_witness :
  ∃ i, ExtendibleHTableDirectoryPage.HashToBucketIndex
         (ExtendibleHTableDirectoryPage.mk 3 2 [] []) 13 = Some i
       ∧ i = 13 mod 4
       ∧ 0 <= i < 4.
Proof.
  apply (HashToBucketIndex_in_range
           (ExtendibleHTableDirectoryPage.mk 3 2 [] []) 13 4).
  reflexivity.
Defined.

(** *** Doubling the directory *)

Lemma cell_set_cell a idx v a' i :
  ExtendibleHTableDirectoryPage.set_cell a idx v = Some a' →
  ExtendibleHTableDirectoryPage.cell a' i
  = if decide (i = idx) then Some v
    else ExtendibleHTableDirectoryPage.cell a i.
Proof.
  unfold ExtendibleHTableDirectoryPage.set_cell,
    ExtendibleHTableDirectoryPage.cell.
  destruct (Z.leb_spec 0 idx); [|discriminate].
  destruct (Z.ltb_spec idx (Z.of_nat (length a))); [|discriminate].
  simpl. intros [= <-].
  destruct (decide (i = idx)) as [->|Hne].
  - destruct (Z.ltb_spec idx 0); [lia|]. apply list_lookup_insert_eq. lia.
  - destruct (Z.ltb_spec i 0); [done|]. apply list_lookup_insert_ne. lia.
Qed.

Lemma cell_in_range a idx :
  0 <= idx < Z.of_nat (length a) →
  ∃ v, ExtendibleHTableDirectoryPage.cell a idx = Some v.
Proof.
  intros Hidx. unfold ExtendibleHTableDirectoryPage.cell.
  destruct (Z.ltb_spec idx 0); [lia|].
  apply lookup_lt_is_Some. lia.
Qed.

Lemma set_cell_in_range a idx v :
  0 <= idx < Z.of_nat (length a) →
  ∃ a', ExtendibleHTableDirectoryPage.set_cell a idx v = Some a'
        ∧ length a' = length a.
Proof.
  intros Hidx. unfold ExtendibleHTableDirectoryPage.set_cell.
  destruct (Z.leb_spec 0 idx); [|lia].
  destruct (Z.ltb_spec idx (Z.of_nat (length a))); [|lia].
  simpl. eexists. split; [reflexivity|]. apply length_insert.
Qed.

(** The copy loop from its [j]-th iteration on: it returns, and the
    cells from [half + j] up to the limit hold what the cells [half]
    below them hold. *)
Lemma IncrGlobalDepth_loop_copies (k : nat) : ∀ fuel half j d,
  (k <= fuel)%nat → 0 <= j → half = j + Z.of_nat k →
  2 * half <= 2 ^ 31 →
  2 * half <= Z.of_nat (length (ExtendibleHTableDirectoryPage.bucket_page_ids_ d)) →
  2 * half <= Z.of_nat (length (ExtendibleHTableDirectoryPage.local_depths_ d)) →
  ∃ d',
    ExtendibleHTableDirectoryPage.IncrGlobalDepth_loop fuel (2 * half) j
      (half + j) d = Some d'
    ∧ ExtendibleHTableDirectoryPage.global_depth_ d'
      = ExtendibleHTableDirectoryPage.global_depth_ d
    ∧ ExtendibleHTableDirectoryPage.max_depth_ d'
      = ExtendibleHTableDirectoryPage.max_depth_ d
    ∧ ∀ i,
        ExtendibleHTableDirectoryPage.cell
          (ExtendibleHTableDirectoryPage.bucket_page_ids_ d') i
        = ExtendibleHTableDirectoryPage.cell
            (ExtendibleHTableDirectoryPage.bucket_page_ids_ d)
            (if decide (half + j <= i < 2 * half) then i - half else i)
        ∧ ExtendibleHTableDirectoryPage.cell
            (ExtendibleHTableDirectoryPage.local_depths_ d') i
          = ExtendibleHTableDirectoryPage.cell
              (ExtendibleHTableDirectoryPage.local_depths_ d)
              (if decide (half + j <= i < 2 * half) then i - half else i).
Proof.
  induction k as [|k IH]; intros fuel half j d Hfuel Hj Hhalf Hmax Hids Hlds.
  - assert (half = j) as -> by lia. exists d.
    split.
    { destruct fuel; simpl;
        (destruct (Z.ltb_spec (j + j) (2 * j)) as [?|_]; [lia|done]). }
    split; [done|]. split; [done|]. intros i.
    destruct (decide _) as [?|_]; [lia|done].
  - destruct fuel as [|fuel]; [lia|]. simpl.
    destruct (Z.ltb_spec (half + j) (2 * half)) as [_|?]; [|lia].
    destruct (cell_in_range
                (ExtendibleHTableDirectoryPage.bucket_page_ids_ d) j)
      as [id Hid]; [lia|].
    destruct (set_cell_in_range
                (ExtendibleHTableDirectoryPage.bucket_page_ids_ d) (half + j) id)
      as (ids & Hset_ids & Hlen_ids); [lia|].
    destruct (cell_in_range
                (ExtendibleHTableDirectoryPage.local_depths_ d) j)
      as [ld Hld]; [lia|].
    destruct (set_cell_in_range
                (ExtendibleHTableDirectoryPage.local_depths_ d) (half + j) ld)
      as (lds & Hset_lds & Hlen_lds); [lia|].
    rewrite Hid. simpl. rewrite Hset_ids. simpl. rewrite Hld. simpl.
    rewrite Hset_lds. simpl.
    unfold Machine.wrap_u32.
    rewrite !Z.mod_small by lia.
    replace (half + j + 1) with (half + (j + 1)) by lia.
    destruct (IH fuel half (j + 1)
                (ExtendibleHTableDirectoryPage.mk
                   (ExtendibleHTableDirectoryPage.max_depth_ d)
                   (ExtendibleHTableDirectoryPage.global_depth_ d) lds ids))
      as (d' & Hloop & Hg & Hm & Hcells); simpl; try lia.
    exists d'. split; [exact Hloop|]. split; [done|]. split; [done|].
    intros i. destruct (Hcells i) as [Hc1 Hc2]. simpl in Hc1, Hc2.
    rewrite Hc1, Hc2.
    rewrite (cell_set_cell _ _ _ _ _ Hset_ids), (cell_set_cell _ _ _ _ _ Hset_lds).
    destruct (decide (half + (j + 1) <= i < 2 * half)) as [Hin|Hout].
    + destruct (decide (i - half = half + j)) as [?|_]; [lia|].
      destruct (decide (half + j <= i < 2 * half)) as [_|?]; [done|lia].
    + destruct (decide (i = half + j)) as [->|Hne].
      * destruct (decide (half + j <= half + j < 2 * half)) as [_|?]; [|lia].
        replace (half + j - half) with j by lia. by rewrite Hid, Hld.
      * destruct (decide (half + j <= i < 2 * half)) as [?|_]; [lia|done].
Qed.

(** [IncrGlobalDepth] cell by cell: the upper half of the doubled
    directory holds what the lower half holds. *)
Lemma IncrGlobalDepth_cells d :
  let g := ExtendibleHTableDirectoryPage.global_depth_ d in
  0 <= g < 30 →
  2 ^ (g + 1)
    <= Z.of_nat (length (ExtendibleHTableDirectoryPage.bucket_page_ids_ d)) →
  2 ^ (g + 1)
    <= Z.of_nat (length (ExtendibleHTableDirectoryPage.local_depths_ d)) →
  ∃ d',
    ExtendibleHTableDirectoryPage.IncrGlobalDepth d = Some d'
    ∧ ExtendibleHTableDirectoryPage.global_depth_ d' = g + 1
    ∧ ExtendibleHTableDirectoryPage.max_depth_ d'
      = ExtendibleHTableDirectoryPage.max_depth_ d
    ∧ ∀ i,
        ExtendibleHTableDirectoryPage.cell
          (ExtendibleHTableDirectoryPage.bucket_page_ids_ d') i
        = ExtendibleHTableDirectoryPage.cell
            (ExtendibleHTableDirectoryPage.bucket_page_ids_ d)
            (if decide (2 ^ g <= i < 2 ^ (g + 1)) then i - 2 ^ g else i)
        ∧ ExtendibleHTableDirectoryPage.cell
            (ExtendibleHTableDirectoryPage.local_depths_ d') i
          = ExtendibleHTableDirectoryPage.cell
              (ExtendibleHTableDirectoryPage.local_depths_ d)
              (if decide (2 ^ g <= i < 2 ^ (g + 1)) then i - 2 ^ g else i).
Proof.
  intros g Hg Hids Hlds.
  assert (Hpow : 2 ^ (g + 1) = 2 * 2 ^ g) by (rewrite Z.pow_add_r; lia).
  assert (Hpos : 0 < 2 ^ g) by (apply Z.pow_pos_nonneg; lia).
  assert (Hle : 2 ^ (g + 1) <= 2 ^ 31) by (apply Z.pow_le_mono_r; lia).
  unfold ExtendibleHTableDirectoryPage.IncrGlobalDepth. fold g.
  unfold Machine.wrap_u32. rewrite Z.mod_small by lia.
  replace (g + 1 - 1) with g by lia.
  unfold Machine.shl1.
  destruct (Z.leb_spec 0 g); [|lia]. destruct (Z.ltb_spec g 31); [|lia].
  destruct (Z.leb_spec 0 (g + 1)); [|lia].
  destruct (Z.ltb_spec (g + 1) 31); [|lia].
  simpl. rewrite Hpow.
  destruct (IncrGlobalDepth_loop_copies (Z.to_nat (2 ^ g))
              (Z.to_nat (2 * 2 ^ g)) (2 ^ g) 0
              (ExtendibleHTableDirectoryPage.mk
                 (ExtendibleHTableDirectoryPage.max_depth_ d) (g + 1)
                 (ExtendibleHTableDirectoryPage.local_depths_ d)
                 (ExtendibleHTableDirectoryPage.bucket_page_ids_ d)))
    as (d' & Hloop & Hg' & Hm' & Hcells); simpl; try lia.
  rewrite Z.add_0_r in Hloop. exists d'.
  split; [exact Hloop|]. split; [exact Hg'|]. split; [exact Hm'|].
  intros i. destruct (Hcells i) as [Hc1 Hc2]. simpl in Hc1, Hc2.
  rewrite Z.add_0_r in Hc1, Hc2. by rewrite Hc1, Hc2.
Qed.

(** X18.  Doubling the directory keeps every hash on its bucket.  For a
    directory whose arrays have room for twice its size,
    [IncrGlobalDepth] returns with the global depth raised by one, and
    every hash is led to the same bucket page, with the same local depth,
    as before. *)
Theorem IncrGlobalDepth_keeps_buckets d :
  let g := ExtendibleHTableDirectoryPage.global_depth_ d in
  0 <= g < 30 →
  2 ^ (g + 1)
    <= Z.of_nat (length (ExtendibleHTableDirectoryPage.bucket_page_ids_ d)) →
  2 ^ (g + 1)
    <= Z.of_nat (length (ExtendibleHTableDirectoryPage.local_depths_ d)) →
  ∃ d',
    ExtendibleHTableDirectoryPage.IncrGlobalDepth d = Some d'
    ∧ ExtendibleHTableDirectoryPage.global_depth_ d' = g + 1
    ∧ ExtendibleHTableDirectoryPage.max_depth_ d'
      = ExtendibleHTableDirectoryPage.max_depth_ d
    ∧ ∀ hash,
        (i ← ExtendibleHTableDirectoryPage.HashToBucketIndex d' hash;
         ExtendibleHTableDirectoryPage.GetBucketPageId d' i)
        = (i ← ExtendibleHTableDirectoryPage.HashToBucketIndex d hash;
           ExtendibleHTableDirectoryPage.GetBucketPageId d i)
        ∧ (i ← ExtendibleHTableDirectoryPage.HashToBucketIndex d' hash;
           ExtendibleHTableDirectoryPage.GetLocalDepth d' i)
          = (i ← ExtendibleHTableDirectoryPage.HashToBucketIndex d hash;
             ExtendibleHTableDirectoryPage.GetLocalDepth d i).
Proof.
  intros g Hg Hids Hlds.
  assert (Hpow : 2 ^ (g + 1) = 2 * 2 ^ g) by (rewrite Z.pow_add_r; lia).
  assert (Hpos : 0 < 2 ^ g) by (apply Z.pow_pos_nonneg; lia).
  destruct (IncrGlobalDepth_cells d Hg Hids Hlds)
    as (d' & Hincr & Hg' & Hm' & Hcells).
  fold g in Hg', Hcells.
  exists d'. split; [exact Hincr|]. split; [exact Hg'|]. split; [exact Hm'|].
  intros hash.
  unfold ExtendibleHTableDirectoryPage.HashToBucketIndex,
    ExtendibleHTableDirectoryPage.GetGlobalDepthMask,
    ExtendibleHTableDirectoryPage.GetBucketPageId,
    ExtendibleHTableDirectoryPage.GetLocalDepth, Machine.shl1.
  rewrite Hg'. fold g.
  destruct (Z.leb_spec 0 g); [|lia]. destruct (Z.ltb_spec g 31); [|lia].
  destruct (Z.leb_spec 0 (g + 1)); [|lia].
  destruct (Z.ltb_spec (g + 1) 31); [|lia].
  simpl.
  rewrite !land_mask by lia.
  destruct (Hcells (hash mod 2 ^ (g + 1))) as [Hc1 Hc2].
  rewrite Hc1, Hc2.
  assert (Hmod : hash mod 2 ^ (g + 1)
                 = hash mod 2 ^ g + 2 ^ g * ((hash / 2 ^ g) mod 2)).
  { rewrite Hpow, (Z.mul_comm 2). apply Z.rem_mul_r; lia. }
  pose proof (Z.mod_pos_bound hash (2 ^ g) Hpos).
  pose proof (Z.mod_pos_bound (hash / 2 ^ g) 2 ltac:(lia)).
  assert (Hsame : (if decide (2 ^ g <= hash mod 2 ^ (g + 1) < 2 ^ (g + 1))
                   then hash mod 2 ^ (g + 1) - 2 ^ g
                   else hash mod 2 ^ (g + 1)) = hash mod 2 ^ g).
  { set (c := (hash / 2 ^ g) mod 2) in *.
    assert (Hc : c = 0 ∨ c = 1) by lia.
    destruct (decide _) as [Hin|Hout]; destruct Hc as [Hc|Hc];
      rewrite Hc in Hmod; lia. }
  by rewrite Hsame.
Qed.

Lemma IncrGlobalDepth_keeps_buckets_witness :
  ∃ d',
    ExtendibleHTableDirectoryPage.IncrGlobalDepth
      (ExtendibleHTableDirectoryPage.mk 3 1 [1; 0; 0; 0] [7; 8; 0; 0]) = Some d'
    ∧ ExtendibleHTableDirectoryPage.global_depth_ d' = 2
    ∧ (i ← ExtendibleHTableDirectoryPage.HashToBucketIndex d' 3;
       ExtendibleHTableDirectoryPage.GetBucketPageId d' i) = Some 8.
Proof.
  destruct (IncrGlobalDepth_keeps_buckets
              (ExtendibleHTableDirectoryPage.mk 3 1 [1; 0; 0; 0] [7; 8; 0; 0]))
    as (d' & Hincr & Hg & _ & Hsame).
  - simpl. lia.
  - simpl. lia.
  - simpl. lia.
  - exists d'. split; [exact Hincr|]. split; [exact Hg|].
    destruct (Hsame 3) as [-> _]. reflexivity.
Defined.

(** ** Bucket pages as finite maps *)

Section BucketMap.

Context {K V : Type} (cmp : K → K → Z).
Hypothesis Hcmp : comparator_decides_eq cmp.

Lemma scan_None_iff key tmp (cells : list (K * V)) :
  ExtendibleHTableBucketPage.scan cmp key tmp cells = None ↔ key ∉ cells.*1.
Proof.
  revert tmp. induction cells as [|c rest IH]; intros tmp; simpl.
  - split; [intros _ Hin; by apply elem_of_nil in Hin|done].
  - destruct (Z.eqb_spec (cmp key c.1) 0) as [Heq|Hne].
    + apply Hcmp in Heq. split; [discriminate|]. intros Hnot.
      exfalso. apply Hnot. rewrite Heq. by left.
    + rewrite IH. rewrite not_elem_of_cons.
      split; [|by intros [_ ?]]. intros Hrest. split; [|done].
      intros ->. apply Hne. by apply Hcmp.
Qed.

(** The cell that [scan] stops at. *)
Lemma scan_Some key tmp (cells : list (K * V)) i v :
  ExtendibleHTableBucketPage.scan cmp key tmp cells = Some (i, v) →
  ∃ n : nat, i = tmp + Z.of_nat n ∧ cells !! n = Some (key, v).
Proof.
  revert tmp. induction cells as [|c rest IH]; intros tmp; simpl; [discriminate|].
  destruct (Z.eqb_spec (cmp key c.1) 0) as [Heq|Hne].
  - apply Hcmp in Heq. intros [= <- <-]. exists 0%nat.
    split; [lia|]. simpl. rewrite Heq. by destruct c.
  - intros Hscan. destruct (IH _ Hscan) as (n & -> & Hn).
    exists (S n). split; [lia|done].
Qed.

Lemma NoDup_fst_agree (l : list (K * V)) k v1 v2 :
  NoDup l.*1 → (k, v1) ∈ l → (k, v2) ∈ l → v1 = v2.
Proof.
  induction l as [|c rest IH]; intros Hnodup H1 H2.
  - by apply elem_of_nil in H1.
  - simpl in Hnodup. apply NoDup_cons in Hnodup as [Hnotin Hnodup].
    apply elem_of_cons in H1 as [Hc1|H1]; apply elem_of_cons in H2 as [Hc2|H2].
    + congruence.
    + exfalso. apply Hnotin. subst c.
      by apply (list_elem_of_fmap_2 fst _ (k, v2)).
    + exfalso. apply Hnotin. subst c.
      by apply (list_elem_of_fmap_2 fst _ (k, v1)).
    + by apply IH.
Qed.

(** [Lookup] finds the value that the live cells hold for the key. *)
Lemma Lookup_spec (b : ExtendibleHTableBucketPage.t K V) key v :
  NoDup (ExtendibleHTableBucketPage.live b).*1 →
  ExtendibleHTableBucketPage.Lookup cmp b key = Some v
  ↔ (key, v) ∈ ExtendibleHTableBucketPage.live b.
Proof.
  intros Hnodup. unfold ExtendibleHTableBucketPage.Lookup.
  destruct (ExtendibleHTableBucketPage.scan cmp key 0 _) as [[i v']|] eqn:Hscan;
    simpl.
  - destruct (scan_Some _ _ _ _ _ Hscan) as (n & _ & Hn).
    apply list_elem_of_lookup_2 in Hn.
    split; [by intros [= <-]|]. intros Hin. f_equal.
    by eapply NoDup_fst_agree.
  - apply scan_None_iff in Hscan. split; [discriminate|]. intros Hin.
    exfalso. apply Hscan. by apply (list_elem_of_fmap_2 fst _ (key, v)).
Qed.

Lemma Lookup_None (b : ExtendibleHTableBucketPage.t K V) key :
  ExtendibleHTableBucketPage.Lookup cmp b key = None
  ↔ key ∉ (ExtendibleHTableBucketPage.live b).*1.
Proof.
  unfold ExtendibleHTableBucketPage.Lookup.
  rewrite <- (scan_None_iff key 0).
  destruct (ExtendibleHTableBucketPage.scan cmp key 0 _); simpl; [|done].
  split; discriminate.
Qed.

(** The live cells after a successful [Insert]. *)
Lemma live_store (b : ExtendibleHTableBucketPage.t K V) c :
  0 <= ExtendibleHTableBucketPage.size_ b
    <= Z.of_nat (length (ExtendibleHTableBucketPage.array_ b)) →
  take (Z.to_nat (ExtendibleHTableBucketPage.size_ b + 1))
       (ExtendibleHTableBucketPage.store (ExtendibleHTableBucketPage.size_ b) c
          (ExtendibleHTableBucketPage.array_ b))
  = ExtendibleHTableBucketPage.live b ++ [c]
  ∧ ExtendibleHTableBucketPage.size_ b + 1
    <= Z.of_nat (length (ExtendibleHTableBucketPage.store
                           (ExtendibleHTableBucketPage.size_ b) c
                           (ExtendibleHTableBucketPage.array_ b))).
Proof.
  intros Hsize. unfold ExtendibleHTableBucketPage.store,
    ExtendibleHTableBucketPage.live.
  set (n := ExtendibleHTableBucketPage.size_ b) in *.
  set (a := ExtendibleHTableBucketPage.array_ b) in *.
  replace (Z.to_nat (n + 1)) with (S (Z.to_nat n)) by lia.
  destruct (Z.ltb_spec n (Z.of_nat (length a))) as [Hlt|Hge].
  - split; [|rewrite length_insert; lia].
    rewrite (take_S_r _ _ c) by (apply list_lookup_insert_eq; lia).
    by rewrite take_insert_ge by lia.
  - split; [|rewrite length_app; simpl; lia].
    rewrite take_ge by (rewrite length_app; simpl; lia).
    by rewrite take_ge by lia.
Qed.

(** Swapping a cell with the one behind the last kept cell. *)
Lemma swap_remove_Permutation (l : list (K * V)) (n : nat) x y :
  l !! n = Some x →
  l ++ [y] ≡ₚ x :: <[n := y]> l.
Proof.
  intros Hn. rewrite insert_take_drop by (by eapply lookup_lt_Some).
  rewrite <- (take_drop_middle l n x Hn) at 1.
  rewrite <- app_assoc. simpl.
  rewrite <- Permutation_middle. apply Permutation_skip.
  rewrite (Permutation_app_comm (drop (S n) l) [y]). simpl.
  by rewrite <- Permutation_middle.
Qed.

(** [Insert] of a new key into a bucket with room appends the pair to
    the live cells. *)
Lemma Insert_live key value (b : ExtendibleHTableBucketPage.t K V) :
  bucket_wf b →
  ExtendibleHTableBucketPage.IsFull b = false →
  ExtendibleHTableBucketPage.Lookup cmp b key = None →
  ∃ b', ExtendibleHTableBucketPage.Insert cmp key value b = (true, b')
        ∧ bucket_wf b'
        ∧ ExtendibleHTableBucketPage.live b'
          = ExtendibleHTableBucketPage.live b ++ [(key, value)]
        ∧ ExtendibleHTableBucketPage.size_ b'
          = ExtendibleHTableBucketPage.size_ b + 1.
Proof.
  intros [Hsize Hmax Hkeys] Hfull Hnone.
  unfold ExtendibleHTableBucketPage.Insert. rewrite Hfull.
  assert (Hfresh : key ∉ (ExtendibleHTableBucketPage.live b).*1).
  { by apply Lookup_None. }
  rewrite (proj2 (scan_None_iff key 0 _) Hfresh).
  eexists. split; [reflexivity|].
  unfold ExtendibleHTableBucketPage.IsFull in Hfull. apply Z.eqb_neq in Hfull.
  destruct (live_store b (key, value) Hsize) as [Hlive Hlen].
  set (b' := ExtendibleHTableBucketPage.mk _ _ _).
  assert (Hsize' : ExtendibleHTableBucketPage.size_ b'
                   = ExtendibleHTableBucketPage.size_ b + 1).
  { subst b'. simpl. unfold Machine.wrap_u32. apply Z.mod_small. lia. }
  assert (Hlive' : ExtendibleHTableBucketPage.live b'
                   = ExtendibleHTableBucketPage.live b ++ [(key, value)]).
  { unfold ExtendibleHTableBucketPage.live at 1. rewrite Hsize'. exact Hlive. }
  split; [|done].
  split; [rewrite Hsize'; simpl; lia|rewrite Hsize'; simpl; lia|].
  rewrite Hlive', fmap_app. apply NoDup_app. split; [done|]. split.
  - intros k Hk Hin. apply list_elem_of_singleton in Hin. by subst k.
  - apply NoDup_singleton.
Qed.

(** [Remove] of a key that is held takes its pair out of the live
    cells. *)
Lemma Remove_live key (b : ExtendibleHTableBucketPage.t K V) v :
  bucket_wf b →
  ExtendibleHTableBucketPage.Lookup cmp b key = Some v →
  ∃ b', ExtendibleHTableBucketPage.Remove cmp key b = (true, b')
        ∧ bucket_wf b'
        ∧ ExtendibleHTableBucketPage.live b
          ≡ₚ (key, v) :: ExtendibleHTableBucketPage.live b'
        ∧ ExtendibleHTableBucketPage.size_ b'
          = ExtendibleHTableBucketPage.size_ b - 1.
Proof.
  intros [Hsize Hmax Hkeys] Hsome.
  unfold ExtendibleHTableBucketPage.Remove.
  unfold ExtendibleHTableBucketPage.Lookup in Hsome.
  destruct (ExtendibleHTableBucketPage.scan cmp key 0 _) as [[i v0]|] eqn:Hscan;
    [|discriminate].
  simpl in Hsome. injection Hsome as ->.
  destruct (scan_Some _ _ _ _ _ Hscan) as (n & -> & Hn).
  set (size := ExtendibleHTableBucketPage.size_ b) in *.
  set (a := ExtendibleHTableBucketPage.array_ b) in *.
  assert (Hn' : (n < Z.to_nat size)%nat ∧ a !! n = Some (key, v)).
  { unfold ExtendibleHTableBucketPage.live in Hn. fold size a in Hn.
    apply lookup_take_Some in Hn. tauto. }
  destruct Hn' as [Hlt Han].
  replace (Z.to_nat (0 + Z.of_nat n)) with n by lia. rewrite Han.
  destruct (lookup_lt_is_Some_2 a (Z.to_nat (size - 1))) as [y Hy]; [lia|].
  rewrite Hy. eexists. split; [reflexivity|].
  set (b' := ExtendibleHTableBucketPage.mk _ _ _).
  assert (Hsize' : ExtendibleHTableBucketPage.size_ b' = size - 1).
  { subst b'. simpl. unfold Machine.wrap_u32. apply Z.mod_small. lia. }
  set (l0 := take (Z.to_nat (size - 1)) a).
  assert (Hlive : ExtendibleHTableBucketPage.live b = l0 ++ [y]).
  { unfold ExtendibleHTableBucketPage.live. fold size a.
    replace (Z.to_nat size) with (S (Z.to_nat (size - 1))) by lia.
    by apply take_S_r. }
  assert (Hperm : ExtendibleHTableBucketPage.live b
                  ≡ₚ (key, v) :: ExtendibleHTableBucketPage.live b').
  { rewrite Hlive. unfold ExtendibleHTableBucketPage.live. rewrite Hsize'.
    subst b'. simpl. rewrite take_insert_ge by lia.
    destruct (decide (n = Z.to_nat (size - 1))) as [->|Hne].
    - rewrite take_insert_ge by lia. fold l0.
      assert (y = (key, v)) as -> by congruence.
      by rewrite <- Permutation_cons_append.
    - rewrite take_insert_lt by lia. fold l0.
      apply swap_remove_Permutation. subst l0.
      rewrite lookup_take_lt by lia. done. }
  split; [|done].
  split.
  - rewrite Hsize'. subst b'. simpl. rewrite !length_insert. fold a. lia.
  - rewrite Hsize'. subst b'. simpl. lia.
  - rewrite Hperm in Hkeys. simpl in Hkeys.
    by apply NoDup_cons in Hkeys as [_ ?].
Qed.

Lemma Remove_absent key (b : ExtendibleHTableBucketPage.t K V) :
  ExtendibleHTableBucketPage.Lookup cmp b key = None →
  ExtendibleHTableBucketPage.Remove cmp key b = (false, b).
Proof.
  unfold ExtendibleHTableBucketPage.Lookup, ExtendibleHTableBucketPage.Remove.
  by destruct (ExtendibleHTableBucketPage.scan cmp key 0 _).
Qed.

(** What [Lookup] finds once a pair has been appended to the live cells,
    and once a pair has been taken out of them. *)
Lemma Lookup_appended key value (b b' : ExtendibleHTableBucketPage.t K V) :
  NoDup (ExtendibleHTableBucketPage.live b').*1 →
  ExtendibleHTableBucketPage.live b'
  = ExtendibleHTableBucketPage.live b ++ [(key, value)] →
  ExtendibleHTableBucketPage.Lookup cmp b' key = Some value
  ∧ ∀ k, k ≠ key →
      ExtendibleHTableBucketPage.Lookup cmp b' k
      = ExtendibleHTableBucketPage.Lookup cmp b k.
Proof.
  intros Hkeys' Hlive'.
  assert (Hkeys : NoDup (ExtendibleHTableBucketPage.live b).*1).
  { rewrite Hlive', fmap_app in Hkeys'. by apply NoDup_app in Hkeys' as [? _]. }
  split.
  - apply Lookup_spec; [done|]. rewrite Hlive'. apply elem_of_app. right.
    by left.
  - intros k Hk. apply option_eq. intros v.
    rewrite !Lookup_spec by done. rewrite Hlive', elem_of_app.
    split; [|by left]. intros [Hin|Hin]; [done|].
    apply list_elem_of_singleton in Hin. congruence.
Qed.

Lemma Lookup_taken_out key v (b b' : ExtendibleHTableBucketPage.t K V) :
  NoDup (ExtendibleHTableBucketPage.live b).*1 →
  ExtendibleHTableBucketPage.live b
  ≡ₚ (key, v) :: ExtendibleHTableBucketPage.live b' →
  ExtendibleHTableBucketPage.Lookup cmp b' key = None
  ∧ ∀ k, k ≠ key →
      ExtendibleHTableBucketPage.Lookup cmp b' k
      = ExtendibleHTableBucketPage.Lookup cmp b k.
Proof.
  intros Hkeys Hperm.
  assert (Hkeys' : (key ∉ (ExtendibleHTableBucketPage.live b').*1)
                   ∧ NoDup (ExtendibleHTableBucketPage.live b').*1).
  { rewrite Hperm in Hkeys. simpl in Hkeys. by apply NoDup_cons in Hkeys. }
  destruct Hkeys' as [Hgone Hkeys'].
  split; [by apply Lookup_None|].
  intros k Hk. apply option_eq. intros v'.
  rewrite !Lookup_spec by done. rewrite Hperm, elem_of_cons.
  split; [by right|]. intros [Heq|Hin]; [congruence|done].
Qed.

End BucketMap.

(** X19.  [Insert] on a bucket page is the insertion of a finite map
    that refuses to overwrite.  On a bucket whose live keys are distinct,
    with a comparator that tells equal keys from different ones, the
    call returns [true] exactly when the bucket is not full and does not
    hold the key; then the key is found with the given value and [Size]
    has grown by one; otherwise the bucket is unchanged.  All other keys
    are found as before, and the bucket keeps distinct keys and a size
    within its capacity. *)
Theorem bucket_Insert_is_map_insert {K V : Type} (cmp : K → K → Z) key value
    (b : ExtendibleHTableBucketPage.t K V) ok b' :
  comparator_decides_eq cmp →
  bucket_wf b →
  ExtendibleHTableBucketPage.Insert cmp key value b = (ok, b') →
  bucket_wf b'
  ∧ (ok = true ↔
       ExtendibleHTableBucketPage.IsFull b = false
       ∧ ExtendibleHTableBucketPage.Lookup cmp b key = None)
  ∧ (ok = true →
       ExtendibleHTableBucketPage.Lookup cmp b' key = Some value
       ∧ ExtendibleHTableBucketPage.Size b'
         = ExtendibleHTableBucketPage.Size b + 1)
  ∧ (ok = false → b' = b)
  ∧ ∀ k, k ≠ key →
      ExtendibleHTableBucketPage.Lookup cmp b' k
      = ExtendibleHTableBucketPage.Lookup cmp b k.
Proof.
  intros Hcmp Hwf Hins.
  destruct (ExtendibleHTableBucketPage.IsFull b) eqn:Hfull.
  { unfold ExtendibleHTableBucketPage.Insert in Hins. rewrite Hfull in Hins.
    injection Hins as <- <-.
    split; [done|]. split; [split; [done|by intros [? _]]|].
    split; [done|]. split; done. }
  destruct (ExtendibleHTableBucketPage.Lookup cmp b key) as [v|] eqn:Hlook.
  { unfold ExtendibleHTableBucketPage.Insert in Hins. rewrite Hfull in Hins.
    unfold ExtendibleHTableBucketPage.Lookup in Hlook.
    destruct (ExtendibleHTableBucketPage.scan cmp key 0 _); [|discriminate].
    injection Hins as <- <-.
    split; [done|]. split; [split; [done|by intros [_ ?]]|].
    split; [done|]. split; done. }
  destruct (Insert_live cmp Hcmp key value b Hwf Hfull Hlook)
    as (b1 & Hins1 & Hwf1 & Hlive1 & Hsize1).
  rewrite Hins1 in Hins. injection Hins as <- <-.
  destruct (Lookup_appended cmp Hcmp key value b b1 (bwf_keys b1 Hwf1) Hlive1)
    as [Hfound Hothers].
  split; [done|]. split; [done|]. split; [done|]. split; [discriminate|done].
Qed.

(** X20.  [Remove] on a bucket page is the deletion of a finite map.  On
    a bucket whose live keys are distinct, with a comparator that tells
    equal keys from different ones, the call returns [true] exactly when
    the key was held, and [Size] is then one less; the key is not found
    afterwards, all other keys are found as before, and the bucket keeps
    distinct keys and a size within its capacity. *)
Theorem bucket_Remove_is_map_delete {K V : Type} (cmp : K → K → Z) key
    (b : ExtendibleHTableBucketPage.t K V) ok b' :
  comparator_decides_eq cmp →
  bucket_wf b →
  ExtendibleHTableBucketPage.Remove cmp key b = (ok, b') →
  bucket_wf b'
  ∧ (ok = true ↔ is_Some (ExtendibleHTableBucketPage.Lookup cmp b key))
  ∧ ExtendibleHTableBucketPage.Lookup cmp b' key = None
  ∧ (ok = true →
       ExtendibleHTableBucketPage.Size b'
       = ExtendibleHTableBucketPage.Size b - 1)
  ∧ (ok = false → b' = b)
  ∧ ∀ k, k ≠ key →
      ExtendibleHTableBucketPage.Lookup cmp b' k
      = ExtendibleHTableBucketPage.Lookup cmp b k.
Proof.
  intros Hcmp Hwf Hrem.
  destruct (ExtendibleHTableBucketPage.Lookup cmp b key) as [v|] eqn:Hlook.
  - destruct (Remove_live cmp Hcmp key b v Hwf Hlook)
      as (b1 & Hrem1 & Hwf1 & Hperm & Hsize1).
    rewrite Hrem1 in Hrem. injection Hrem as <- <-.
    destruct (Lookup_taken_out cmp Hcmp key v b b1 (bwf_keys b Hwf) Hperm)
      as [Hgone Hothers].
    split; [done|]. split; [done|]. split; [done|]. split; [done|].
    split; [discriminate|done].
  - rewrite (Remove_absent cmp key b Hlook) in Hrem. injection Hrem as <- <-.
    split; [done|]. split; [split; [done|by intros [? ?]]|].
    split; [done|]. split; [done|]. split; done.
Qed.

Lemma IntComparator_decides_eq : comparator_decides_eq IntComparator.
Proof.
  intros a b. unfold IntComparator.
  destruct (Z.ltb_spec a b); [split; [discriminate|lia]|].
  destruct (Z.ltb_spec b a); [split; [discriminate|lia]|].
  split; [lia|done].
Qed.

Lemma bucket_Insert_is_map_insert_witness :
  let b := ExtendibleHTableBucketPage.mk 1 2 [(7, 97)] in
  let r := ExtendibleHTableBucketPage.Insert IntComparator 8 98 b in
  r.1 = true
  ∧ ExtendibleHTableBucketPage.Lookup IntComparator r.2 8 = Some 98
  ∧ ExtendibleHTableBucketPage.Lookup IntComparator r.2 7 = Some 97.
Proof.
  intros b r.
  destruct (bucket_Insert_is_map_insert IntComparator 8 98 b r.1 r.2)
    as (_ & _ & Hfound & _ & Hothers).
  - exact IntComparator_decides_eq.
  - split; simpl.
    + lia.
    + lia.
    + apply NoDup_singleton.
  - subst r. apply surjective_pairing.
  - assert (Hok : r.1 = true) by reflexivity.
    split; [exact Hok|]. split; [exact (proj1 (Hfound Hok))|].
    rewrite Hothers by lia. reflexivity.
Defined.

Lemma bucket_Remove_is_map_delete_witness :
  let b := ExtendibleHTableBucketPage.mk 2 2 [(7, 97); (8, 98)] in
  let r := ExtendibleHTableBucketPage.Remove IntComparator 7 b in
  r.1 = true
  ∧ ExtendibleHTableBucketPage.Lookup IntComparator r.2 7 = None
  ∧ ExtendibleHTableBucketPage.Lookup IntComparator r.2 8 = Some 98.
Proof.
  intros b r.
  destruct (bucket_Remove_is_map_delete IntComparator 7 b r.1 r.2)
    as (_ & _ & Hgone & _ & _ & Hothers).
  - exact IntComparator_decides_eq.
  - split; simpl.
    + lia.
    + lia.
    + apply NoDup_cons. split; [|apply NoDup_singleton].
      intros Hin. apply list_elem_of_singleton in Hin. discriminate Hin.
  - subst r. apply surjective_pairing.
  - split; [reflexivity|]. split; [exact Hgone|].
    rewrite Hothers by lia. reflexivity.
Defined.

(** ** The hash table as a finite map, as long as no bucket splits *)

Section TableMap.

Context {K V : Type} (cmp : K → K → Z) (hash_fn : K → Z).







End TableMap.







(** ** A new table and its first key *)







Section FirstKey.

Context {K V : Type} (cmp : K → K → Z) (hash_fn : K → Z).
Hypothesis Hcmp : comparator_decides_eq cmp.



End FirstKey.




(** ** Migration of entries at a split *)

Section Migrate.

Context {K V : Type} (cmp : K → K → Z) (hash_fn : K → Z).
Hypothesis Hcmp : comparator_decides_eq cmp.

(** The loop of [MigrateEntries] from index [i] on, [n] bounding the
    cells still to be gone through.  [entries] are the live cells of the
    two buckets taken together, [before] the live cells that the new
    bucket had at the start. *)
Lemma MigrateEntries_loop_keeps (entries before : list (K * V))
    new_bucket_idx local_depth_mask (n : nat) :
  ∀ fuel i (old new : ExtendibleHTableBucketPage.t K V),
    (n <= fuel)%nat → 0 <= i →
    ExtendibleHTableBucketPage.size_ old - i <= Z.of_nat n →
    bucket_wf old → bucket_wf new →
    (∀ k, k ∈ (ExtendibleHTableBucketPage.live old).*1 →
          k ∉ (ExtendibleHTableBucketPage.live new).*1) →
    ExtendibleHTableBucketPage.size_ old + ExtendibleHTableBucketPage.size_ new
      <= ExtendibleHTableBucketPage.max_size_ new →
    ExtendibleHTableBucketPage.live old ++ ExtendibleHTableBucketPage.live new
      ≡ₚ entries →
    (∀ c, c ∈ ExtendibleHTableBucketPage.live new →
          c ∈ before
          ∨ new_bucket_idx
            = Z.land (DiskExtendibleHashTable.Hash hash_fn c.1) local_depth_mask) →
    ∃ old' new',
      DiskExtendibleHashTable.MigrateEntries_loop cmp hash_fn fuel i
        (ExtendibleHTableBucketPage.size_ old) old new
        new_bucket_idx local_depth_mask = Some (old', new')
      ∧ bucket_wf old' ∧ bucket_wf new'
      ∧ ExtendibleHTableBucketPage.live old'
          ++ ExtendibleHTableBucketPage.live new' ≡ₚ entries
      ∧ ∀ c, c ∈ ExtendibleHTableBucketPage.live new' →
             c ∈ before
             ∨ new_bucket_idx
               = Z.land (DiskExtendibleHashTable.Hash hash_fn c.1)
                   local_depth_mask.
Proof.
  induction n as [|n IH];
    intros fuel i old new Hfuel Hi Hleft Hwf_old Hwf_new Hdisj Hroom Hperm Hmoved.
  - exists old, new. split; [|done].
    destruct fuel; simpl;
      (destruct (Z.ltb_spec i (ExtendibleHTableBucketPage.size_ old)) as [?|_];
       [lia|done]).
  - destruct fuel as [|fuel]; [lia|]. simpl.
    destruct (Z.ltb_spec i (ExtendibleHTableBucketPage.size_ old)) as [Hlt|_];
      [|by exists old, new].
    pose proof Hwf_old as [Hsize Hmax Hkeys].
    destruct (lookup_lt_is_Some_2 (ExtendibleHTableBucketPage.array_ old)
                (Z.to_nat i)) as [[k v] Hcell]; [lia|].
    assert (Hlive : (k, v) ∈ ExtendibleHTableBucketPage.live old).
    { apply (list_elem_of_lookup_2 _ (Z.to_nat i)).
      unfold ExtendibleHTableBucketPage.live.
      rewrite lookup_take_lt by lia. done. }
    unfold ExtendibleHTableBucketPage.KeyAt, ExtendibleHTableBucketPage.ValueAt,
      ExtendibleHTableBucketPage.EntryAt.
    destruct (Z.ltb_spec i 0); [lia|]. rewrite Hcell. simpl.
    assert (Hnext : Machine.wrap_u32 (i + 1) = i + 1).
    { unfold Machine.wrap_u32. apply Z.mod_small. lia. }
    rewrite Hnext.
    destruct (new_bucket_idx
              =? Z.land (DiskExtendibleHashTable.Hash hash_fn k) local_depth_mask)
      eqn:Hmatch; simpl.
    + (* the entry moves *)
      apply Z.eqb_eq in Hmatch.
      assert (Hlook : ExtendibleHTableBucketPage.Lookup cmp old k = Some v).
      { by apply (Lookup_spec cmp Hcmp). }
      destruct (Remove_live cmp Hcmp k old v Hwf_old Hlook)
        as (old1 & Hrem & Hwf_old1 & Hperm_old & Hsize_old1).
      assert (Hfresh : k ∉ (ExtendibleHTableBucketPage.live new).*1).
      { apply Hdisj. by apply (list_elem_of_fmap_2 fst _ (k, v)). }
      assert (Hfull : ExtendibleHTableBucketPage.IsFull new = false).
      { unfold ExtendibleHTableBucketPage.IsFull. apply Z.eqb_neq.
        destruct Hwf_new as [? ? ?]. lia. }
      destruct (Insert_live cmp Hcmp k v new Hwf_new Hfull)
        as (new1 & Hins & Hwf_new1 & Hlive_new1 & Hsize_new1).
      { by apply (Lookup_None cmp Hcmp). }
      rewrite Hrem, Hins. simpl.
      assert (Htmp : Machine.wrap_u32 (ExtendibleHTableBucketPage.size_ old - 1)
                     = ExtendibleHTableBucketPage.size_ old1).
      { rewrite Hsize_old1. unfold Machine.wrap_u32. apply Z.mod_small. lia. }
      rewrite Htmp.
      assert (Hkeys1 : (k ∉ (ExtendibleHTableBucketPage.live old1).*1)
                       ∧ ∀ k', k' ∈ (ExtendibleHTableBucketPage.live old1).*1 →
                               k' ∈ (ExtendibleHTableBucketPage.live old).*1).
      { rewrite Hperm_old in Hkeys. simpl in Hkeys.
        apply NoDup_cons in Hkeys as [Hnot _]. split; [done|].
        intros k' Hk'. rewrite Hperm_old. simpl. by right. }
      destruct Hkeys1 as [Hgone Hsub].
      apply IH; try done; try lia.
      * intros k' Hk' Hin'. rewrite Hlive_new1, fmap_app in Hin'.
        apply elem_of_app in Hin' as [Hin'|Hin'].
        -- by apply (Hdisj k' (Hsub k' Hk')).
        -- apply list_elem_of_singleton in Hin'. simpl in Hin'. by subst k'.
      * assert (ExtendibleHTableBucketPage.max_size_ new1
                = ExtendibleHTableBucketPage.max_size_ new) as ->; [|lia].
        revert Hins. unfold ExtendibleHTableBucketPage.Insert.
        rewrite Hfull.
        destruct (ExtendibleHTableBucketPage.scan cmp k 0 _);
          [discriminate|]. by intros [= <-].
      * rewrite <- Hperm, Hperm_old, Hlive_new1. simpl.
        rewrite (Permutation_app_comm (ExtendibleHTableBucketPage.live new)).
        simpl. by rewrite <- Permutation_middle.
      * intros c Hc. rewrite Hlive_new1 in Hc.
        apply elem_of_app in Hc as [Hc|Hc]; [by apply Hmoved|].
        apply list_elem_of_singleton in Hc. subst c. by right.
    + (* the entry stays *)
      apply IH; try done; lia.
Qed.

End Migrate.

(** X25.  [MigrateEntries] loses no entry.  For buckets with distinct
    keys that share no key, the new one with room for all entries of the
    old one, the call returns; the live entries of the two buckets taken
    together are the same as before, both buckets keep distinct keys,
    and every entry that the new bucket has gained has a hash that the
    mask maps to the new bucket's index. *)
Theorem MigrateEntries_loses_no_entry {K V : Type} (cmp : K → K → Z)
    (hash_fn : K → Z) (old_bucket new_bucket : ExtendibleHTableBucketPage.t K V)
    new_bucket_idx local_depth_mask :
  comparator_decides_eq cmp →
  bucket_wf old_bucket → bucket_wf new_bucket →
  (∀ k, k ∈ (ExtendibleHTableBucketPage.live old_bucket).*1 →
        k ∉ (ExtendibleHTableBucketPage.live new_bucket).*1) →
  ExtendibleHTableBucketPage.size_ old_bucket
    + ExtendibleHTableBucketPage.size_ new_bucket
    <= ExtendibleHTableBucketPage.max_size_ new_bucket →
  ∃ old' new',
    DiskExtendibleHashTable.MigrateEntries cmp hash_fn old_bucket new_bucket
      new_bucket_idx local_depth_mask = Some (old', new')
    ∧ bucket_wf old' ∧ bucket_wf new'
    ∧ ExtendibleHTableBucketPage.live old'
        ++ ExtendibleHTableBucketPage.live new'
      ≡ₚ ExtendibleHTableBucketPage.live old_bucket
           ++ ExtendibleHTableBucketPage.live new_bucket
    ∧ ∀ c, c ∈ ExtendibleHTableBucketPage.live new' →
           c ∈ ExtendibleHTableBucketPage.live new_bucket
           ∨ new_bucket_idx
             = Z.land (DiskExtendibleHashTable.Hash hash_fn c.1)
                 local_depth_mask.
Proof.
  intros Hcmp Hwf_old Hwf_new Hdisj Hroom.
  unfold DiskExtendibleHashTable.MigrateEntries, ExtendibleHTableBucketPage.Size.
  apply (MigrateEntries_loop_keeps cmp hash_fn Hcmp
           (ExtendibleHTableBucketPage.live old_bucket
              ++ ExtendibleHTableBucketPage.live new_bucket)
           (ExtendibleHTableBucketPage.live new_bucket)
           new_bucket_idx local_depth_mask
           (Z.to_nat (ExtendibleHTableBucketPage.size_ old_bucket)));
    try done.
  - destruct Hwf_old as [? ? ?]. lia.
  - by left.
Qed.

Lemma MigrateEntries_loses_no_entry_witness :
  ∃ old' new',
    DiskExtendibleHashTable.MigrateEntries IntComparator identity_hash
      (ExtendibleHTableBucketPage.mk 2 2 [(1, 97); (5, 98)])
      (ExtendibleHTableBucketPage.mk 0 2 []) 1 3 = Some (old', new')
    ∧ ExtendibleHTableBucketPage.live old'
        ++ ExtendibleHTableBucketPage.live new'
      ≡ₚ [(1, 97); (5, 98)].
Proof.
  destruct (MigrateEntries_loses_no_entry IntComparator identity_hash
              (ExtendibleHTableBucketPage.mk 2 2 [(1, 97); (5, 98)])
              (ExtendibleHTableBucketPage.mk 0 2 []) 1 3)
    as (old' & new' & Hrun & _ & _ & Hperm & _).
  - exact IntComparator_decides_eq.
  - split; simpl.
    + lia.
    + lia.
    + apply NoDup_cons. split; [|apply NoDup_singleton].
      intros Hin. apply list_elem_of_singleton in Hin. discriminate Hin.
  - split; simpl.
    + lia.
    + lia.
    + apply NoDup_nil_2.
  - intros k _ Hin. simpl in Hin. by apply elem_of_nil in Hin.
  - simpl. lia.
  - exists old', new'. split; [exact Hrun|exact Hperm].
Defined.

(** *** Splitting a bucket at the global depth *)

Lemma lxor_pow2_small a g :
  0 <= g → 0 <= a < 2 ^ g → Z.lxor a (2 ^ g) = a + 2 ^ g.
Proof.
  intros Hg Ha. symmetry. apply Z.add_nocarry_lxor.
  apply Z.bits_inj'. intros n Hn.
  rewrite Z.land_spec, Z.bits_0, Z.pow2_bits_eqb by done.
  destruct (Z.eqb_spec g n) as [<-|_]; [|apply andb_false_r].
  rewrite andb_true_r. apply Z.testbit_false; [done|].
  rewrite Z.div_small by lia. reflexivity.
Qed.

(** X26.  A bucket whose local depth equals the global depth is split by
    doubling the directory.  For such a bucket in a directory that can
    still grow, [GetSplitImageIndex] is the bucket's index plus the old
    directory size, and the directory part of the split in [Insert]
    returns a directory of global depth one more in which the split
    image leads to the new bucket page, the bucket's index leads to the
    page it led to, both with local depth one more, and every other
    index leads to the page and local depth that its lower half index
    had. *)
Theorem split_directory_doubles d bucket_index new_bucket_page_id
    new_local_depth_mask :
  let g := ExtendibleHTableDirectoryPage.global_depth_ d in
  0 <= g < 30 →
  0 <= ExtendibleHTableDirectoryPage.max_depth_ d < 31 →
  ExtendibleHTableDirectoryPage.max_depth_ d ≠ g →
  2 ^ (g + 1)
    <= Z.of_nat (length (ExtendibleHTableDirectoryPage.bucket_page_ids_ d)) →
  2 ^ (g + 1)
    <= Z.of_nat (length (ExtendibleHTableDirectoryPage.local_depths_ d)) →
  0 <= bucket_index < 2 ^ g →
  ExtendibleHTableDirectoryPage.GetLocalDepth d bucket_index = Some g →
  ExtendibleHTableDirectoryPage.GetSplitImageIndex d bucket_index
    = Some (bucket_index + 2 ^ g)
  ∧ ∃ d',
      DiskExtendibleHashTable.split_directory d bucket_index
        (bucket_index + 2 ^ g) new_bucket_page_id new_local_depth_mask
      = Some (Some d')
      ∧ ExtendibleHTableDirectoryPage.global_depth_ d' = g + 1
      ∧ ∀ i, 0 <= i < 2 ^ (g + 1) →
          ExtendibleHTableDirectoryPage.GetBucketPageId d' i
          = (if decide (i = bucket_index + 2 ^ g)
             then Some new_bucket_page_id
             else ExtendibleHTableDirectoryPage.GetBucketPageId d
                    (i mod 2 ^ g))
          ∧ ExtendibleHTableDirectoryPage.GetLocalDepth d' i
            = (if decide (i mod 2 ^ g = bucket_index)
               then Some (g + 1)
               else ExtendibleHTableDirectoryPage.GetLocalDepth d
                      (i mod 2 ^ g)).
Proof.
  intros g Hg Hmax Hgrow Hids Hlds Hbi Hld.
  assert (Hpow : 2 ^ (g + 1) = 2 * 2 ^ g) by (rewrite Z.pow_add_r; lia).
  assert (Hpos : 0 < 2 ^ g) by (apply Z.pow_pos_nonneg; lia).
  assert (Hu8 : Machine.wrap_u8 (g + 1) = g + 1).
  { unfold Machine.wrap_u8. apply Z.mod_small. lia. }
  assert (Hshl : Machine.shl1 g = Some (2 ^ g)).
  { unfold Machine.shl1.
    destruct (Z.leb_spec 0 g); [|lia]. by destruct (Z.ltb_spec g 31); [|lia]. }
  unfold ExtendibleHTableDirectoryPage.GetLocalDepth in Hld.
  split.
  { unfold ExtendibleHTableDirectoryPage.GetSplitImageIndex.
    rewrite Hld. cbn [mbind option_bind]. rewrite Hshl. cbn [mbind option_bind].
    by rewrite lxor_pow2_small by lia. }
  (* the local depth is raised first *)
  destruct (set_cell_in_range (ExtendibleHTableDirectoryPage.local_depths_ d)
              bucket_index (g + 1)) as (lds1 & Hset1 & Hlen1); [lia|].
  set (d1 := ExtendibleHTableDirectoryPage.mk
               (ExtendibleHTableDirectoryPage.max_depth_ d) g lds1
               (ExtendibleHTableDirectoryPage.bucket_page_ids_ d)).
  assert (Hincr_ld : ExtendibleHTableDirectoryPage.IncrLocalDepth bucket_index d
                     = Some d1).
  { unfold ExtendibleHTableDirectoryPage.IncrLocalDepth.
    rewrite Hld. cbn [mbind option_bind]. rewrite Hu8, Hset1. done. }
  (* then the directory is doubled *)
  destruct (IncrGlobalDepth_cells d1) as (d2 & Hincr & Hg2 & Hmax2 & Hcells2);
    [done|done|simpl; lia|].
  simpl in Hg2, Hmax2, Hcells2.
  assert (Hlen2 : ∀ i, 0 <= i < 2 ^ (g + 1) →
            i < Z.of_nat (length (ExtendibleHTableDirectoryPage.bucket_page_ids_ d2))
            ∧ i < Z.of_nat (length (ExtendibleHTableDirectoryPage.local_depths_ d2))).
  { intros i Hi. destruct (Hcells2 i) as [Hc1 Hc2].
    destruct (cell_in_range (ExtendibleHTableDirectoryPage.bucket_page_ids_ d)
                (if decide (2 ^ g <= i < 2 ^ (g + 1)) then i - 2 ^ g else i))
      as [v1 Hv1]; [destruct (decide _); lia|].
    destruct (cell_in_range lds1
                (if decide (2 ^ g <= i < 2 ^ (g + 1)) then i - 2 ^ g else i))
      as [v2 Hv2]; [destruct (decide _); lia|].
    rewrite Hv1 in Hc1. rewrite Hv2 in Hc2.
    unfold ExtendibleHTableDirectoryPage.cell in Hc1, Hc2.
    destruct (Z.ltb_spec i 0); [lia|].
    apply lookup_lt_Some in Hc1. apply lookup_lt_Some in Hc2. lia. }
  assert (Hlow : ∀ i, 0 <= i < 2 ^ (g + 1) →
            (if decide (2 ^ g <= i < 2 ^ (g + 1)) then i - 2 ^ g else i)
            = i mod 2 ^ g).
  { intros i Hi. destruct (decide _) as [Hin|Hout].
    - apply Z.mod_unique_pos with (q := 1); lia.
    - symmetry. apply Z.mod_small. lia. }
  assert (Hld2 : ExtendibleHTableDirectoryPage.cell
                   (ExtendibleHTableDirectoryPage.local_depths_ d2) bucket_index
                 = Some (g + 1)).
  { destruct (Hcells2 bucket_index) as [_ ->].
    destruct (decide _) as [?|_]; [lia|].
    rewrite (cell_set_cell _ _ _ _ _ Hset1).
    by destruct (decide (bucket_index = bucket_index)). }
  (* and the split image is given the new page *)
  destruct (Hlen2 (bucket_index + 2 ^ g)) as [Hlen_ids Hlen_lds]; [lia|].
  destruct (set_cell_in_range (ExtendibleHTableDirectoryPage.bucket_page_ids_ d2)
              (bucket_index + 2 ^ g) new_bucket_page_id)
    as (ids3 & Hset_ids & _); [lia|].
  destruct (set_cell_in_range (ExtendibleHTableDirectoryPage.local_depths_ d2)
              (bucket_index + 2 ^ g) (g + 1))
    as (lds3 & Hset_lds & _); [lia|].
  exists (ExtendibleHTableDirectoryPage.mk
            (ExtendibleHTableDirectoryPage.max_depth_ d2) (g + 1) lds3 ids3).
  split; [|split; [done|]].
  - unfold DiskExtendibleHashTable.split_directory,
      ExtendibleHTableDirectoryPage.GetLocalDepth,
      ExtendibleHTableDirectoryPage.GetGlobalDepth,
      ExtendibleHTableDirectoryPage.Size,
      ExtendibleHTableDirectoryPage.MaxSize.
    rewrite Hld. cbn [mbind option_bind]. fold g. rewrite Z.eqb_refl, Hshl.
    cbn [mbind option_bind].
    assert (Hshl_max : Machine.shl1 (ExtendibleHTableDirectoryPage.max_depth_ d)
                       = Some (2 ^ ExtendibleHTableDirectoryPage.max_depth_ d)).
    { unfold Machine.shl1.
      destruct (Z.leb_spec 0 (ExtendibleHTableDirectoryPage.max_depth_ d)); [|lia].
      by destruct (Z.ltb_spec (ExtendibleHTableDirectoryPage.max_depth_ d) 31);
        [|lia]. }
    rewrite Hshl_max. cbn [mbind option_bind].
    destruct (Z.eqb_spec (2 ^ g) (2 ^ ExtendibleHTableDirectoryPage.max_depth_ d))
      as [Heq|_].
    { apply Z.pow_inj_r in Heq; lia. }
    rewrite Hincr_ld. cbn [mbind option_bind]. rewrite Hincr.
    cbn [mbind option_bind]. rewrite Hld2. cbn [mbind option_bind].
    unfold DiskExtendibleHashTable.UpdateDirectoryMapping,
      ExtendibleHTableDirectoryPage.SetBucketPageId,
      ExtendibleHTableDirectoryPage.SetLocalDepth.
    rewrite Hset_ids. cbn [mbind option_bind
      ExtendibleHTableDirectoryPage.local_depths_
      ExtendibleHTableDirectoryPage.bucket_page_ids_
      ExtendibleHTableDirectoryPage.max_depth_
      ExtendibleHTableDirectoryPage.global_depth_].
    rewrite Hu8, Hset_lds. cbn [mbind option_bind]. by rewrite Hg2.
  - intros i Hi.
    unfold ExtendibleHTableDirectoryPage.GetBucketPageId,
      ExtendibleHTableDirectoryPage.GetLocalDepth.
    cbn [ExtendibleHTableDirectoryPage.local_depths_
         ExtendibleHTableDirectoryPage.bucket_page_ids_].
    rewrite (cell_set_cell _ _ _ _ _ Hset_ids), (cell_set_cell _ _ _ _ _ Hset_lds).
    destruct (Hcells2 i) as [Hc1 Hc2]. rewrite (Hlow i Hi) in Hc1, Hc2.
    assert (Hmod : (bucket_index + 2 ^ g) mod 2 ^ g = bucket_index).
    { symmetry. apply Z.mod_unique_pos with (q := 1); lia. }
    pose proof (Z.mod_pos_bound i (2 ^ g) Hpos) as Hrange.
    destruct (decide (i = bucket_index + 2 ^ g)) as [->|Hne].
    + split; [done|]. rewrite Hmod.
      by destruct (decide (bucket_index = bucket_index)).
    + rewrite Hc1, Hc2. split; [done|].
      rewrite (cell_set_cell _ _ _ _ _ Hset1).
      by destruct (decide (i mod 2 ^ g = bucket_index)).
Qed.

Lemma split_directory_doubles_witness :
  ∃ d',
    DiskExtendibleHashTable.split_directory
      (ExtendibleHTableDirectoryPage.mk 3 1 [1; 1; 0; 0] [7; 8; 0; 0])
      1 (1 + 2 ^ 1) 9 0 = Some (Some d')
    ∧ ExtendibleHTableDirectoryPage.global_depth_ d' = 2
    ∧ ExtendibleHTableDirectoryPage.GetBucketPageId d' 3 = Some 9
    ∧ ExtendibleHTableDirectoryPage.GetBucketPageId d' 2 = Some 7.
Proof.
  destruct (split_directory_doubles
              (ExtendibleHTableDirectoryPage.mk 3 1 [1; 1; 0; 0] [7; 8; 0; 0])
              1 9 0) as (_ & d' & Hsplit & Hg & Hcells).
  - simpl. lia.
  - simpl. lia.
  - simpl. lia.
  - simpl. lia.
  - simpl. lia.
  - simpl. lia.
  - reflexivity.
  - exists d'. split; [exact Hsplit|]. split; [exact Hg|].
    split.
    + destruct (Hcells 3) as [-> _]; [simpl; lia|]. reflexivity.
    + destruct (Hcells 2) as [-> _]; [simpl; lia|]. reflexivity.
Defined.
